(** * Infinite canvas: viewport transform engine and keyboard navigation

    A shallow embedding of [src/core/viewport/ViewportManager.ts] and of
    [src/core/navigation/KeyboardNavigationManager.ts], and the properties
    of the camera arithmetic, the element store and the selection state
    that the specification states about them.

    Numbers.  A JavaScript [number] is modelled by [Num.num]: an exact
    rational, or one of the three non-finite values that the arithmetic of
    the source can produce ([Infinity], [-Infinity], [NaN]).  Rounding is
    not modelled (finite arithmetic is exact) and there is a single zero,
    which divides like [+0].  Finite results are never rounded and never
    overflow: a statement about finite values is a statement in exact
    arithmetic, which the doubles of the program follow up to rounding
    and within their range. *)

From Stdlib Require Import QArith Qabs Qminmax Psatz List String ZArith Bool.
From Stdlib Require Import Reals Qreals.
Import ListNotations.

Local Open Scope Q_scope.

(* ================================================================== *)
(** ** JavaScript numbers *)
(* ================================================================== *)

Module Num.

Inductive num : Type :=
| Fin (q : Q)
| PInf
| NInf
| NaN.

(** [a < b] on rationals, as a boolean. *)
Definition Qltb (a b : Q) : bool :=
  match a ?= b with Lt => true | _ => false end.

(** The infinity whose sign is the given comparison with zero; a zero
    sign gives [NaN] (as in [0 * Infinity] and [0 / 0]). *)
Definition inf (s : comparison) : num :=
  match s with Gt => PInf | Lt => NInf | Eq => NaN end.

Definition signum (q : Q) : comparison := q ?= 0.

(** Unary minus. *)
Definition neg (a : num) : num :=
  match a with
  | Fin q => Fin (- q)
  | PInf => NInf
  | NInf => PInf
  | NaN => NaN
  end.

(** [a + b]. *)
Definition add (a b : num) : num :=
  match a, b with
  | NaN, _ | _, NaN => NaN
  | Fin p, Fin q => Fin (p + q)
  | PInf, NInf | NInf, PInf => NaN
  | PInf, _ | _, PInf => PInf
  | NInf, _ | _, NInf => NInf
  end.

(** [a - b]. *)
Definition sub (a b : num) : num := add a (neg b).

(** [a * b]. *)
Definition mul (a b : num) : num :=
  match a, b with
  | NaN, _ | _, NaN => NaN
  | Fin p, Fin q => Fin (p * q)
  | Fin p, PInf | PInf, Fin p => inf (signum p)
  | Fin p, NInf | NInf, Fin p => inf (CompOpp (signum p))
  | PInf, PInf | NInf, NInf => PInf
  | PInf, NInf | NInf, PInf => NInf
  end.

(** [a / b]: a finite quotient when the divisor is a non-zero rational,
    an infinity or [NaN] when it is zero. *)
Definition div (a b : num) : num :=
  match a, b with
  | NaN, _ | _, NaN => NaN
  | Fin p, Fin q => if Qeq_bool q 0 then inf (signum p) else Fin (p / q)
  | Fin _, PInf | Fin _, NInf => Fin 0
  | PInf, Fin q => if Qltb q 0 then NInf else PInf
  | NInf, Fin q => if Qltb q 0 then PInf else NInf
  | PInf, PInf | PInf, NInf | NInf, PInf | NInf, NInf => NaN
  end.

(** [a < b]; every comparison with [NaN] is false. *)
Definition ltb (a b : num) : bool :=
  match a, b with
  | NaN, _ | _, NaN => false
  | Fin p, Fin q => Qltb p q
  | NInf, NInf => false
  | NInf, _ => true
  | PInf, _ => false
  | Fin _, PInf => true
  | Fin _, NInf => false
  end.

(** [a > b]. *)
Definition gtb (a b : num) : bool := ltb b a.

(** [Math.min(a, b)] and [Math.max(a, b)]: [NaN] as soon as one argument
    is [NaN]. *)
Definition min (a b : num) : num :=
  match a, b with
  | NaN, _ | _, NaN => NaN
  | _, _ => if ltb b a then b else a
  end.

Definition max (a b : num) : num :=
  match a, b with
  | NaN, _ | _, NaN => NaN
  | _, _ => if ltb a b then b else a
  end.

(** [Math.abs(a)]. *)
Definition abs (a : num) : num :=
  match a with
  | Fin q => Fin (Qabs q)
  | PInf | NInf => PInf
  | NaN => NaN
  end.

(** [Math.pow(a, n)] for a natural exponent [n]. *)
Fixpoint pow (a : num) (n : nat) : num :=
  match n with
  | O => Fin 1
  | S O => a
  | S m => mul a (pow a m)
  end.

(** [Math.sqrt] of a rational is in general irrational: its result is kept
    as the exact surd, represented by its radicand. *)
Record surd : Type := Sqrt { radicand : num }.

(** The sign of [a - b] for two surds, as a sort comparator sees it:
    [Lt] when the difference is negative, [Gt] when it is positive and
    [Eq] when it is zero or [NaN] (a comparator result of [NaN] counts as
    [0]).  The square root is strictly increasing on the non-negative
    rationals, [sqrt(Infinity)] is [Infinity], and the root of a negative
    number is [NaN]. *)
Definition surd_cmp (a b : surd) : comparison :=
  match radicand a, radicand b with
  | Fin p, Fin q =>
      if Qltb p 0 || Qltb q 0 then Eq else p ?= q
  | Fin p, PInf => if Qltb p 0 then Eq else Lt
  | PInf, Fin q => if Qltb q 0 then Eq else Gt
  | _, _ => Eq
  end.

(** Two model values denote the same number. *)
Definition eqv (a b : num) : Prop :=
  match a, b with
  | Fin p, Fin q => p == q
  | PInf, PInf | NInf, NInf | NaN, NaN => True
  | _, _ => False
  end.

Definition finite (a : num) : bool :=
  match a with Fin _ => true | _ => false end.

(** [lo <= a <= hi] for a finite [a]. *)
Definition within (lo hi : Q) (a : num) : Prop :=
  match a with
  | Fin q => lo <= q /\ q <= hi
  | _ => False
  end.

End Num.

Import Num.

Declare Scope num_scope.
Delimit Scope num_scope with num.
Bind Scope num_scope with num.
Infix "+" := add : num_scope.
Infix "-" := sub : num_scope.
Infix "*" := mul : num_scope.
Infix "/" := div : num_scope.
Infix "<?" := ltb : num_scope.
Infix ">?" := gtb : num_scope.
Infix "=~" := eqv (at level 70, no associativity) : num_scope.

(** Numeric literals of the source. *)
Definition n (z : Z) : num := Fin (inject_Z z).

(* ================================================================== *)
(** ** ViewportManager.ts *)
(* ================================================================== *)

Module VM.

Local Open Scope num_scope.

Record Viewport : Type := mkViewport { vp_x : num; vp_y : num; vp_zoom : num }.
Record Point : Type := mkPoint { pt_x : num; pt_y : num }.
Record Bounds : Type :=
  mkBounds { b_x : num; b_y : num; b_width : num; b_height : num }.

(** The two attributes of the canvas element that the manager reads. *)
Record Canvas : Type := mkCanvas { c_width : num; c_height : num }.

(** The closure [animate] of one [animateViewport] call: the captured
    [start], [target], [duration] and [startTime]. *)
Record Animation : Type := mkAnimation
  { a_start : Viewport; a_target : Viewport;
    a_duration : num; a_startTime : num }.

(** The manager: its [viewport] field, its canvas, and the callbacks
    handed to [requestAnimationFrame] that have not run yet, oldest
    first.  (The drawing context is only written to, never read.) *)
Record ViewportManager : Type := mkVM
  { viewport : Viewport; canvas : Canvas; scheduled : list Animation }.

(** [private viewport = { x: 0, y: 0, zoom: 1 }] *)
Definition initialViewport : Viewport := mkViewport (n 0) (n 0) (n 1).

Definition new (c : Canvas) : ViewportManager := mkVM initialViewport c [].

Definition with_viewport (v : Viewport) (m : ViewportManager) : ViewportManager :=
  mkVM v (canvas m) (scheduled m).

Definition screenToWorld (m : ViewportManager) (screenPoint : Point) : Point :=
  let v := viewport m in
  mkPoint ((pt_x screenPoint - vp_x v) / vp_zoom v)
          ((pt_y screenPoint - vp_y v) / vp_zoom v).

Definition worldToScreen (m : ViewportManager) (worldPoint : Point) : Point :=
  let v := viewport m in
  mkPoint (pt_x worldPoint * vp_zoom v + vp_x v)
          (pt_y worldPoint * vp_zoom v + vp_y v).

Definition pan (deltaX deltaY : num) (m : ViewportManager) : ViewportManager :=
  let v := viewport m in
  with_viewport (mkViewport (vp_x v + deltaX) (vp_y v + deltaY) (vp_zoom v)) m.

(** The literals [0.1] and [5] of the clamp in [zoomAt]. *)
Definition zMin : Q := 1 # 10.
Definition zMax : Q := 5.

Definition zoomAt (screenPoint : Point) (zoomFactor : num)
    (m : ViewportManager) : ViewportManager :=
  let worldPoint := screenToWorld m screenPoint in
  let v := viewport m in
  let zoom1 := vp_zoom v * zoomFactor in
  let zoom2 := Num.max (Fin zMin) (Num.min (Fin zMax) zoom1) in
  let m2 := with_viewport (mkViewport (vp_x v) (vp_y v) zoom2) m in
  let newScreenPoint := worldToScreen m2 worldPoint in
  with_viewport
    (mkViewport (vp_x v + (pt_x screenPoint - pt_x newScreenPoint))
                (vp_y v + (pt_y screenPoint - pt_y newScreenPoint))
                zoom2) m.

(** [animateViewport(target, duration)], called when [Date.now()] is
    [now]: captures the current state and queues the first frame. *)
Definition animateViewport (target : Viewport) (duration now : num)
    (m : ViewportManager) : ViewportManager :=
  mkVM (viewport m) (canvas m)
       (scheduled m ++ [mkAnimation (viewport m) target duration now]).

(** The target state computed by [focusOnBounds]. *)
Definition focusTarget (c : Canvas) (bounds : Bounds) (padding : num) : Viewport :=
  let targetZoom :=
    Num.min ((c_width c - padding * n 2) / b_width bounds)
            ((c_height c - padding * n 2) / b_height bounds) in
  let targetX :=
    c_width c / n 2 - (b_x bounds + b_width bounds / n 2) * targetZoom in
  let targetY :=
    c_height c / n 2 - (b_y bounds + b_height bounds / n 2) * targetZoom in
  mkViewport targetX targetY targetZoom.

Definition focusOnBounds (bounds : Bounds) (padding duration now : num)
    (m : ViewportManager) : ViewportManager :=
  animateViewport (focusTarget (canvas m) bounds padding) duration now m.

(** The default arguments [padding = 50, duration = 600]. *)
Definition focusOnBounds_default (bounds : Bounds) (now : num) :=
  focusOnBounds bounds (n 50) (n 600) now.

(** The state written by one run of the closure [animate] at time [now]. *)
Definition animate_progress (a : Animation) (now : num) : num :=
  let elapsed := now - a_startTime a in
  Num.min (elapsed / a_duration a) (n 1).

Definition animate_state (a : Animation) (now : num) : Viewport :=
  let progress := animate_progress a now in
  let easeOut := n 1 - Num.pow (n 1 - progress) 3 in
  let start := a_start a in
  let target := a_target a in
  mkViewport (vp_x start + (vp_x target - vp_x start) * easeOut)
             (vp_y start + (vp_y target - vp_y start) * easeOut)
             (vp_zoom start + (vp_zoom target - vp_zoom start) * easeOut).

(** One run of [animate]: write the state, and queue the next frame
    while [progress < 1]. *)
Definition animate (a : Animation) (now : num) (m : ViewportManager)
  : ViewportManager :=
  mkVM (animate_state a now) (canvas m)
       (if animate_progress a now <? n 1 then scheduled m ++ [a]
        else scheduled m).

(** One animation frame of the browser at time [now]: the callbacks
    queued before the frame run in order; what they queue waits for the
    next frame. *)
Definition animationFrame (now : num) (m : ViewportManager) : ViewportManager :=
  fold_left (fun m' a => animate a now m') (scheduled m)
            (mkVM (viewport m) (canvas m) []).


Definition getViewportBounds (m : ViewportManager) : Bounds :=
  let topLeft := screenToWorld m (mkPoint (n 0) (n 0)) in
  let bottomRight :=
    screenToWorld m (mkPoint (c_width (canvas m)) (c_height (canvas m))) in
  mkBounds (pt_x topLeft) (pt_y topLeft)
           (pt_x bottomRight - pt_x topLeft)
           (pt_y bottomRight - pt_y topLeft).

Definition getViewport (m : ViewportManager) : Viewport := viewport m.

Definition setViewport (v : Viewport) (m : ViewportManager) : ViewportManager :=
  with_viewport v m.

(** The mutating operations of the public interface, and one browser
    frame, as commands. *)
Inductive op : Type :=
| Pan (deltaX deltaY : num)
| ZoomAt (screenPoint : Point) (zoomFactor : num)
| SetViewport (v : Viewport)
| FocusOnBounds (bounds : Bounds) (padding duration now : num)
| Frame (now : num).

Definition run (o : op) (m : ViewportManager) : ViewportManager :=
  match o with
  | Pan dx dy => pan dx dy m
  | ZoomAt p f => zoomAt p f m
  | SetViewport v => setViewport v m
  | FocusOnBounds b p d now => focusOnBounds b p d now m
  | Frame now => animationFrame now m
  end.

Definition runs (os : list op) (m : ViewportManager) : ViewportManager :=
  fold_left (fun m' o => run o m') os m.

End VM.

(* ================================================================== *)
(** ** types/diagram.ts and KeyboardNavigationManager.ts *)
(* ================================================================== *)

Module Nav.

Local Open Scope string_scope.
Local Open Scope list_scope.
Local Open Scope num_scope.

Inductive ElementType : Type := class | method | interface.
Inductive Mode : Type := select | create | connect.
Inductive Direction : Type := left | right | up | down.

Record DiagramElement : Type := mkElement
  { el_id : string;
    el_x : num; el_y : num; el_width : num; el_height : num;
    el_type : ElementType;
    connections : list string }.

Record NavigationState : Type := mkState
  { selectedId : option string;      (* [null] is [None] *)
    mode : Mode;
    focusHistory : list string }.

(** *** [Map<string, DiagramElement>]

    A JavaScript [Map] iterates in insertion order; [set] on a key that is
    present keeps its place.  The values are the element objects
    themselves, so a field assignment on an element fetched with [get]
    is an update of the entry.  Each entry holds its element by value: an
    object or an array of connections that a caller of [addElement] hands
    in twice is two values here. *)
Definition ElementMap : Type := list (string * DiagramElement).

Fixpoint map_get (k : string) (m : ElementMap) : option DiagramElement :=
  match m with
  | [] => None
  | (k', e) :: t => if k' =? k then Some e else map_get k t
  end.

Definition map_has (k : string) (m : ElementMap) : bool :=
  match map_get k m with Some _ => true | None => false end.

(** The entry of key [k], when there is one, becomes [f] of itself. *)
Fixpoint map_mutate (k : string) (f : DiagramElement -> DiagramElement)
    (m : ElementMap) : ElementMap :=
  match m with
  | [] => []
  | (k', e) :: t =>
      if k' =? k then (k', f e) :: t else (k', e) :: map_mutate k f t
  end.

Definition map_set (k : string) (e : DiagramElement) (m : ElementMap) : ElementMap :=
  if map_has k m then map_mutate k (fun _ => e) m else m ++ [(k, e)].

Definition map_delete (k : string) (m : ElementMap) : ElementMap :=
  filter (fun p => negb (fst p =? k)) m.

Definition map_keys (m : ElementMap) : list string := List.map fst m.
Definition map_values (m : ElementMap) : list DiagramElement := List.map snd m.

(** *** Arrays of ids *)

(** [arr.indexOf(s)], [-1] when absent. *)
Fixpoint indexOf (arr : list string) (s : string) : Z :=
  match arr with
  | [] => (-1)%Z
  | k :: t =>
      if k =? s then 0%Z
      else let r := indexOf t s in
           if (r <? 0)%Z then (-1)%Z else (r + 1)%Z
  end.

(** [arr[i]]; [None] stands for [undefined]. *)
Definition at_index (arr : list string) (i : Z) : option string :=
  if (i <? 0)%Z then None else nth_error arr (Z.to_nat i).

(** *** The manager

    The state of the manager is its navigation state, its store and the
    viewport manager it drives.  The optional callbacks
    ([onSelectionChange], [onElementCreate], ...) notify the application
    and are not part of it. *)

Record Manager : Type := mkManager
  { state : NavigationState;
    elements : ElementMap;
    viewport : VM.ViewportManager }.

Definition new (v : VM.ViewportManager) : Manager :=
  mkManager (mkState None select []) [] v.

Definition with_state (s : NavigationState) (m : Manager) : Manager :=
  mkManager s (elements m) (viewport m).
Definition with_elements (els : ElementMap) (m : Manager) : Manager :=
  mkManager (state m) els (viewport m).
Definition with_vm (v : VM.ViewportManager) (m : Manager) : Manager :=
  mkManager (state m) (elements m) v.

(** The selected id when [this.state.selectedId] is truthy: neither
    [null] nor the empty string. *)
Definition selected (m : Manager) : option string :=
  match selectedId (state m) with
  | Some s => if s =? EmptyString then None else Some s
  | None => None
  end.

Definition historyLimit : nat := 10.

Definition selectElement (id : string) (m : Manager) : Manager :=
  let h := filter (fun i => negb (i =? id)) (focusHistory (state m)) ++ [id] in
  let h' := if (historyLimit <? List.length h)%nat then tl h else h in
  with_state (mkState (Some id) (mode (state m)) h') m.

(** [this.selectElement(arr[i])].  The indices that the callers compute
    are within the array (see [navigateNext_index_ok] and
    [navigatePrevious_index_ok]); out of it nothing is modelled. *)
Definition selectAt (arr : list string) (i : Z) (m : Manager) : Manager :=
  match at_index arr i with
  | Some id => selectElement id m
  | None => m
  end.

Definition navigateNext (m : Manager) : Manager :=
  let els := map_keys (elements m) in
  if (List.length els =? 0)%nat then m
  else match selected m with
       | None => selectAt els 0 m
       | Some sel =>
           let currentIndex := indexOf els sel in
           let nextIndex := Z.rem (currentIndex + 1) (Z.of_nat (List.length els)) in
           selectAt els nextIndex m
       end.

Definition navigatePrevious (m : Manager) : Manager :=
  let els := map_keys (elements m) in
  if (List.length els =? 0)%nat then m
  else match selected m with
       | None => selectAt els (Z.of_nat (List.length els) - 1) m
       | Some sel =>
           let currentIndex := indexOf els sel in
           let prevIndex :=
             Z.rem (currentIndex - 1 + Z.of_nat (List.length els))
                   (Z.of_nat (List.length els)) in
           selectAt els prevIndex m
       end.

Definition selectFirst (m : Manager) : Manager :=
  let els := map_keys (elements m) in
  if (0 <? List.length els)%nat then selectAt els 0 m else m.

Definition threshold : num := n 30.

Definition isInDirection (from to : DiagramElement) (direction : Direction) : bool :=
  match direction with
  | left =>
      (el_x to + el_width to <? el_x from + threshold)
      && (Num.abs (el_y to + el_height to / n 2 - el_y from - el_height from / n 2)
          <? el_height from / n 2 + threshold)
  | right =>
      (el_x to >? el_x from + el_width from - threshold)
      && (Num.abs (el_y to + el_height to / n 2 - el_y from - el_height from / n 2)
          <? el_height from / n 2 + threshold)
  | up =>
      (el_y to + el_height to <? el_y from + threshold)
      && (Num.abs (el_x to + el_width to / n 2 - el_x from - el_width from / n 2)
          <? el_width from / n 2 + threshold)
  | down =>
      (el_y to >? el_y from + el_height from - threshold)
      && (Num.abs (el_x to + el_width to / n 2 - el_x from - el_width from / n 2)
          <? el_width from / n 2 + threshold)
  end.

Definition center (e : DiagramElement) : VM.Point :=
  VM.mkPoint (el_x e + el_width e / n 2) (el_y e + el_height e / n 2).

Definition calculateDistance (from to : DiagramElement) : surd :=
  let fromCenter := center from in
  let toCenter := center to in
  Sqrt (Num.pow (VM.pt_x toCenter - VM.pt_x fromCenter) 2
        + Num.pow (VM.pt_y toCenter - VM.pt_y fromCenter) 2).

Record Candidate : Type := mkCandidate
  { c_id : string; c_element : DiagramElement; c_distance : surd }.

(** [candidates.sort((a, b) => a.distance - b.distance)].  The sort of an
    array is stable: entries that the comparator does not separate keep
    their order. *)
Fixpoint sort_insert (a : Candidate) (l : list Candidate) : list Candidate :=
  match l with
  | [] => [a]
  | b :: t =>
      match surd_cmp (c_distance a) (c_distance b) with
      | Gt => b :: sort_insert a t
      | _ => a :: b :: t
      end
  end.

Fixpoint sort (l : list Candidate) : list Candidate :=
  match l with
  | [] => []
  | a :: t => sort_insert a (sort t)
  end.

(** The loop of [navigateSpatial] that collects the candidates. *)
Definition collect (sel : string) (current : DiagramElement)
    (direction : Direction) (els : ElementMap) : list Candidate :=
  flat_map (fun p =>
              let '(id, element) := p in
              if id =? sel then []
              else if negb (isInDirection current element direction) then []
              else [mkCandidate id element (calculateDistance current element)])
           els.

Definition navigateSpatial (direction : Direction) (m : Manager) : Manager :=
  match selected m with
  | None => selectFirst m
  | Some sel =>
      match map_get sel (elements m) with
      | None => m
      | Some current =>
          let candidates := collect sel current direction (elements m) in
          if (List.length candidates =? 0)%nat then m
          else match sort candidates with
               | c :: _ => selectElement (c_id c) m
               | [] => m
               end
      end
  end.

Definition moveSelected (deltaX deltaY : num) (m : Manager) : Manager :=
  match selected m with
  | None => m
  | Some sel =>
      match map_get sel (elements m) with
      | None => m
      | Some _ =>
          with_elements
            (map_mutate sel
               (fun element =>
                  mkElement (el_id element)
                            (el_x element + deltaX) (el_y element + deltaY)
                            (el_width element) (el_height element)
                            (el_type element) (connections element))
               (elements m)) m
      end
  end.

Definition getCreationPosition (m : Manager) : VM.Point :=
  let viewportCenter :=
    let viewportBounds := VM.getViewportBounds (viewport m) in
    VM.mkPoint
      (VM.b_x viewportBounds + VM.b_width viewportBounds / n 2 - n 60)
      (VM.b_y viewportBounds + VM.b_height viewportBounds / n 2 - n 40) in
  match selected m with
  | Some sel =>
      match map_get sel (elements m) with
      | Some sel_el => VM.mkPoint (el_x sel_el + n 200) (el_y sel_el)
      | None => viewportCenter
      end
  | None => viewportCenter
  end.

(** [id] is the value returned by [generateId], which draws it from the
    clock and the random source. *)
Definition createClass (id : string) (m : Manager) : Manager :=
  let position := getCreationPosition m in
  let element :=
    mkElement id (VM.pt_x position) (VM.pt_y position) (n 120) (n 80)
              class [] in
  selectElement id (with_elements (map_set id element (elements m)) m).

Definition createMethod (id : string) (m : Manager) : Manager :=
  let position := getCreationPosition m in
  let element :=
    mkElement id (VM.pt_x position) (VM.pt_y position) (n 100) (n 60)
              method [] in
  selectElement id (with_elements (map_set id element (elements m)) m).

Definition createInterface (id : string) (m : Manager) : Manager :=
  let position := getCreationPosition m in
  let element :=
    mkElement id (VM.pt_x position) (VM.pt_y position) (n 140) (n 70)
              interface [] in
  selectElement id (with_elements (map_set id element (elements m)) m).

Definition push_connection (id : string) (e : DiagramElement) : DiagramElement :=
  mkElement (el_id e) (el_x e) (el_y e) (el_width e) (el_height e)
            (el_type e) (connections e ++ [id]).

Definition createConnected (id : string) (m : Manager) : Manager :=
  match selected m with
  | None => createClass id m
  | Some sel =>
      match map_get sel (elements m) with
      | None => m
      | Some parent =>
          let element :=
            mkElement id (el_x parent + n 200) (el_y parent) (n 120) (n 80)
                      class [el_id parent] in
          let els := map_mutate sel (push_connection id) (elements m) in
          selectElement id (with_elements (map_set id element els) m)
      end
  end.

Definition focusOnSelected (now : num) (m : Manager) : Manager :=
  match selected m with
  | None => m
  | Some sel =>
      match map_get sel (elements m) with
      | None => m
      | Some element =>
          with_vm
            (VM.focusOnBounds_default
               (VM.mkBounds (el_x element - n 50) (el_y element - n 50)
                            (el_width element + n 100)
                            (el_height element + n 100))
               now (viewport m)) m
      end
  end.

(** [connected.connections = connected.connections.filter(id => id !== sel)] *)
Definition drop_connection (sel : string) (e : DiagramElement) : DiagramElement :=
  mkElement (el_id e) (el_x e) (el_y e) (el_width e) (el_height e)
            (el_type e)
            (filter (fun id => negb (id =? sel)) (connections e)).

(** The [forEach] of [deleteSelected] over the connections of the
    deleted element. *)
Definition disconnect (sel : string) (ids : list string) (els : ElementMap)
  : ElementMap :=
  fold_left (fun els' connectedId =>
               match map_get connectedId els' with
               | Some _ => map_mutate connectedId (drop_connection sel) els'
               | None => els'
               end) ids els.

Definition deleteSelected (m : Manager) : Manager :=
  match selected m with
  | None => m
  | Some sel =>
      let els1 :=
        match map_get sel (elements m) with
        | Some element => disconnect sel (connections element) (elements m)
        | None => elements m
        end in
      let wasSelected := sel in
      let m1 := with_elements (map_delete sel els1) m in
      let m2 := navigateNext m1 in
      match selectedId (state m2) with
      | Some s =>
          if s =? wasSelected
          then with_state (mkState None (mode (state m2))
                                   (focusHistory (state m2))) m2
          else m2
      | None => m2
      end
  end.

Definition setMode (md : Mode) (m : Manager) : Manager :=
  with_state (mkState (selectedId (state m)) md (focusHistory (state m))) m.

Definition canvasCenter (m : Manager) : VM.Point :=
  VM.mkPoint (VM.c_width (VM.canvas (viewport m)) / n 2)
             (VM.c_height (VM.canvas (viewport m)) / n 2).

Definition zoomIn (m : Manager) : Manager :=
  with_vm (VM.zoomAt (canvasCenter m) (Fin (12 # 10)) (viewport m)) m.

Definition zoomOut (m : Manager) : Manager :=
  with_vm (VM.zoomAt (canvasCenter m) (Fin (8 # 10)) (viewport m)) m.

Definition zoomToFit (now : num) (m : Manager) : Manager :=
  if (List.length (elements m) =? 0)%nat then m
  else
    let vs := map_values (elements m) in
    let minX := fold_left (fun a e => Num.min a (el_x e)) vs PInf in
    let minY := fold_left (fun a e => Num.min a (el_y e)) vs PInf in
    let maxX := fold_left (fun a e => Num.max a (el_x e + el_width e)) vs NInf in
    let maxY := fold_left (fun a e => Num.max a (el_y e + el_height e)) vs NInf in
    with_vm
      (VM.focusOnBounds_default
         (VM.mkBounds minX minY (maxX - minX) (maxY - minY))
         now (viewport m)) m.

Definition goHome (m : Manager) : Manager :=
  with_vm (VM.setViewport (VM.mkViewport (n 0) (n 0) (n 1)) (viewport m)) m.

Definition addElement (element : DiagramElement) (m : Manager) : Manager :=
  with_elements (map_set (el_id element) element (elements m)) m.

Definition removeElement (id : string) (m : Manager) : Manager :=
  let m1 := with_elements (map_delete id (elements m)) m in
  match selectedId (state m) with
  | Some s =>
      if s =? id
      then with_state (mkState None (mode (state m)) (focusHistory (state m))) m1
      else m1
  | None => m1
  end.

Definition getSelectedId (m : Manager) : option string := selectedId (state m).
Definition getState (m : Manager) : NavigationState := state m.
Definition getAllElements (m : Manager) : list DiagramElement :=
  map_values (elements m).

(** The commands of the shortcut table and of the public interface.  A
    creation carries the id that [generateId] returns, a camera focus the
    clock value, and [Tick] is one animation frame of the browser. *)
Inductive Command : Type :=
| NavigateNext
| NavigatePrevious
| NavigateSpatial (d : Direction)
| MoveSelected (deltaX deltaY : num)
| CreateClass (id : string)
| CreateMethod (id : string)
| CreateInterface (id : string)
| CreateConnected (id : string)
| FocusOnSelected (now : num)
| DeleteSelected
| GoHome
| ZoomIn
| ZoomOut
| ZoomToFit (now : num)
| SetMode (md : Mode)
| AddElement (e : DiagramElement)
| RemoveElement (id : string)
| Tick (now : num).

Definition exec (c : Command) (m : Manager) : Manager :=
  match c with
  | NavigateNext => navigateNext m
  | NavigatePrevious => navigatePrevious m
  | NavigateSpatial d => navigateSpatial d m
  | MoveSelected dx dy => moveSelected dx dy m
  | CreateClass id => createClass id m
  | CreateMethod id => createMethod id m
  | CreateInterface id => createInterface id m
  | CreateConnected id => createConnected id m
  | FocusOnSelected now => focusOnSelected now m
  | DeleteSelected => deleteSelected m
  | GoHome => goHome m
  | ZoomIn => zoomIn m
  | ZoomOut => zoomOut m
  | ZoomToFit now => zoomToFit now m
  | SetMode md => setMode md m
  | AddElement e => addElement e m
  | RemoveElement id => removeElement id m
  | Tick now => with_vm (VM.animationFrame now (viewport m)) m
  end.

(** The states that a manager built on canvas [c] can be in. *)
Inductive reachable (c : VM.Canvas) : Manager -> Prop :=
| reach_new : reachable c (new (VM.new c))
| reach_exec : forall cmd m, reachable c m -> reachable c (exec cmd m).

End Nav.

(* ================================================================== *)
(** ** Predicates used in the statements *)
(* ================================================================== *)

Module Props.

Import VM Nav.
Local Open Scope string_scope.
Local Open Scope list_scope.

(** A viewport command whose effect on [zoom] is the identity ([pan]) or
    goes through the clamp of [zoomAt] with a factor that is a number. *)
Definition clamping (o : VM.op) : Prop :=
  match o with
  | Pan _ _ => True
  | ZoomAt _ f => f <> NaN
  | _ => False
  end.

(** The canvas of the tests and of the application: 800 by 600. *)
Definition canvas800x600 : Canvas := mkCanvas (n 800) (n 600).

(** A manager on that canvas, as the constructor leaves it. *)
Definition fresh : Manager := Nav.new (VM.new canvas800x600).

(** A sequence of commands. *)
Definition execs (cmds : list Command) (m : Manager) : Manager :=
  fold_left (fun m' c => exec c m') cmds m.

(** The layouts of the scenarios. *)
Definition rect (id : string) (x y w h : Z) (conns : list string) : DiagramElement :=
  mkElement id (n x) (n y) (n w) (n h) class conns.

(** Two connected elements, the first one selected. *)
Definition pairAB : Manager :=
  execs [AddElement (rect "A" 100 100 100 80 ["B"]);
         AddElement (rect "B" 300 100 100 80 ["A"]);
         NavigateNext] fresh.

(** Three elements, the middle one selected. *)
Definition threeB : Manager :=
  execs [AddElement (rect "a" 100 100 120 80 []);
         AddElement (rect "b" 300 100 120 80 []);
         AddElement (rect "c" 500 100 120 80 []);
         NavigateNext; NavigateNext] fresh.

(** The layout of the navigation tests, the first element selected. *)
Definition testLayout : Manager :=
  execs [AddElement (rect "elem1" 100 100 120 80 []);
         AddElement (rect "elem2" 250 100 120 80 []);
         AddElement (rect "elem3" 100 200 120 80 []);
         NavigateNext] fresh.

(** Two narrow elements, the second one entirely on the left of the
    first, which is selected. *)
Definition narrow : Manager :=
  execs [AddElement (rect "wide" 100 100 10 80 []);
         AddElement (rect "thin" 85 100 5 80 []);
         NavigateNext] fresh.

(** The centre of a rectangle of the viewport. *)
Definition boundsCenter (b : VM.Bounds) : VM.Point :=
  VM.mkPoint (VM.b_x b + VM.b_width b / n 2)%num
             (VM.b_y b + VM.b_height b / n 2)%num.

(** A few viewport commands: zoom in at the centre, pan, and two zooms
    beyond the upper bound. *)
Definition sampleOps : list VM.op :=
  [ZoomAt (mkPoint (n 400) (n 300)) (n 2); Pan (n 10) (n 20);
   ZoomAt (mkPoint (n 0) (n 0)) (n 10); ZoomAt (mkPoint (n 0) (n 0)) PInf].

(** Bounds with no extent. *)
Definition degenerate : Bounds := mkBounds (n 0) (n 0) (n 0) (n 0).

(** The manager after one creation. *)
Definition oneClass : Manager := execs [CreateClass "a"] fresh.

(** The keys of a [Map] are distinct. *)
Definition distinct_keys (els : ElementMap) : Prop := NoDup (map_keys els).

Definition finite_element (e : DiagramElement) : bool :=
  finite (el_x e) && finite (el_y e)
  && finite (el_width e) && finite (el_height e).

Definition finite_store (els : ElementMap) : bool :=
  forallb (fun p => finite_element (snd p)) els.

(** The connections are symmetric: an element lists only elements of the
    store, and these list it back. *)
Definition symmetric (els : ElementMap) : Prop :=
  forall a ea, map_get a els = Some ea ->
  forall b, In b (connections ea) ->
  exists eb, map_get b els = Some eb /\ In a (connections eb).

Definition lists (a : string) (e : DiagramElement) : bool :=
  existsb (String.eqb a) (connections e).

(** The same, as a test on the entries. *)
Definition symmetricb (els : ElementMap) : bool :=
  forallb (fun p =>
             forallb (fun b => match map_get b els with
                               | Some eb => lists (fst p) eb
                               | None => false
                               end)
                     (connections (snd p)))
          els.

(** The element that follows [k] in the order of [keys], the first one
    after the last. *)
Fixpoint follower (keys : list string) (k : string) : option string :=
  match keys with
  | [] => None
  | k' :: t => if k' =? k then hd_error t else follower t k
  end.

Definition cyclic_successor (keys : list string) (k : string) : option string :=
  match follower keys k with
  | Some s => Some s
  | None => hd_error keys
  end.

(** The last entry of a list. *)
Definition last_entry (h : list string) : option string := hd_error (rev h).

(** The condition of [isInDirection], on rational coordinates: a
    half-plane on the axis of the move, pushed back by the tolerance of
    30, and a band around the centre line of [from] on the other axis,
    half the extent of [from] plus 30 on each side. *)
Definition in_direction (d : Direction)
    (fx fy fw fh tx ty tw th : Q) : Prop :=
  match d with
  | left  => tx + tw < fx + 30
             /\ Qabs (ty + th / 2 - fy - fh / 2) < fh / 2 + 30
  | right => fx + fw - 30 < tx
             /\ Qabs (ty + th / 2 - fy - fh / 2) < fh / 2 + 30
  | up    => ty + th < fy + 30
             /\ Qabs (tx + tw / 2 - fx - fw / 2) < fw / 2 + 30
  | down  => fy + fh - 30 < ty
             /\ Qabs (tx + tw / 2 - fx - fw / 2) < fw / 2 + 30
  end.

(** The square of the Euclidean distance between the centres of two
    rectangles, and the distance itself, a real number. *)
Definition distance2 (fx fy fw fh tx ty tw th : Q) : Q :=
  ((tx + tw / 2) - (fx + fw / 2)) ^ 2 + ((ty + th / 2) - (fy + fh / 2)) ^ 2.

Definition euclid (fx fy fw fh tx ty tw th : Q) : R :=
  sqrt (Q2R (distance2 fx fy fw fh tx ty tw th)).

(** The rational coordinates of a finite element. *)
Definition coord (a : num) : Q := match a with Fin q => q | _ => 0 end.
Definition qx (e : DiagramElement) : Q := coord (el_x e).
Definition qy (e : DiagramElement) : Q := coord (el_y e).
Definition qw (e : DiagramElement) : Q := coord (el_width e).
Definition qh (e : DiagramElement) : Q := coord (el_height e).

Definition in_direction_of (d : Direction) (from to : DiagramElement) : Prop :=
  in_direction d (qx from) (qy from) (qw from) (qh from)
                 (qx to) (qy to) (qw to) (qh to).

Definition euclid_of (from to : DiagramElement) : R :=
  euclid (qx from) (qy from) (qw from) (qh from)
         (qx to) (qy to) (qw to) (qh to).

(** The invariant of the focus history. *)
Definition history_ok (s : NavigationState) : Prop :=
  NoDup (focusHistory s)
  /\ (List.length (focusHistory s) <= historyLimit)%nat
  /\ (forall id, selectedId s = Some id -> last_entry (focusHistory s) = Some id).

(** The history after [selectElement id]: the old one without [id], less
    its oldest entry when there are more than nine, then [id]. *)
Definition pushed (id : string) (h : list string) : list string :=
  let l := filter (fun i => negb (i =? id)) h in
  (if (historyLimit <=? List.length l)%nat then tl l else l) ++ [id].

(** Two entries with the same key, and with the same element unless the
    key is the selected one. *)
Definition same_but (sel : option string) (p p' : string * DiagramElement) : Prop :=
  fst p' = fst p /\ (Some (fst p) <> sel -> snd p' = snd p).

(** The store that [deleteSelected] leaves when [sel] is selected. *)
Definition remaining (sel : string) (els : ElementMap) : ElementMap :=
  map_delete sel
    (match map_get sel els with
     | Some element => disconnect sel (connections element) els
     | None => els
     end).

(** The candidates of a spatial move from [cur], selected under [sel]:
    the entries of the store under another key that lie in the
    direction. *)
Definition is_candidate (d : Direction) (sel : string) (cur : DiagramElement)
    (els : ElementMap) (id : string) (e : DiagramElement) : Prop :=
  In (id, e) els /\ id <> sel /\ in_direction_of d cur e.

(** The radicand of the distance of a candidate, and the candidates whose
    distance is the root of a non-negative rational. *)
Definition kq (c : Candidate) : Q := coord (radicand (c_distance c)).
Definition dist_ok (c : Candidate) : Prop :=
  c_distance c = Sqrt (Fin (kq c)) /\ 0 <= kq c.

End Props.

(* ================================================================== *)
(** ** Further predicates: states of the camera and of the store *)
(* ================================================================== *)

Module Invariants.

Import VM Nav Props.
Local Open Scope string_scope.
Local Open Scope list_scope.

(** A viewport, a point and a canvas with rational components. *)
Definition qviewport (x y z : Q) : Viewport := mkViewport (Fin x) (Fin y) (Fin z).
Definition qpoint (x y : Q) : Point := mkPoint (Fin x) (Fin y).
Definition qcanvas (w h : Q) : Canvas := mkCanvas (Fin w) (Fin h).
Definition qbounds (x y w h : Q) : Bounds :=
  mkBounds (Fin x) (Fin y) (Fin w) (Fin h).

(** Two viewports, two points denote the same values. *)
Definition vp_eqv (v w : Viewport) : Prop :=
  (vp_x v =~ vp_x w)%num /\ (vp_y v =~ vp_y w)%num
  /\ (vp_zoom v =~ vp_zoom w)%num.

Definition pt_eqv (p q : Point) : Prop :=
  (pt_x p =~ pt_x q)%num /\ (pt_y p =~ pt_y q)%num.

(** The viewport commands that write the state at once and schedule
    nothing. *)
Definition immediate (o : VM.op) : Prop :=
  match o with
  | Pan _ _ | ZoomAt _ _ | SetViewport _ => True
  | FocusOnBounds _ _ _ _ | Frame _ => False
  end.

(** The commands that act on the camera, and those that only move the
    selection. *)
Definition camera_command (cmd : Command) : Prop :=
  match cmd with
  | FocusOnSelected _ | GoHome | ZoomIn | ZoomOut | ZoomToFit _ | Tick _ => True
  | _ => False
  end.

Definition navigation_command (cmd : Command) : Prop :=
  match cmd with
  | NavigateNext | NavigatePrevious | NavigateSpatial _ => True
  | _ => False
  end.

(** Every element is stored under its own id. *)
Definition ids_match (els : ElementMap) : Prop :=
  forall k e, In (k, e) els -> el_id e = k.

(** The selected id, when there is one, is a key of the store. *)
Definition selection_live (m : Manager) : Prop :=
  forall id, selectedId (state m) = Some id -> In id (map_keys (elements m)).

(** The element with its position changed. *)
Definition moved (dx dy : Q) (e : DiagramElement) : DiagramElement :=
  mkElement (el_id e) (Fin (qx e + dx)) (Fin (qy e + dy))
            (el_width e) (el_height e) (el_type e) (connections e).

(** Two elements that differ at most in the representation of their
    coordinates. *)
Definition el_eqv (e e' : DiagramElement) : Prop :=
  el_id e = el_id e'
  /\ (el_x e =~ el_x e')%num /\ (el_y e =~ el_y e')%num
  /\ el_width e = el_width e' /\ el_height e = el_height e'
  /\ el_type e = el_type e' /\ connections e = connections e'.

(** A manager whose camera is at rest, with rational state. *)
Definition at_rest (m : Manager) (x y z w h : Q) : Prop :=
  VM.viewport (viewport m) = qviewport x y z
  /\ VM.canvas (viewport m) = qcanvas w h
  /\ VM.scheduled (viewport m) = [].

(** An animation of 400 ms from the initial state to a zoom of 3,
    scheduled at time 0, and a manager in the middle of it. *)
Definition sampleAnimation : Animation :=
  mkAnimation initialViewport (qviewport 100 50 3) (Fin 400) (Fin 0).

Definition animating : ViewportManager :=
  animateViewport (qviewport 100 50 3) (Fin 400) (Fin 0) (VM.new canvas800x600).

(** Three elements and no selection. *)
Definition unselected : Manager :=
  execs [AddElement (rect "a" 100 100 120 80 []);
         AddElement (rect "b" 300 100 120 80 []);
         AddElement (rect "c" 500 100 120 80 [])] fresh.

(** The pair A, B with a third element C that lists A without being
    listed by it. *)
Definition lopsided : Manager :=
  execs [AddElement (rect "A" 100 100 100 80 ["B"]);
         AddElement (rect "B" 300 100 100 80 ["A"]);
         AddElement (rect "C" 500 100 100 80 ["A"]);
         NavigateNext] fresh.

(** The half-plane that a direction implies, as the specification words
    it, with no tolerance: some part of [to] lies beyond the near edge of
    [from] on the side of the move.  This is the weakest reading; every
    other one (from the centre, from the far edge) implies it. *)
Definition half_plane (d : Direction)
    (fx fy fw fh tx ty tw th : Q) : Prop :=
  match d with
  | left  => tx < fx + fw
  | right => fx < tx + tw
  | up    => ty < fy + fh
  | down  => fy < ty + th
  end.

Definition half_plane_of (d : Direction) (from to : DiagramElement) : Prop :=
  half_plane d (qx from) (qy from) (qw from) (qh from)
               (qx to) (qy to) (qw to) (qh to).

(** The states that the manager builds by itself: every command but
    [addElement].  Each element of such a state was made by a creation
    command, with an array of connections of its own, so that no two
    elements share one. *)
Definition own_command (cmd : Command) : Prop :=
  match cmd with
  | AddElement _ => False
  | _ => True
  end.

Inductive built (c : VM.Canvas) : Manager -> Prop :=
| built_new : built c (Nav.new (VM.new c))
| built_exec : forall cmd m,
    built c m -> own_command cmd -> built c (exec cmd m).

(** A class element and a second one created connected to it; the second
    one is selected. *)
Definition chainAB : Manager :=
  execs [CreateClass "A"; CreateConnected "B"] fresh.

End Invariants.

(* ================================================================== *)
(** ** The keyboard: decoding of key events and the shortcut table *)
(* ================================================================== *)

Module Keys.

Import Nav.
Local Open Scope string_scope.
Local Open Scope list_scope.

(** The fields of a [KeyboardEvent] that the manager reads. *)
Record KeyboardEvent : Type := mkEvent
  { key : string; ctrlKey : bool; shiftKey : bool; altKey : bool }.

(** The handlers that [setupKeyboardShortcuts] registers. *)
Inductive Handler : Type :=
| HNavigateNext
| HNavigatePrevious
| HNavigateSpatial (d : Direction)
| HMoveSelected (deltaX deltaY : Z)
| HCreateClass
| HCreateMethod
| HCreateInterface
| HCreateConnected
| HStartConnection
| HCancelConnection
| HFocusOnSelected
| HGoToElement
| HDeleteSelected
| HGoHome
| HZoomIn
| HZoomOut
| HZoomToFit
| HSetMode (md : Mode).

(** The table [this.shortcuts], in the order of the calls to [set]. *)
Definition shortcuts : list (string * Handler) :=
  [ ("Tab", HNavigateNext);
    ("Shift+Tab", HNavigatePrevious);
    ("ArrowLeft", HNavigateSpatial left);
    ("ArrowRight", HNavigateSpatial right);
    ("ArrowUp", HNavigateSpatial up);
    ("ArrowDown", HNavigateSpatial down);
    ("h", HNavigateSpatial left);
    ("l", HNavigateSpatial right);
    ("k", HNavigateSpatial up);
    ("j", HNavigateSpatial down);
    ("Shift+ArrowLeft", HMoveSelected (-10) 0);
    ("Shift+ArrowRight", HMoveSelected 10 0);
    ("Shift+ArrowUp", HMoveSelected 0 (-10));
    ("Shift+ArrowDown", HMoveSelected 0 10);
    ("c", HCreateClass);
    ("m", HCreateMethod);
    ("i", HCreateInterface);
    ("Enter", HCreateConnected);
    ("Ctrl+Enter", HStartConnection);
    ("Escape", HCancelConnection);
    ("f", HFocusOnSelected);
    ("g", HGoToElement);
    ("Delete", HDeleteSelected);
    ("Backspace", HDeleteSelected);
    ("Home", HGoHome);
    ("Ctrl+=", HZoomIn);
    ("Ctrl+-", HZoomOut);
    ("Ctrl+0", HZoomToFit);
    ("s", HSetMode select);
    ("n", HSetMode create);
    ("r", HSetMode connect) ].

(** [this.shortcuts.get(shortcut)] *)
Fixpoint lookup (table : list (string * Handler)) (shortcut : string)
  : option Handler :=
  match table with
  | [] => None
  | (k, h) :: t => if k =? shortcut then Some h else lookup t shortcut
  end.

Section Decoding.

(** [String.prototype.toLowerCase], which depends on the Unicode tables,
    is left abstract. *)
Variable toLowerCase : string -> string.

Definition getShortcut (e : KeyboardEvent) : string :=
  let parts :=
    (if ctrlKey e then ["Ctrl"] else [])
    ++ (if shiftKey e then ["Shift"] else [])
    ++ (if altKey e then ["Alt"] else [])
    ++ [ if key e =? "Tab" then "Tab"
         else if String.prefix "Arrow" (key e) then key e
         else if existsb (String.eqb (key e))
                   ["Enter"; "Escape"; "Delete"; "Backspace"; "Home"]
              then key e
         else if (key e =? "+") || (key e =? "=") then "="
         else if key e =? "-" then "-"
         else if key e =? "0" then "0"
         else toLowerCase (key e) ] in
  String.concat "+" parts.

(** The call of a handler; [id] is what [generateId] would return and
    [now] what the clock would. *)
Definition handle (h : Handler) (id : string) (now : num) (m : Manager)
  : Manager :=
  match h with
  | HNavigateNext => navigateNext m
  | HNavigatePrevious => navigatePrevious m
  | HNavigateSpatial d => navigateSpatial d m
  | HMoveSelected dx dy => moveSelected (n dx) (n dy) m
  | HCreateClass => createClass id m
  | HCreateMethod => createMethod id m
  | HCreateInterface => createInterface id m
  | HCreateConnected => createConnected id m
  | HStartConnection => m
  | HCancelConnection => m
  | HFocusOnSelected => focusOnSelected now m
  | HGoToElement => m
  | HDeleteSelected => deleteSelected m
  | HGoHome => goHome m
  | HZoomIn => zoomIn m
  | HZoomOut => zoomOut m
  | HZoomToFit => zoomToFit now m
  | HSetMode md => setMode md m
  end.

(** The [keydown] listener of [bindEvents]; [inputActive] is the answer
    of [isInputActive], which looks at the focused element of the
    document. *)
Definition keydown (inputActive : bool) (e : KeyboardEvent)
    (id : string) (now : num) (m : Manager) : Manager :=
  if inputActive then m
  else match lookup shortcuts (getShortcut e) with
       | Some handler => handle handler id now m
       | None => m
       end.

End Decoding.

(** The command that a handler runs, when it runs one. *)
Definition command_of (h : Handler) (id : string) (now : num) : option Command :=
  match h with
  | HNavigateNext => Some NavigateNext
  | HNavigatePrevious => Some NavigatePrevious
  | HNavigateSpatial d => Some (NavigateSpatial d)
  | HMoveSelected dx dy => Some (MoveSelected (n dx) (n dy))
  | HCreateClass => Some (CreateClass id)
  | HCreateMethod => Some (CreateMethod id)
  | HCreateInterface => Some (CreateInterface id)
  | HCreateConnected => Some (CreateConnected id)
  | HStartConnection | HCancelConnection | HGoToElement => None
  | HFocusOnSelected => Some (FocusOnSelected now)
  | HDeleteSelected => Some DeleteSelected
  | HGoHome => Some GoHome
  | HZoomIn => Some ZoomIn
  | HZoomOut => Some ZoomOut
  | HZoomToFit => Some (ZoomToFit now)
  | HSetMode md => Some (SetMode md)
  end.

(** Upper case to lower case on the letters A to Z, for the examples. *)
Fixpoint asciiLower (s : string) : string :=
  match s with
  | EmptyString => EmptyString
  | String c t =>
      let k := Ascii.nat_of_ascii c in
      String (if ((65 <=? k) && (k <=? 90))%nat
              then Ascii.ascii_of_nat (k + 32) else c)
             (asciiLower t)
  end.

End Keys.

(* ================================================================== *)
(** ** Facts about numbers *)
(* ================================================================== *)

Module NumFacts.

Lemma Qltb_spec (a b : Q) : reflect (a < b) (Qltb a b).
Proof.
  unfold Qltb. destruct (a ?= b) eqn:E; constructor.
  - apply Qeq_alt in E. lra.
  - apply Qlt_alt in E. exact E.
  - apply Qgt_alt in E. lra.
Qed.

Lemma Qeq_bool_spec (a b : Q) : reflect (a == b) (Qeq_bool a b).
Proof.
  destruct (Qeq_bool a b) eqn:E; constructor.
  - now apply Qeq_bool_iff.
  - intro H. apply Qeq_bool_iff in H. congruence.
Qed.

(** Case analysis on every rational test in sight. *)
Ltac qcases :=
  repeat match goal with
  | |- context [Qltb ?a ?b] => destruct (Qltb_spec a b)
  | |- context [Qeq_bool ?a ?b] => destruct (Qeq_bool_spec a b)
  | H : context [Qltb ?a ?b] |- _ => destruct (Qltb_spec a b)
  | H : context [Qeq_bool ?a ?b] |- _ => destruct (Qeq_bool_spec a b)
  end.

Lemma eqv_refl (a : num) : (a =~ a)%num.
Proof. destruct a; simpl; auto. reflexivity. Qed.

Lemma eqv_sym (a b : num) : (a =~ b)%num -> (b =~ a)%num.
Proof. destruct a, b; simpl; auto. intro H; now symmetry. Qed.

Lemma eqv_trans (a b c : num) : (a =~ b)%num -> (b =~ c)%num -> (a =~ c)%num.
Proof.
  destruct a, b, c; simpl; auto; try contradiction.
  intros H1 H2. now rewrite H1.
Qed.

(** The operations on rationals. *)
Lemma add_fin (a b : Q) : (Fin a + Fin b)%num = Fin (a + b).
Proof. reflexivity. Qed.
Lemma sub_fin (a b : Q) : (Fin a - Fin b)%num = Fin (a - b).
Proof. reflexivity. Qed.
Lemma mul_fin (a b : Q) : (Fin a * Fin b)%num = Fin (a * b).
Proof. reflexivity. Qed.
Lemma half_fin (a : Q) : (Fin a / n 2)%num = Fin (a / 2).
Proof. reflexivity. Qed.
Lemma div_fin (a b : Q) : ~ b == 0 -> (Fin a / Fin b)%num = Fin (a / b).
Proof. intros H. cbn. destruct (Qeq_bool_spec b 0); [contradiction | reflexivity]. Qed.
Lemma abs_fin (a : Q) : Num.abs (Fin a) = Fin (Qabs a).
Proof. reflexivity. Qed.
Lemma ltb_fin (a b : Q) : (Fin a <? Fin b)%num = Qltb a b.
Proof. reflexivity. Qed.
Lemma gtb_fin (a b : Q) : (Fin a >? Fin b)%num = Qltb b a.
Proof. reflexivity. Qed.
Lemma n_fin (z : Z) : n z = Fin (inject_Z z).
Proof. reflexivity. Qed.
Lemma pow2_fin (a : Q) : Num.pow (Fin a) 2 = Fin (a * a).
Proof. reflexivity. Qed.

Create Rewrite HintDb num_fin.
#[export] Hint Rewrite half_fin add_fin sub_fin mul_fin abs_fin ltb_fin gtb_fin
  pow2_fin : num_fin.

(** The clamp of [zoomAt] sends every number to a rational of
    [[0.1, 5]]. *)
Lemma clamp_within (a : num) :
  a <> NaN ->
  within VM.zMin VM.zMax (Num.max (Fin VM.zMin) (Num.min (Fin VM.zMax) a)).
Proof.
  intros Ha. unfold VM.zMin, VM.zMax.
  destruct a as [q| | |]; try congruence; cbn.
  - qcases; cbn; qcases; cbn; lra.
  - lra.
  - lra.
Qed.

Lemma clamp_fin (q : Q) :
  exists z, Num.max (Fin VM.zMin) (Num.min (Fin VM.zMax) (Fin q)) = Fin z
            /\ VM.zMin <= z <= VM.zMax.
Proof.
  pose proof (clamp_within (Fin q)) as H.
  destruct (Num.max _ _) as [z| | |]; cbn in H;
    try (exfalso; apply H; discriminate).
  exists z. split; [reflexivity | apply H; discriminate].
Qed.

(** The comparator on surds agrees with the order of the real square
    roots that the surds stand for. *)
Section RealRoots.

Local Open Scope R_scope.

Lemma surd_cmp_real (p q : Q) :
  (0 <= p)%Q -> (0 <= q)%Q ->
  match surd_cmp (Sqrt (Fin p)) (Sqrt (Fin q)) with
  | Lt => sqrt (Q2R p) - sqrt (Q2R q) < 0
  | Eq => sqrt (Q2R p) - sqrt (Q2R q) = 0
  | Gt => sqrt (Q2R p) - sqrt (Q2R q) > 0
  end.
Proof.
  intros Hp Hq. unfold surd_cmp; cbn.
  destruct (Qltb_spec p 0); [lra|].
  destruct (Qltb_spec q 0); [lra|]. cbn.
  pose proof (Qle_Rle _ _ Hp) as Hp'. pose proof (Qle_Rle _ _ Hq) as Hq'.
  replace (Q2R 0) with 0 in Hp', Hq' by (unfold Q2R; simpl; lra).
  destruct (p ?= q)%Q eqn:E.
  - apply Qeq_alt in E. apply Qeq_eqR in E. rewrite E. lra.
  - apply Qlt_alt in E. apply Qlt_Rlt in E.
    pose proof (sqrt_lt_1_alt (Q2R p) (Q2R q)). lra.
  - apply Qgt_alt in E. apply Qlt_Rlt in E.
    pose proof (sqrt_lt_1_alt (Q2R q) (Q2R p)). lra.
Qed.

End RealRoots.

End NumFacts.

(* ================================================================== *)
(** ** The viewport *)
(* ================================================================== *)

Module ViewportSpec.

Import VM Props NumFacts.
Local Open Scope num_scope.

(** *** Basic equations *)

Lemma zoomAt_zoom (p : Point) (f : num) (m : ViewportManager) :
  vp_zoom (viewport (zoomAt p f m))
  = Num.max (Fin zMin) (Num.min (Fin zMax) (vp_zoom (viewport m) * f)).
Proof. reflexivity. Qed.

Lemma pan_zoom (dx dy : num) (m : ViewportManager) :
  vp_zoom (viewport (pan dx dy m)) = vp_zoom (viewport m).
Proof. reflexivity. Qed.

Lemma setViewport_get (v : Viewport) (m : ViewportManager) :
  getViewport (setViewport v m) = v.
Proof. reflexivity. Qed.

Lemma focusOnBounds_viewport (b : Bounds) (p d now : num) (m : ViewportManager) :
  viewport (focusOnBounds b p d now m) = viewport m.
Proof. reflexivity. Qed.

Lemma runs_app (os1 os2 : list op) (m : ViewportManager) :
  runs (os1 ++ os2) m = runs os2 (runs os1 m).
Proof. unfold runs. apply fold_left_app. Qed.

(** A product with a zoom of [[0.1, 5]] is [NaN] only if the factor is. *)
Lemma mul_within_not_NaN (z f : num) :
  within zMin zMax z -> f <> NaN -> z * f <> NaN.
Proof.
  unfold zMin, zMax.
  destruct z as [q| | |]; cbn; try tauto. intros [Hlo Hhi] Hf.
  destruct f as [r| | |]; cbn; try congruence; unfold signum.
  - destruct (q ?= 0)%Q eqn:E; cbn; try discriminate.
    apply Qeq_alt in E. lra.
  - destruct (q ?= 0)%Q eqn:E; cbn; try discriminate.
    apply Qeq_alt in E. lra.
Qed.

(** [zoomAt] establishes the bounds from every state, as soon as the
    product [zoom * factor] is a number. *)
Lemma zoomAt_within (p : Point) (f : num) (m : ViewportManager) :
  vp_zoom (viewport m) * f <> NaN ->
  within zMin zMax (vp_zoom (viewport (zoomAt p f m))).
Proof. intros H. rewrite zoomAt_zoom. now apply clamp_within. Qed.

Lemma run_clamping_within (o : op) (m : ViewportManager) :
  clamping o ->
  within zMin zMax (vp_zoom (viewport m)) ->
  within zMin zMax (vp_zoom (viewport (run o m))).
Proof.
  destruct o; cbn [clamping run]; intros Ho Hm; try contradiction.
  - exact Hm.
  - apply zoomAt_within. now apply mul_within_not_NaN.
Qed.

Lemma initial_within (c : Canvas) :
  within zMin zMax (vp_zoom (viewport (new c))).
Proof. cbn. unfold zMin, zMax, Qle; simpl; lia. Qed.

(** C1, as the code has it.  From the initial state [{x: 0, y: 0, zoom: 1}],
    after every sequence of [pan] and [zoomAt] calls whose zoom factors are
    numbers (not [NaN]), the zoom is a rational [z] with
    [0.1 <= z <= 5].  ([setViewport] stores the zoom it is given.) *)
Theorem zoom_within_bounds (c : Canvas) (os : list op) :
  Forall clamping os ->
  within zMin zMax (vp_zoom (viewport (runs os (new c)))).
Proof.
  intros Hos. unfold runs.
  generalize (initial_within c). generalize (new c) as m.
  induction Hos as [|o os Ho _ IH]; intros m Hm; cbn.
  - exact Hm.
  - apply IH. now apply run_clamping_within.
Qed.

(** An instance: a zoom at the centre, a pan, and two zooms past the
    upper bound, on the canvas of the tests. *)
Lemma zoom_within_bounds_witness :
  Forall clamping sampleOps
  /\ within zMin zMax (vp_zoom (viewport (runs sampleOps (new canvas800x600)))).
Proof.
  assert (H : Forall clamping sampleOps).
  { repeat constructor; simpl; discriminate. }
  split; [exact H | exact (zoom_within_bounds canvas800x600 sampleOps H)].
Defined.

(** C1, as stated, fails: [setViewport] is a mutating operation and it
    stores a zoom of [100] unchanged. *)
Lemma setViewport_escapes_zoom_bounds :
  ~ within zMin zMax
      (vp_zoom (viewport
         (runs [SetViewport (mkViewport (n 0) (n 0) (n 100))]
               (new canvas800x600)))).
Proof. cbn. unfold zMax. intros [_ H]. revert H. unfold Qle; simpl; lia. Qed.

(** The target zoom of [focusOnBounds] is not clamped either: fitting a
    single 120 by 80 element in the 800 by 600 canvas ends at a zoom of
    35/6. *)
Lemma focusOnBounds_escapes_zoom_bounds :
  vp_zoom (viewport
    (runs [FocusOnBounds (mkBounds (n 0) (n 0) (n 120) (n 80))
                         (n 50) (n 600) (n 0);
           Frame (n 600)] (new canvas800x600)))
  =~ Fin (35 # 6)
  /\ ~ within zMin zMax
        (vp_zoom (viewport
          (runs [FocusOnBounds (mkBounds (n 0) (n 0) (n 120) (n 80))
                               (n 50) (n 600) (n 0);
                 Frame (n 600)] (new canvas800x600)))).
Proof.
  cbn. split; [reflexivity|]. unfold zMax. intros [_ H]. revert H.
  unfold Qle; simpl; lia.
Qed.

(** A factor that is not a number defeats the clamp. *)
Lemma zoomAt_NaN_factor :
  vp_zoom (viewport (zoomAt (mkPoint (n 0) (n 0)) NaN (new canvas800x600))) = NaN.
Proof. reflexivity. Qed.

(** In exact arithmetic, for rational arguments whose width and height
    are both non-zero, the target that [focusOnBounds] animates to is
    finite: its zoom is the smaller of [(W - 2 padding) / width] and
    [(H - 2 padding) / height], and its translation centres the
    bounds. *)
Theorem focusTarget_finite (W H p bx by_ bw bh : Q) :
  ~ (bw == 0)%Q -> ~ (bh == 0)%Q ->
  exists tx ty tz,
    focusTarget (mkCanvas (Fin W) (Fin H))
                (mkBounds (Fin bx) (Fin by_) (Fin bw) (Fin bh)) (Fin p)
    = mkViewport (Fin tx) (Fin ty) (Fin tz)
    /\ (tz == Qmin ((W - p * 2) / bw) ((H - p * 2) / bh))%Q
    /\ (tx == W / 2 - (bx + bw / 2) * tz)%Q
    /\ (ty == H / 2 - (by_ + bh / 2) * tz)%Q.
Proof.
  intros Hw Hh. unfold focusTarget. cbn.
  destruct (Qeq_bool_spec bw 0); [contradiction|].
  destruct (Qeq_bool_spec bh 0); [contradiction|]. cbn.
  destruct (Qeq_bool_spec (inject_Z 2) 0) as [E|_]; [discriminate E|]. cbn.
  destruct (Qltb_spec ((H + - (p * inject_Z 2)) / bh)
                      ((W + - (p * inject_Z 2)) / bw)) as [L|L];
    do 3 eexists; (split; [reflexivity|]); repeat split;
    try (unfold Qminus; change (inject_Z 2) with 2%Q; reflexivity).
  - rewrite Q.min_r; [reflexivity|]. unfold Qminus.
    change (inject_Z 2) with 2%Q in L. lra.
  - rewrite Q.min_l; [reflexivity|]. unfold Qminus.
    change (inject_Z 2) with 2%Q in L. lra.
Qed.

(** An instance: a 120 by 80 rectangle in the canvas of the tests. *)
Lemma focusTarget_finite_witness :
  ~ (120 == 0)%Q /\ ~ (80 == 0)%Q
  /\ exists tx ty tz,
       focusTarget (mkCanvas (Fin 800) (Fin 600))
                   (mkBounds (Fin 0) (Fin 0) (Fin 120) (Fin 80)) (Fin 50)
       = mkViewport (Fin tx) (Fin ty) (Fin tz)
       /\ (tz == Qmin ((800 - 50 * 2) / 120) ((600 - 50 * 2) / 80))%Q
       /\ (tx == 800 / 2 - (0 + 120 / 2) * tz)%Q
       /\ (ty == 600 / 2 - (0 + 80 / 2) * tz)%Q.
Proof.
  assert (H1 : ~ (120 == 0)%Q) by discriminate.
  assert (H2 : ~ (80 == 0)%Q) by discriminate.
  split; [exact H1 | split; [exact H2 |]].
  exact (focusTarget_finite 800 600 50 0 0 120 80 H1 H2).
Defined.

(** C2, as stated, fails: bounds of zero width and zero height are not
    floored, the divisions are by zero, and the target is [Infinity] for
    the zoom and [NaN] for the translation; the last frame of the
    animation writes these values into the viewport. *)
Lemma focusOnBounds_degenerate_not_finite :
  finite (vp_zoom (focusTarget canvas800x600 degenerate (n 50))) = false
  /\ focusTarget canvas800x600 degenerate (n 50) = mkViewport NaN NaN PInf
  /\ viewport (runs [FocusOnBounds degenerate (n 50) (n 600) (n 0);
                     Frame (n 600)]
                    (new canvas800x600))
     = mkViewport NaN NaN PInf.
Proof. repeat split; reflexivity. Qed.

(** A frame of an animation between finite states, of a non-zero
    duration, writes a finite state. *)
Lemma animate_state_finite (sx sy sz tx ty tz d t0 now : Q) :
  ~ (d == 0)%Q ->
  exists x y z,
    animate_state
      (mkAnimation (mkViewport (Fin sx) (Fin sy) (Fin sz))
                   (mkViewport (Fin tx) (Fin ty) (Fin tz)) (Fin d) (Fin t0))
      (Fin now)
    = mkViewport (Fin x) (Fin y) (Fin z).
Proof.
  intros Hd. unfold animate_state, animate_progress.
  cbn [a_start a_target a_duration a_startTime vp_x vp_y vp_zoom].
  rewrite (sub_fin now t0), (div_fin _ _ Hd), n_fin. unfold Num.min.
  rewrite ltb_fin.
  destruct (Qltb _ _); cbn; do 3 eexists; reflexivity.
Qed.

(** With a zero width alone the other quotient wins the minimum and the
    target is finite. *)
Lemma focusTarget_zero_width :
  vp_zoom (focusTarget canvas800x600 (mkBounds (n 10) (n 0) (n 0) (n 80)) (n 50))
  =~ Fin (25 # 4).
Proof. reflexivity. Qed.

(** C3.  For every viewport state with a non-zero zoom, every screen
    point [p] and every zoom factor [f] (all rational), the world point
    under [p] is the same after [zoomAt p f] as before, whether or not the
    new zoom was clamped. *)
Theorem zoomAt_preserves_anchor (c : Canvas) (sched : list Animation)
    (x y z px py f : Q) :
  ~ (z == 0)%Q ->
  let m := mkVM (mkViewport (Fin x) (Fin y) (Fin z)) c sched in
  let p := mkPoint (Fin px) (Fin py) in
  pt_x (screenToWorld (zoomAt p (Fin f) m) p) =~ pt_x (screenToWorld m p)
  /\ pt_y (screenToWorld (zoomAt p (Fin f) m) p) =~ pt_y (screenToWorld m p).
Proof.
  intros Hz m p.
  unfold zoomAt, screenToWorld, worldToScreen, with_viewport.
  cbn -[Num.max Num.min].
  destruct (clamp_fin (z * f)) as [z2 [-> Hr]].
  unfold zMin, zMax in Hr.
  cbn. qcases; try contradiction; cbn; qcases; try lra.
  cbn. split; field; split; auto; lra.
Qed.

(** An instance: a zoom by 10 from the initial state, which is clamped
    at 5. *)
Lemma zoomAt_preserves_anchor_witness :
  ~ (1 == 0)%Q
  /\ pt_x (screenToWorld
             (zoomAt (mkPoint (Fin 200) (Fin 150)) (Fin 10)
                     (mkVM (mkViewport (Fin 0) (Fin 0) (Fin 1)) canvas800x600 []))
             (mkPoint (Fin 200) (Fin 150)))
     =~ pt_x (screenToWorld
                (mkVM (mkViewport (Fin 0) (Fin 0) (Fin 1)) canvas800x600 [])
                (mkPoint (Fin 200) (Fin 150))).
Proof.
  assert (H : ~ (1 == 0)%Q) by discriminate.
  split; [exact H |].
  exact (proj1 (zoomAt_preserves_anchor canvas800x600 [] 0 0 1 200 150 10 H)).
Defined.

(** The scenario of the tests: zooming by 2 at the centre of the canvas. *)
Example zoomAt_center_scenario :
  viewport (zoomAt (mkPoint (n 400) (n 300)) (n 2) (new canvas800x600))
  = mkViewport (Fin (-400)) (Fin (-300)) (Fin 2).
Proof. reflexivity. Qed.

(** [worldToScreen] undoes [screenToWorld] when the zoom is not zero. *)
Lemma screen_world_roundtrip (c : Canvas) (sched : list Animation)
    (x y z px py : Q) :
  ~ (z == 0)%Q ->
  let m := mkVM (mkViewport (Fin x) (Fin y) (Fin z)) c sched in
  let p := mkPoint (Fin px) (Fin py) in
  pt_x (worldToScreen m (screenToWorld m p)) =~ Fin px
  /\ pt_y (worldToScreen m (screenToWorld m p)) =~ Fin py.
Proof.
  intros Hz m p. unfold screenToWorld, worldToScreen. cbn.
  qcases; try contradiction. cbn. split; field; auto.
Qed.

End ViewportSpec.

(* ================================================================== *)
(** ** The element store *)
(* ================================================================== *)

Module MapFacts.

Import Nav Props.
Local Open Scope string_scope.
Local Open Scope list_scope.

Lemma get_In (k : string) (e : DiagramElement) (m : ElementMap) :
  map_get k m = Some e -> In (k, e) m.
Proof.
  induction m as [|[k' e'] t IH]; cbn; [discriminate|].
  destruct (String.eqb_spec k' k) as [->|_].
  - intros [= ->]. now left.
  - intros H. right. auto.
Qed.


Lemma get_None_keys (k : string) (m : ElementMap) :
  map_get k m = None <-> ~ In k (map_keys m).
Proof.
  induction m as [|[k' e'] t IH]; cbn; [tauto|].
  destruct (String.eqb_spec k' k) as [->|Hne].
  - split; [discriminate | intros H; exfalso; apply H; now left].
  - rewrite IH. split; [intros H [E|E]; tauto | tauto].
Qed.

Lemma get_mutate (k k' : string) (f : DiagramElement -> DiagramElement)
    (m : ElementMap) :
  map_get k' (map_mutate k f m)
  = if k' =? k then option_map f (map_get k m) else map_get k' m.
Proof.
  induction m as [|[k0 e0] t IH]; cbn.
  - now destruct (k' =? k).
  - destruct (String.eqb_spec k0 k) as [->|Hne]; cbn.
    + destruct (String.eqb_spec k k') as [->|Hne'].
      * now rewrite String.eqb_refl.
      * destruct (String.eqb_spec k' k) as [->|_]; [congruence | reflexivity].
    + rewrite IH. destruct (String.eqb_spec k0 k') as [->|Hne'].
      * destruct (String.eqb_spec k' k) as [->|_]; [congruence | reflexivity].
      * reflexivity.
Qed.

Lemma keys_mutate (k : string) (f : DiagramElement -> DiagramElement)
    (m : ElementMap) :
  map_keys (map_mutate k f m) = map_keys m.
Proof.
  unfold map_keys. induction m as [|[k0 e0] t IH]; cbn; [reflexivity|].
  destruct (k0 =? k); cbn; congruence.
Qed.

Lemma get_delete (k k' : string) (m : ElementMap) :
  map_get k' (map_delete k m) = if k' =? k then None else map_get k' m.
Proof.
  unfold map_delete. induction m as [|[k0 e0] t IH]; cbn.
  - now destruct (k' =? k).
  - destruct (String.eqb_spec k0 k) as [->|Hne]; cbn.
    + rewrite IH. destruct (String.eqb_spec k' k) as [->|Hne'];
        [reflexivity|].
      destruct (String.eqb_spec k k'); [congruence | reflexivity].
    + destruct (String.eqb_spec k0 k') as [->|Hne'].
      * destruct (String.eqb_spec k' k); [congruence | reflexivity].
      * exact IH.
Qed.

Lemma keys_delete (k : string) (m : ElementMap) :
  map_keys (map_delete k m) = filter (fun k' => negb (k' =? k)) (map_keys m).
Proof.
  unfold map_keys, map_delete.
  induction m as [|[k0 e0] t IH]; cbn; [reflexivity|].
  destruct (k0 =? k); cbn; congruence.
Qed.

Lemma delete_not_In (k : string) (m : ElementMap) :
  ~ In k (map_keys (map_delete k m)).
Proof.
  rewrite keys_delete, filter_In. intros [_ H].
  now rewrite String.eqb_refl in H.
Qed.

Lemma keys_set (k : string) (e : DiagramElement) (m : ElementMap) :
  map_keys (map_set k e m)
  = if map_has k m then map_keys m else map_keys m ++ [k].
Proof.
  unfold map_set. destruct (map_has k m).
  - apply keys_mutate.
  - unfold map_keys. now rewrite map_app.
Qed.

Lemma get_set (k k' : string) (e : DiagramElement) (m : ElementMap) :
  map_get k' (map_set k e m) = if k' =? k then Some e else map_get k' m.
Proof.
  unfold map_set, map_has. destruct (map_get k m) as [e0|] eqn:E.
  - rewrite get_mutate, E. reflexivity.
  - destruct (String.eqb_spec k' k) as [->|Hne].
    + induction m as [|[k0 e0] t IH]; cbn in *.
      * now rewrite String.eqb_refl.
      * destruct (k0 =? k); [discriminate | auto].
    + clear E. induction m as [|[k0 e0] t IH]; cbn.
      * destruct (String.eqb_spec k k'); [congruence | reflexivity].
      * destruct (k0 =? k'); [reflexivity | exact IH].
Qed.

(** The operations keep the keys distinct. *)
Lemma distinct_mutate (k : string) (f : DiagramElement -> DiagramElement)
    (m : ElementMap) :
  distinct_keys m -> distinct_keys (map_mutate k f m).
Proof. unfold distinct_keys. now rewrite keys_mutate. Qed.

Lemma distinct_delete (k : string) (m : ElementMap) :
  distinct_keys m -> distinct_keys (map_delete k m).
Proof. unfold distinct_keys. rewrite keys_delete. apply NoDup_filter. Qed.

Lemma distinct_set (k : string) (e : DiagramElement) (m : ElementMap) :
  distinct_keys m -> distinct_keys (map_set k e m).
Proof.
  unfold distinct_keys. rewrite keys_set. unfold map_has.
  destruct (map_get k m) eqn:E; [auto|]. intros H.
  apply get_None_keys in E.
  apply NoDup_app; [exact H | repeat constructor; intros [] |].
  intros a Ha [<-|[]]. contradiction.
Qed.

(** [indexOf] *)
Lemma indexOf_range (arr : list string) (s : string) :
  (-1 <= indexOf arr s < Z.of_nat (List.length arr))%Z.
Proof.
  induction arr as [|k t IH]; cbn [indexOf List.length]; [lia|].
  destruct (k =? s); [lia|].
  destruct (Z.ltb_spec (indexOf t s) 0); lia.
Qed.

Lemma indexOf_absent (arr : list string) (s : string) :
  ~ In s arr -> indexOf arr s = (-1)%Z.
Proof.
  induction arr as [|k t IH]; cbn; [reflexivity|]. intros H.
  destruct (String.eqb_spec k s) as [->|_]; [tauto|].
  rewrite IH by tauto. reflexivity.
Qed.

Lemma at_index_in_range (arr : list string) (i : Z) :
  (0 <= i < Z.of_nat (List.length arr))%Z ->
  exists k, at_index arr i = Some k /\ In k arr.
Proof.
  intros H. unfold at_index.
  destruct (Z.ltb_spec i 0); [lia|].
  destruct (nth_error arr (Z.to_nat i)) as [k|] eqn:E.
  - exists k. split; [reflexivity | eapply nth_error_In; eauto].
  - apply nth_error_None in E. lia.
Qed.

(** The index that [navigateNext] computes is within the array. *)
Lemma navigateNext_index_ok (arr : list string) (s : string) :
  arr <> [] ->
  let len := Z.of_nat (List.length arr) in
  (0 <= Z.rem (indexOf arr s + 1) len < len)%Z.
Proof.
  intros Hne len. pose proof (indexOf_range arr s) as Hr.
  assert (0 < len)%Z by (subst len; destruct arr; cbn in *; [congruence | lia]).
  apply Z.rem_bound_pos; lia.
Qed.

(** So is the one that [navigatePrevious] computes. *)
Lemma navigatePrevious_index_ok (arr : list string) (s : string) :
  arr <> [] ->
  let len := Z.of_nat (List.length arr) in
  (0 <= Z.rem (indexOf arr s - 1 + len) len < len)%Z.
Proof.
  intros Hne len. pose proof (indexOf_range arr s) as Hr.
  assert (0 < len)%Z by (subst len; destruct arr; cbn in *; [congruence | lia]).
  fold len in Hr.
  destruct (Z.eq_dec (indexOf arr s - 1 + len) (-1)) as [E|E].
  - rewrite E. assert (len = 1)%Z by lia. subst len. rewrite H0. cbn. lia.
  - apply Z.rem_bound_pos; lia.
Qed.

End MapFacts.

(* ================================================================== *)
(** ** Selection, history, movement *)
(* ================================================================== *)

Module SelectionSpec.

Import Nav Props MapFacts.
Local Open Scope string_scope.
Local Open Scope list_scope.

(** *** What the commands leave alone *)

Lemma selectElement_elements (id : string) (m : Manager) :
  elements (selectElement id m) = elements m.
Proof. reflexivity. Qed.

Lemma selectElement_selectedId (id : string) (m : Manager) :
  selectedId (state (selectElement id m)) = Some id.
Proof. reflexivity. Qed.

Lemma selectAt_elements (arr : list string) (i : Z) (m : Manager) :
  elements (selectAt arr i m) = elements m.
Proof. unfold selectAt. now destruct (at_index arr i). Qed.

Lemma navigateNext_elements (m : Manager) :
  elements (navigateNext m) = elements m.
Proof.
  unfold navigateNext. destruct (_ =? _)%nat; [reflexivity|].
  destruct (selected m); apply selectAt_elements.
Qed.

(** *** The focus history *)

Lemma last_entry_app (l : list string) (id : string) :
  last_entry (l ++ [id]) = Some id.
Proof. unfold last_entry. now rewrite rev_app_distr. Qed.

Lemma selectElement_history (id : string) (m : Manager) :
  focusHistory (state (selectElement id m)) = pushed id (focusHistory (state m)).
Proof.
  unfold selectElement, pushed, historyLimit.
  cbn [state with_state focusHistory].
  set (l := filter _ _). rewrite length_app. cbn [List.length].
  destruct (Nat.ltb_spec 10 (List.length l + 1));
    destruct (Nat.leb_spec 10 (List.length l)); try lia; [|reflexivity].
  destruct l; cbn in *; [lia | reflexivity].
Qed.

Lemma filter_absent (id : string) (t : list string) :
  ~ In id t -> filter (fun i => negb (i =? id)) t = t.
Proof.
  induction t as [|b t IH]; cbn; [reflexivity|]. intros H.
  destruct (String.eqb_spec b id) as [->|_]; cbn; [tauto|].
  f_equal. apply IH. tauto.
Qed.

Lemma filter_out_length (id : string) (h : list string) :
  NoDup h -> In id h ->
  S (List.length (filter (fun i => negb (i =? id)) h)) = List.length h.
Proof.
  induction h as [|a t IH]; cbn; [tauto|]. intros Hnd Hin.
  inversion Hnd as [|? ? Ha Ht]; subst.
  destruct (String.eqb_spec a id) as [->|Hne]; cbn.
  - now rewrite filter_absent.
  - f_equal. apply IH; [exact Ht|]. destruct Hin; [congruence | assumption].
Qed.

Lemma NoDup_tl (l : list string) : NoDup l -> NoDup (tl l).
Proof. destruct l; cbn; [auto | now inversion 1]. Qed.

Lemma In_tl (a : string) (l : list string) : In a (tl l) -> In a l.
Proof. destruct l; cbn; auto. Qed.

Lemma pushed_ok (id : string) (h : list string) :
  NoDup h -> (List.length h <= historyLimit)%nat ->
  NoDup (pushed id h)
  /\ (List.length (pushed id h) <= historyLimit)%nat
  /\ last_entry (pushed id h) = Some id.
Proof.
  unfold pushed, historyLimit. intros Hnd Hlen.
  set (l := filter _ h).
  assert (Hl : NoDup l) by (apply NoDup_filter; exact Hnd).
  assert (Hid : ~ In id l).
  { unfold l. rewrite filter_In. intros [_ H].
    now rewrite String.eqb_refl in H. }
  assert (Hll : (List.length l <= List.length h)%nat) by apply filter_length_le.
  split; [|split].
  - apply NoDup_app.
    + destruct (_ <=? _)%nat; [now apply NoDup_tl | exact Hl].
    + repeat constructor. intros [].
    + intros a Ha [<-|[]]. apply Hid.
      destruct (_ <=? _)%nat; [now apply In_tl | exact Ha].
  - rewrite length_app. cbn [List.length].
    destruct (Nat.leb_spec 10 (List.length l)); [|lia].
    destruct l; cbn in *; lia.
  - apply last_entry_app.
Qed.

Lemma selectElement_ok (id : string) (m : Manager) :
  history_ok (state m) -> history_ok (state (selectElement id m)).
Proof.
  intros (Hnd & Hlen & _). unfold history_ok.
  rewrite selectElement_history, selectElement_selectedId.
  destruct (pushed_ok id _ Hnd Hlen) as (H1 & H2 & H3).
  repeat split; auto. now intros ? [= <-].
Qed.

Lemma deselect_ok (s : NavigationState) :
  history_ok s -> history_ok (mkState None (mode s) (focusHistory s)).
Proof.
  intros (Hnd & Hlen & _). repeat split; auto. discriminate.
Qed.

Lemma selectAt_ok (arr : list string) (i : Z) (m : Manager) :
  history_ok (state m) -> history_ok (state (selectAt arr i m)).
Proof.
  unfold selectAt. destruct (at_index arr i); auto using selectElement_ok.
Qed.

Create HintDb history.
#[local] Hint Resolve selectElement_ok selectAt_ok deselect_ok : history.

Ltac branches :=
  repeat match goal with
         | |- context [match ?x with _ => _ end] => destruct x
         end.

Lemma navigateNext_ok (m : Manager) :
  history_ok (state m) -> history_ok (state (navigateNext m)).
Proof. unfold navigateNext. intros. branches; auto with history. Qed.

Lemma deleteSelected_ok (m : Manager) :
  history_ok (state m) -> history_ok (state (deleteSelected m)).
Proof.
  unfold deleteSelected. intros H.
  destruct (selected m) as [sel|]; [|exact H].
  set (m1 := with_elements _ m).
  assert (H2 : history_ok (state (navigateNext m1))) by now apply navigateNext_ok.
  destruct (selectedId (state (navigateNext m1))); [|exact H2].
  destruct (_ =? _); [|exact H2]. now apply deselect_ok.
Qed.

Lemma exec_ok (cmd : Command) (m : Manager) :
  history_ok (state m) -> history_ok (state (exec cmd m)).
Proof.
  intros H. destruct cmd; cbn [exec];
    try exact H;
    try (now apply navigateNext_ok);
    try (now apply deleteSelected_ok);
    try (now apply selectElement_ok).
  - unfold navigatePrevious. branches; auto with history.
  - unfold navigateSpatial, selectFirst. branches; auto with history.
  - unfold moveSelected. branches; exact H.
  - unfold createConnected. branches; try exact H; now apply selectElement_ok.
  - unfold focusOnSelected. branches; exact H.
  - unfold zoomToFit. branches; exact H.
  - unfold removeElement. branches; try exact H. now apply deselect_ok.
Qed.

(** The invariant holds in every state that the manager can reach. *)
Lemma reachable_history_ok (c : VM.Canvas) (m : Manager) :
  reachable c m -> history_ok (state m).
Proof.
  induction 1 as [|cmd m _ IH].
  - repeat split; cbn; [constructor | lia | discriminate].
  - now apply exec_ok.
Qed.

(** C9.  In every state that the manager can reach, and so after every
    command that changes the selection, the focus history has no
    duplicate, has at most 10 entries, and ends with the selected id
    when there is one; and selecting an id that the history already
    holds moves it to the end: the new history is the old one without
    the id, followed by the id, and is no longer than the old one. *)
Theorem focusHistory_invariant (c : VM.Canvas) (m : Manager) (cmd : Command) :
  reachable c m ->
  let h' := focusHistory (state (exec cmd m)) in
  NoDup h'
  /\ (List.length h' <= 10)%nat
  /\ (forall id, selectedId (state (exec cmd m)) = Some id ->
                 last_entry h' = Some id)
  /\ (forall id,
        let h := focusHistory (state m) in
        let h1 := focusHistory (state (selectElement id m)) in
        NoDup h1 /\ (List.length h1 <= 10)%nat /\ last_entry h1 = Some id
        /\ (In id h ->
            h1 = filter (fun i => negb (i =? id)) h ++ [id]
            /\ List.length h1 = List.length h)).
Proof.
  intros Hr. pose proof (reachable_history_ok c m Hr) as Hm.
  pose proof (exec_ok cmd m Hm) as (H1 & H2 & H3).
  repeat split; auto.
  - now apply (selectElement_ok id m Hm).
  - now apply (selectElement_ok id m Hm).
  - now apply (selectElement_ok id m Hm).
  - destruct Hm as (Hnd & Hlen & _).
    pose proof (filter_out_length id _ Hnd H) as Hl.
    rewrite selectElement_history. unfold pushed, historyLimit in *.
    destruct (Nat.leb_spec 10 (List.length
               (filter (fun i => negb (i =? id)) (focusHistory (state m)))));
      [lia | reflexivity].
  - destruct Hm as (Hnd & Hlen & _).
    pose proof (filter_out_length id _ Hnd H) as Hl.
    rewrite selectElement_history. unfold pushed, historyLimit in *.
    destruct (Nat.leb_spec 10 (List.length
               (filter (fun i => negb (i =? id)) (focusHistory (state m)))));
      [lia|].
    rewrite length_app. cbn [List.length]. lia.
Qed.

(** An instance: a second creation after a first one. *)
Lemma focusHistory_invariant_witness :
  reachable canvas800x600 oneClass
  /\ NoDup (focusHistory (state (exec (CreateClass "b") oneClass)))
  /\ (List.length (focusHistory (state (exec (CreateClass "b") oneClass))) <= 10)%nat
  /\ last_entry (focusHistory (state (exec (CreateClass "b") oneClass))) = Some "b".
Proof.
  assert (H : reachable canvas800x600 oneClass)
    by (apply (reach_exec _ (CreateClass "a")); apply reach_new).
  split; [exact H|].
  destruct (focusHistory_invariant canvas800x600 oneClass (CreateClass "b") H)
    as (G1 & G2 & G3 & _).
  split; [exact G1 | split; [exact G2 | apply G3; reflexivity]].
Defined.

(** The history keeps the ten most recent ids: an eleventh selection
    drops the oldest one. *)
Example history_is_bounded :
  focusHistory (state (execs
    [CreateClass "1"; CreateClass "2"; CreateClass "3"; CreateClass "4";
     CreateClass "5"; CreateClass "6"; CreateClass "7"; CreateClass "8";
     CreateClass "9"; CreateClass "10"; CreateClass "11"; NavigateNext] fresh))
  = ["3"; "4"; "5"; "6"; "7"; "8"; "9"; "10"; "11"; "1"].
Proof. reflexivity. Qed.

End SelectionSpec.

(* ================================================================== *)
(** ** Moving and deleting the selected element *)
(* ================================================================== *)

Module StoreSpec.

Import Nav Props MapFacts SelectionSpec.
Local Open Scope string_scope.
Local Open Scope list_scope.

Lemma same_but_refl (sel : option string) (els : ElementMap) :
  Forall2 (same_but sel) els els.
Proof. induction els; constructor; auto. split; auto. Qed.

Lemma mutate_same_but (sel : string) (f : DiagramElement -> DiagramElement)
    (els : ElementMap) :
  Forall2 (same_but (Some sel)) els (map_mutate sel f els).
Proof.
  induction els as [|[k e] t IH]; cbn; [constructor|].
  destruct (String.eqb_spec k sel) as [->|Hne].
  - constructor; [|apply same_but_refl].
    split; cbn; [reflexivity | congruence].
  - constructor; [split; cbn; auto | exact IH].
Qed.

(** C10.  [moveSelected dx dy] leaves the manager as it is when there is
    no selection or when the selected id is not a key of the store.
    Otherwise the entries of the store keep their keys and their order,
    the entries of the other keys keep their elements, and the selected
    element has [dx] added to [x] and [dy] added to [y] with its id,
    width, height, type and connections unchanged; the navigation state
    (selected id, mode, history) and the viewport are unchanged. *)
Theorem moveSelected_frame (dx dy : num) (m : Manager) :
  let m' := moveSelected dx dy m in
  state m' = state m
  /\ viewport m' = viewport m
  /\ map_keys (elements m') = map_keys (elements m)
  /\ Forall2 (same_but (selected m)) (elements m) (elements m')
  /\ match selected m with
     | None => m' = m
     | Some sel =>
         match map_get sel (elements m) with
         | None => m' = m
         | Some e =>
             map_get sel (elements m')
             = Some (mkElement (el_id e) (el_x e + dx)%num (el_y e + dy)%num
                               (el_width e) (el_height e) (el_type e)
                               (connections e))
             /\ forall k, k <> sel ->
                          map_get k (elements m') = map_get k (elements m)
         end
     end.
Proof.
  unfold moveSelected.
  destruct (selected m) as [sel|];
    [|repeat split; auto using same_but_refl].
  destruct (map_get sel (elements m)) as [e|] eqn:E;
    [|repeat split; auto using same_but_refl].
  cbn. repeat split.
  - apply keys_mutate.
  - apply mutate_same_but.
  - rewrite get_mutate, String.eqb_refl, E. reflexivity.
  - intros k Hk. rewrite get_mutate.
    destruct (String.eqb_spec k sel); [contradiction | reflexivity].
Qed.

(** *** Deletion *)

Lemma drop_connection_not_In (sel : string) (e : DiagramElement) :
  ~ In sel (connections (drop_connection sel e)).
Proof.
  cbn. rewrite filter_In. intros [_ H]. now rewrite String.eqb_refl in H.
Qed.

Lemma drop_connection_In (sel a : string) (e : DiagramElement) :
  In a (connections (drop_connection sel e))
  <-> In a (connections e) /\ a <> sel.
Proof.
  cbn. rewrite filter_In.
  destruct (String.eqb_spec a sel); cbn; intuition congruence.
Qed.

Lemma drop_connection_idem (sel : string) (e : DiagramElement) :
  drop_connection sel (drop_connection sel e) = drop_connection sel e.
Proof.
  unfold drop_connection; cbn. f_equal.
  induction (connections e) as [|a t IH]; cbn; [reflexivity|].
  destruct (String.eqb_spec a sel); cbn; [exact IH|].
  destruct (String.eqb_spec a sel); cbn; [contradiction | now f_equal].
Qed.

(** The store after the [forEach] of [deleteSelected]: the elements whose
    key is in [ids] have lost [sel] from their connections. *)
Lemma get_disconnect (sel : string) (ids : list string) (els : ElementMap)
    (k : string) :
  map_get k (disconnect sel ids els)
  = option_map (fun e => if existsb (String.eqb k) ids
                         then drop_connection sel e else e)
               (map_get k els).
Proof.
  unfold disconnect. revert els.
  induction ids as [|id ids IH]; intros els; cbn [fold_left existsb].
  - now destruct (map_get k els).
  - rewrite IH. destruct (map_get id els) as [eid|] eqn:E.
    + rewrite get_mutate.
      destruct (String.eqb_spec k id) as [->|Hne]; cbn [orb].
      * rewrite E. cbn. destruct (existsb _ ids);
          [now rewrite drop_connection_idem | reflexivity].
      * reflexivity.
    + destruct (String.eqb_spec k id) as [->|Hne]; cbn [orb].
      * now rewrite E.
      * reflexivity.
Qed.

Lemma keys_disconnect (sel : string) (ids : list string) (els : ElementMap) :
  map_keys (disconnect sel ids els) = map_keys els.
Proof.
  unfold disconnect. revert els.
  induction ids as [|id ids IH]; intros els; cbn; [reflexivity|].
  rewrite IH. destruct (map_get id els); [apply keys_mutate | reflexivity].
Qed.

Lemma keys_remaining (sel : string) (els : ElementMap) :
  map_keys (remaining sel els)
  = filter (fun k => negb (k =? sel)) (map_keys els).
Proof.
  unfold remaining. rewrite keys_delete.
  destruct (map_get sel els); [now rewrite keys_disconnect | reflexivity].
Qed.

(** What [deleteSelected] does: the store is [remaining], and the
    selection is the first key of it, or [null] when it is empty. *)
Lemma deleteSelected_spec (m : Manager) (sel : string) :
  selected m = Some sel ->
  elements (deleteSelected m) = remaining sel (elements m)
  /\ selectedId (state (deleteSelected m))
     = hd_error (map_keys (remaining sel (elements m))).
Proof.
  intros Hsel. unfold deleteSelected. rewrite Hsel.
  fold (remaining sel (elements m)).
  set (m1 := with_elements (remaining sel (elements m)) m).
  assert (Hs1 : selected m1 = Some sel) by exact Hsel.
  assert (Hsid : selectedId (state m1) = Some sel).
  { unfold selected in Hsel. cbn.
    destruct (selectedId (state m)) as [s|]; [|discriminate].
    destruct (s =? EmptyString); congruence. }
  assert (Habs : ~ In sel (map_keys (remaining sel (elements m)))).
  { unfold remaining. apply delete_not_In. }
  unfold navigateNext. rewrite Hs1.
  change (elements m1) with (remaining sel (elements m)).
  destruct (map_keys (remaining sel (elements m))) as [|k0 ks] eqn:Ek.
  - cbn [List.length Nat.eqb]. rewrite Hsid, String.eqb_refl. cbn.
    split; reflexivity.
  - cbn [List.length Nat.eqb]. rewrite (indexOf_absent _ _ Habs).
    change (-1 + 1)%Z with 0%Z. rewrite Z.rem_0_l by lia.
    unfold selectAt, at_index. cbn.
    destruct (String.eqb_spec k0 sel) as [->|_].
    + exfalso. apply Habs. now left.
    + split; reflexivity.
Qed.

Lemma existsb_eqb_In (k : string) (l : list string) :
  existsb (String.eqb k) l = true <-> In k l.
Proof.
  rewrite existsb_exists. split.
  - intros [x [Hin Hx]]. apply String.eqb_eq in Hx. now subst.
  - intros Hin. exists k. split; [exact Hin | apply String.eqb_refl].
Qed.

Lemma drop_connection_absent (sel : string) (e : DiagramElement) :
  ~ In sel (connections e) -> drop_connection sel e = e.
Proof.
  intros H. unfold drop_connection. rewrite filter_absent by exact H.
  now destruct e.
Qed.

Lemma symmetricb_sound (els : ElementMap) :
  symmetricb els = true -> symmetric els.
Proof.
  unfold symmetricb, symmetric. rewrite forallb_forall. intros H a ea Ha b Hb.
  specialize (H (a, ea) (get_In _ _ _ Ha)). cbn in H.
  rewrite forallb_forall in H. specialize (H b Hb).
  destruct (map_get b els) as [eb|]; [|discriminate].
  exists eb. split; [reflexivity|]. now apply existsb_eqb_In.
Qed.

(** In a symmetric store every element that remains has lost [sel] from
    its connections, and nothing else. *)
Lemma get_remaining (sel k : string) (els : ElementMap) :
  symmetric els -> k <> sel ->
  map_get k (remaining sel els)
  = option_map (drop_connection sel) (map_get k els).
Proof.
  intros Hsym Hk. unfold remaining. rewrite get_delete.
  destruct (String.eqb_spec k sel); [contradiction|].
  destruct (map_get sel els) as [element|] eqn:Es.
  - rewrite get_disconnect.
    destruct (map_get k els) as [e|] eqn:Ek; cbn; [|reflexivity].
    destruct (existsb (String.eqb k) (connections element)) eqn:Ex;
      [reflexivity|].
    f_equal. symmetry. apply drop_connection_absent. intros Hin.
    destruct (Hsym k e Ek sel Hin) as (eb & Hb & Hkb).
    rewrite Es in Hb. injection Hb as <-.
    apply existsb_eqb_In in Hkb. congruence.
  - destruct (map_get k els) as [e|] eqn:Ek; cbn; [|reflexivity].
    f_equal. symmetry. apply drop_connection_absent. intros Hin.
    destruct (Hsym k e Ek sel Hin) as (eb & Hb & _). congruence.
Qed.

(** C5.  In a store whose connections are symmetric, deleting the
    selected element [sel] removes its entry; every other element stays
    under its key with [sel] filtered out of its connections and nothing
    else changed; so no remaining element lists [sel], and the
    connections of the remaining store are symmetric. *)
Theorem deleteSelected_connections (m : Manager) (sel : string) :
  selected m = Some sel ->
  symmetric (elements m) ->
  let els' := elements (deleteSelected m) in
  map_get sel els' = None
  /\ (forall k e, k <> sel -> map_get k (elements m) = Some e ->
        map_get k els' = Some (drop_connection sel e))
  /\ (forall k e', map_get k els' = Some e' -> ~ In sel (connections e'))
  /\ symmetric els'.
Proof.
  intros Hsel Hsym els'. subst els'.
  destruct (deleteSelected_spec m sel Hsel) as [-> _].
  assert (Hgone : map_get sel (remaining sel (elements m)) = None).
  { unfold remaining. rewrite get_delete. now rewrite String.eqb_refl. }
  assert (Hrem : forall k e',
            map_get k (remaining sel (elements m)) = Some e' ->
            k <> sel /\ exists e, map_get k (elements m) = Some e
                                  /\ e' = drop_connection sel e).
  { intros k e' Hk. assert (Hne : k <> sel) by congruence.
    split; [exact Hne|]. rewrite get_remaining in Hk by assumption.
    destruct (map_get k (elements m)) as [e|]; [|discriminate].
    exists e. split; [reflexivity|]. cbn in Hk. congruence. }
  split; [exact Hgone|]. split; [|split].
  - intros k e Hk He. rewrite get_remaining, He by assumption. reflexivity.
  - intros k e' Hk. destruct (Hrem k e' Hk) as (_ & e & _ & ->).
    apply drop_connection_not_In.
  - intros a ea' Ha b Hb.
    destruct (Hrem a ea' Ha) as (Hane & ea & Hea & ->).
    apply drop_connection_In in Hb. destruct Hb as [Hb Hbne].
    destruct (Hsym a ea Hea b Hb) as (eb & Heb & Hab).
    exists (drop_connection sel eb). split.
    + rewrite get_remaining, Heb by assumption. reflexivity.
    + apply drop_connection_In. auto.
Qed.

(** An instance: the pair A, B with A selected. *)
Lemma deleteSelected_connections_witness :
  selected pairAB = Some "A"
  /\ symmetric (elements pairAB)
  /\ map_get "A" (elements (deleteSelected pairAB)) = None
  /\ (forall k e', map_get k (elements (deleteSelected pairAB)) = Some e' ->
                   ~ In "A" (connections e'))
  /\ symmetric (elements (deleteSelected pairAB)).
Proof.
  assert (H1 : selected pairAB = Some "A") by reflexivity.
  assert (H2 : symmetric (elements pairAB))
    by (apply symmetricb_sound; reflexivity).
  destruct (deleteSelected_connections pairAB "A" H1 H2) as (G1 & _ & G3 & G4).
  repeat split; assumption.
Defined.

(** The scenario of the specification: after deleting A, B is left with
    no connection and is selected. *)
Example delete_A_of_pair :
  elements (deleteSelected pairAB) = [("B", rect "B" 300 100 100 80 [])]
  /\ selectedId (state (deleteSelected pairAB)) = Some "B".
Proof. split; reflexivity. Qed.

(** After a deletion the selection is the first key of the store, and
    [null] exactly when the store is empty. *)
Lemma deleteSelected_selects_first (m : Manager) (sel : string) :
  selected m = Some sel ->
  selectedId (state (deleteSelected m))
  = hd_error (map_keys (elements (deleteSelected m)))
  /\ (selectedId (state (deleteSelected m)) = None
      <-> elements (deleteSelected m) = []).
Proof.
  intros Hsel. destruct (deleteSelected_spec m sel Hsel) as [-> ->].
  split; [reflexivity|].
  destruct (remaining sel (elements m)) as [|[k e] t]; cbn;
    split; (reflexivity || discriminate).
Qed.

(** When the deleted element is the first of the store, the first key of
    what remains is its follower. *)
Lemma deleteSelected_first (m : Manager) (sel : string) (e : DiagramElement)
    (t : ElementMap) :
  selected m = Some sel ->
  distinct_keys (elements m) ->
  elements m = (sel, e) :: t ->
  selectedId (state (deleteSelected m)) = follower (map_keys (elements m)) sel.
Proof.
  intros Hsel Hnd He. destruct (deleteSelected_spec m sel Hsel) as [_ ->].
  rewrite keys_remaining, He. cbn. rewrite String.eqb_refl. cbn.
  unfold distinct_keys in Hnd. rewrite He in Hnd. cbn in Hnd.
  inversion Hnd as [|? ? Hk _]; subst.
  fold (map_keys t) in *. now rewrite filter_absent.
Qed.

(** The keys of the store stay distinct. *)
Lemma exec_distinct (cmd : Command) (m : Manager) :
  distinct_keys (elements m) -> distinct_keys (elements (exec cmd m)).
Proof.
  intros H. destruct cmd; cbn [exec]; try exact H.
  - now rewrite navigateNext_elements.
  - unfold navigatePrevious. branches; rewrite ?selectAt_elements; exact H.
  - unfold navigateSpatial, selectFirst.
    branches; rewrite ?selectAt_elements; exact H.
  - unfold moveSelected. branches; try exact H. now apply distinct_mutate.
  - now apply distinct_set.
  - now apply distinct_set.
  - now apply distinct_set.
  - unfold createConnected. branches; try exact H.
    + apply distinct_set. now apply distinct_mutate.
    + now apply distinct_set.
  - unfold focusOnSelected. branches; exact H.
  - destruct (selected m) as [sel|] eqn:Hsel.
    + destruct (deleteSelected_spec m sel Hsel) as [-> _].
      unfold distinct_keys. rewrite keys_remaining. now apply NoDup_filter.
    + unfold deleteSelected. now rewrite Hsel.
  - unfold zoomToFit. branches; exact H.
  - now apply distinct_set.
  - unfold removeElement. branches; now apply distinct_delete.
Qed.

Lemma reachable_distinct_keys (c : VM.Canvas) (m : Manager) :
  reachable c m -> distinct_keys (elements m).
Proof.
  induction 1 as [|cmd m _ IH]; [constructor | now apply exec_distinct].
Qed.

(** C4, at a middle element.  In the store [a, b, c] with [b] selected,
    the element that follows [b] is [c], and [deleteSelected] selects
    [a]: [navigateNext] runs after the entry is gone, [indexOf] answers
    [-1], and the next index is [0]. *)
Example deleteSelected_middle_selects_first :
  map_keys (elements threeB) = ["a"; "b"; "c"]
  /\ selected threeB = Some "b"
  /\ cyclic_successor (map_keys (elements threeB)) "b" = Some "c"
  /\ map_keys (elements (deleteSelected threeB)) = ["a"; "c"]
  /\ selectedId (state (deleteSelected threeB)) = Some "a".
Proof. repeat split; reflexivity. Qed.

End StoreSpec.

(* ================================================================== *)
(** ** Spatial navigation *)
(* ================================================================== *)

Module SpatialSpec.

Import Nav Props NumFacts MapFacts SelectionSpec.
Local Open Scope string_scope.
Local Open Scope list_scope.
Local Open Scope Q_scope.

Lemma finite_element_inv (e : DiagramElement) :
  finite_element e = true ->
  el_x e = Fin (qx e) /\ el_y e = Fin (qy e)
  /\ el_width e = Fin (qw e) /\ el_height e = Fin (qh e).
Proof.
  unfold finite_element, qx, qy, qw, qh.
  destruct (el_x e), (el_y e), (el_width e), (el_height e); cbn;
    try discriminate; auto.
Qed.

Lemma finite_store_In (els : ElementMap) (k : string) (e : DiagramElement) :
  finite_store els = true -> In (k, e) els -> finite_element e = true.
Proof.
  unfold finite_store. rewrite forallb_forall. intros H Hin.
  exact (H (k, e) Hin).
Qed.

Lemma isInDirection_spec (d : Direction) (from to : DiagramElement) :
  finite_element from = true -> finite_element to = true ->
  isInDirection from to d = true <-> in_direction_of d from to.
Proof.
  intros Hf Ht.
  destruct (finite_element_inv _ Hf) as (Fx & Fy & Fw & Fh).
  destruct (finite_element_inv _ Ht) as (Tx & Ty & Tw & Th).
  unfold isInDirection, in_direction_of, in_direction, threshold.
  rewrite Fx, Fy, Fw, Fh, Tx, Ty, Tw, Th.
  destruct d; autorewrite with num_fin; rewrite (n_fin 30); autorewrite with num_fin;
    change (inject_Z 30) with 30; rewrite andb_true_iff;
    repeat match goal with
       | |- context [Qltb ?a ?b] => destruct (Qltb_spec a b)
       end; intuition (try discriminate; try lra).
Qed.

Lemma collect_filter (sel : string) (cur : DiagramElement) (d : Direction)
    (els : ElementMap) :
  collect sel cur d els
  = map (fun p => mkCandidate (fst p) (snd p) (calculateDistance cur (snd p)))
        (filter (fun p => negb (fst p =? sel) && isInDirection cur (snd p) d) els).
Proof.
  unfold collect. induction els as [|[k e] t IH]; cbn; [reflexivity|].
  rewrite IH. destruct (k =? sel); cbn; [reflexivity|].
  destruct (isInDirection cur e d); reflexivity.
Qed.

Lemma calculateDistance_fin (from to : DiagramElement) :
  finite_element from = true -> finite_element to = true ->
  exists r, calculateDistance from to = Sqrt (Fin r)
            /\ 0 <= r
            /\ r == distance2 (qx from) (qy from) (qw from) (qh from)
                              (qx to) (qy to) (qw to) (qh to).
Proof.
  intros Hf Ht.
  destruct (finite_element_inv _ Hf) as (Fx & Fy & Fw & Fh).
  destruct (finite_element_inv _ Ht) as (Tx & Ty & Tw & Th).
  unfold calculateDistance, center. cbn [VM.pt_x VM.pt_y].
  rewrite Fx, Fy, Fw, Fh, Tx, Ty, Tw, Th.
  autorewrite with num_fin.
  eexists; split; [reflexivity|]. unfold distance2. split; [|ring].
  assert (Hsq : forall a b : Q, 0 <= a * a + b * b) by (intros; nra).
  apply Hsq.
Qed.

(** *** The sort *)

Lemma surd_cmp_ok (a b : Candidate) :
  dist_ok a -> dist_ok b ->
  surd_cmp (c_distance a) (c_distance b) = (kq a ?= kq b).
Proof.
  intros [Ha Ha'] [Hb Hb']. rewrite Ha, Hb. unfold surd_cmp; cbn.
  destruct (Qltb_spec (kq a) 0); [lra|].
  destruct (Qltb_spec (kq b) 0); [lra|]. reflexivity.
Qed.

Lemma sort_insert_In (a c : Candidate) (l : list Candidate) :
  In c (sort_insert a l) <-> c = a \/ In c l.
Proof.
  induction l as [|b t IH]; cbn; [intuition|].
  destruct (surd_cmp _ _); cbn; rewrite ?IH; intuition.
Qed.

Lemma sort_In (c : Candidate) (l : list Candidate) :
  In c (sort l) <-> In c l.
Proof.
  induction l as [|a t IH]; cbn; [tauto|].
  rewrite sort_insert_In, IH. intuition.
Qed.

Lemma sort_head_min (l : list Candidate) :
  Forall dist_ok l ->
  forall c rest, sort l = c :: rest ->
  In c l /\ forall c', In c' l -> kq c <= kq c'.
Proof.
  induction l as [|a t IH]; intros Hok c rest; cbn [sort]; [discriminate|].
  inversion Hok as [|? ? Ha Ht]; subst.
  destruct (sort t) as [|b rest'] eqn:Es.
  - cbn. intros [= <- <-]. split; [now left|].
    intros c' [<-|Hin]; [lra|].
    apply sort_In in Hin. rewrite Es in Hin. destruct Hin.
  - destruct (IH Ht b rest' eq_refl) as [Hb Hmin].
    assert (Hbok : dist_ok b) by (rewrite Forall_forall in Ht; auto).
    cbn [sort_insert]. rewrite (surd_cmp_ok a b Ha Hbok).
    destruct (kq a ?= kq b) eqn:E; intros [= <- <-].
    + apply Qeq_alt in E. split; [now left|].
      intros c' [<-|Hin]; [lra|]. specialize (Hmin c' Hin). lra.
    + apply Qlt_alt in E. split; [now left|].
      intros c' [<-|Hin]; [lra|]. specialize (Hmin c' Hin). lra.
    + apply Qgt_alt in E. split; [now right|].
      intros c' [<-|Hin]; [lra|]. auto.
Qed.

Lemma sort_nonempty (l : list Candidate) : l <> [] -> sort l <> [].
Proof.
  destruct l as [|a t]; [congruence|]. intros _ H.
  assert (Hin : In a (sort (a :: t))) by (apply sort_In; now left).
  rewrite H in Hin. destruct Hin.
Qed.

(** The outcome of [navigateSpatial] with a selection that is in the
    store, on squared distances. *)
Lemma navigateSpatial_outcome (d : Direction) (m : Manager) (sel : string)
    (cur : DiagramElement) :
  selected m = Some sel ->
  map_get sel (elements m) = Some cur ->
  finite_store (elements m) = true ->
  ((forall id e, ~ is_candidate d sel cur (elements m) id e)
   /\ navigateSpatial d m = m)
  \/ (exists id e,
        is_candidate d sel cur (elements m) id e
        /\ navigateSpatial d m = selectElement id m
        /\ forall id' e', is_candidate d sel cur (elements m) id' e' ->
             distance2 (qx cur) (qy cur) (qw cur) (qh cur) (qx e) (qy e) (qw e) (qh e)
             <= distance2 (qx cur) (qy cur) (qw cur) (qh cur) (qx e') (qy e') (qw e') (qh e')).
Proof.
  intros Hsel Hcur Hfin. unfold navigateSpatial. rewrite Hsel, Hcur.
  assert (Hfc : finite_element cur = true)
    by (eapply finite_store_In; eauto using get_In).
  assert (Hcand : forall id e,
            In (mkCandidate id e (calculateDistance cur e))
               (collect sel cur d (elements m))
            <-> is_candidate d sel cur (elements m) id e).
  { intros id e. rewrite collect_filter, in_map_iff. unfold is_candidate. split.
    - intros [[k e0] [[= -> ->] Hin]]. apply filter_In in Hin.
      destruct Hin as [Hin Hp]. cbn in Hp. apply andb_true_iff in Hp.
      destruct Hp as [Hk Hd]. split; [exact Hin|]. split.
      + destruct (String.eqb_spec id sel); [discriminate | assumption].
      + apply isInDirection_spec; eauto using finite_store_In.
    - intros (Hin & Hne & Hd). exists (id, e). split; [reflexivity|].
      apply filter_In. split; [exact Hin|]. cbn. apply andb_true_iff. split.
      + destruct (String.eqb_spec id sel); [contradiction | reflexivity].
      + apply isInDirection_spec; eauto using finite_store_In. }
  assert (Hshape : forall c, In c (collect sel cur d (elements m)) ->
            c = mkCandidate (c_id c) (c_element c)
                            (calculateDistance cur (c_element c))
            /\ In (c_id c, c_element c) (elements m)).
  { intros c. rewrite collect_filter, in_map_iff.
    intros [[k e0] [<- Hin]]. cbn. split; [reflexivity|].
    apply filter_In in Hin. tauto. }
  assert (Hok : Forall dist_ok (collect sel cur d (elements m))).
  { apply Forall_forall. intros c Hc. destruct (Hshape c Hc) as [Hc1 Hc2].
    destruct (calculateDistance_fin cur (c_element c) Hfc) as (r & Hr & Hr0 & _);
      [eauto using finite_store_In|].
    unfold dist_ok, kq. rewrite Hc1. cbn [c_distance]. rewrite Hr. cbn. auto. }
  destruct (collect sel cur d (elements m)) as [|c0 cs] eqn:Ec.
  - left. split; [|reflexivity]. intros id e Hc. apply Hcand in Hc. destruct Hc.
  - right. cbn [List.length Nat.eqb]. rewrite <- Ec in *.
    destruct (sort (collect sel cur d (elements m))) as [|c rest] eqn:Es.
    { exfalso. eapply sort_nonempty; [|exact Es]. rewrite Ec. discriminate. }
    destruct (sort_head_min _ Hok c rest Es) as [Hin Hmin].
    destruct (Hshape c Hin) as [Hc1 Hc2].
    exists (c_id c), (c_element c). split; [|split; [reflexivity|]].
    + apply Hcand. now rewrite <- Hc1.
    + intros id' e' Hc'. apply Hcand in Hc'. specialize (Hmin _ Hc').
      assert (Hfe' : finite_element e' = true).
      { apply Hshape in Hc'. cbn in Hc'. destruct Hc' as [_ Hc'].
        eauto using finite_store_In. }
      assert (Hfe : finite_element (c_element c) = true)
        by eauto using finite_store_In.
      destruct (calculateDistance_fin cur e' Hfc Hfe') as (r' & Hr' & _ & Hd').
      destruct (calculateDistance_fin cur (c_element c) Hfc Hfe) as (r & Hr & _ & Hd).
      unfold kq in Hmin. rewrite Hc1 in Hmin. cbn [c_distance] in Hmin.
      rewrite Hr, Hr' in Hmin. cbn in Hmin. rewrite <- Hd, <- Hd'. exact Hmin.
Qed.

Lemma selected_selectedId (m : Manager) (sel : string) :
  selected m = Some sel -> selectedId (state m) = Some sel.
Proof.
  unfold selected. destruct (selectedId (state m)) as [s|]; [|discriminate].
  destruct (s =? EmptyString); congruence.
Qed.

(** C7, as the code has it.  With a selected element [cur] that is in
    the store (all coordinates rational), the candidates of
    [navigateSpatial d] are exactly the entries of the store under
    another key than the selected one that pass the test of
    [isInDirection]: on the axis of the move, beyond the far edge of [cur]
    pulled back by the tolerance of 30 (so that an element which overlaps
    [cur], or lies on the other side of it by less than 30, still
    qualifies), and on the other axis with a centre within half the
    extent of [cur] plus 30 of the centre of [cur].  If there is none the
    manager is unchanged; otherwise a candidate is selected whose centre
    is at the least Euclidean distance from the centre of [cur] among all
    candidates, the distances being compared in exact arithmetic. *)
Theorem navigateSpatial_nearest (d : Direction) (m : Manager) (sel : string)
    (cur : DiagramElement) :
  selected m = Some sel ->
  map_get sel (elements m) = Some cur ->
  finite_store (elements m) = true ->
  ((forall id e, ~ is_candidate d sel cur (elements m) id e)
   /\ navigateSpatial d m = m)
  \/ (exists id e,
        is_candidate d sel cur (elements m) id e
        /\ navigateSpatial d m = selectElement id m
        /\ forall id' e', is_candidate d sel cur (elements m) id' e' ->
             (euclid_of cur e <= euclid_of cur e')%R).
Proof.
  intros Hsel Hcur Hfin.
  destruct (navigateSpatial_outcome d m sel cur Hsel Hcur Hfin)
    as [H|(id & e & Hc & Hn & Hmin)]; [left; exact H | right].
  exists id, e. split; [exact Hc|]. split; [exact Hn|].
  intros id' e' Hc'. unfold euclid_of, euclid.
  apply sqrt_le_1_alt. apply Qle_Rle. exact (Hmin id' e' Hc').
Qed.

(** An instance: a move to the right in the layout of the tests. *)
Lemma navigateSpatial_nearest_witness :
  selected testLayout = Some "elem1"
  /\ map_get "elem1" (elements testLayout)
     = Some (rect "elem1" 100 100 120 80 [])
  /\ finite_store (elements testLayout) = true
  /\ (((forall id e,
          ~ is_candidate right "elem1" (rect "elem1" 100 100 120 80 [])
                         (elements testLayout) id e)
       /\ navigateSpatial right testLayout = testLayout)
      \/ (exists id e,
            is_candidate right "elem1" (rect "elem1" 100 100 120 80 [])
                         (elements testLayout) id e
            /\ navigateSpatial right testLayout = selectElement id testLayout
            /\ forall id' e',
                 is_candidate right "elem1" (rect "elem1" 100 100 120 80 [])
                              (elements testLayout) id' e' ->
                 (euclid_of (rect "elem1" 100 100 120 80 []) e
                  <= euclid_of (rect "elem1" 100 100 120 80 []) e')%R)).
Proof.
  assert (H1 : selected testLayout = Some "elem1") by reflexivity.
  assert (H2 : map_get "elem1" (elements testLayout)
               = Some (rect "elem1" 100 100 120 80 [])) by reflexivity.
  assert (H3 : finite_store (elements testLayout) = true) by reflexivity.
  split; [exact H1 | split; [exact H2 | split; [exact H3 |]]].
  exact (navigateSpatial_nearest right testLayout "elem1" _ H1 H2 H3).
Defined.

(** The scenarios of the tests. *)
Example navigate_right_of_elem1 :
  selectedId (state (navigateSpatial right testLayout)) = Some "elem2"
  /\ selectedId (state (navigateSpatial down testLayout)) = Some "elem3"
  /\ navigateSpatial left testLayout = testLayout.
Proof. repeat split; reflexivity. Qed.




End SpatialSpec.

(* ================================================================== *)
(** ** Creation *)
(* ================================================================== *)

Module CreationSpec.

Import Nav Props NumFacts MapFacts.
Local Open Scope string_scope.
Local Open Scope list_scope.
Local Open Scope Q_scope.

(** With nothing selected, a class element is created with its centre at
    the centre of the world bounds of the viewport, and is selected. *)
Lemma createClass_centered (m : Manager) (id : string) (x y z W H : Q) :
  selected m = None ->
  VM.viewport (viewport m) = VM.mkViewport (Fin x) (Fin y) (Fin z) ->
  VM.canvas (viewport m) = VM.mkCanvas (Fin W) (Fin H) ->
  ~ z == 0 ->
  let b := VM.getViewportBounds (viewport m) in
  let m' := createClass id m in
  exists e,
    map_get id (elements m') = Some e
    /\ el_width e = n 120 /\ el_height e = n 80 /\ el_type e = class
    /\ (VM.pt_x (center e) =~ VM.pt_x (boundsCenter b))%num
    /\ (VM.pt_y (center e) =~ VM.pt_y (boundsCenter b))%num
    /\ selectedId (state m') = Some id.
Proof.
  intros Hsel Hv Hc Hz b m'. subst b m'.
  unfold createClass.
  cbn [elements selectElement with_state with_elements state selectedId].
  rewrite get_set, String.eqb_refl. eexists. split; [reflexivity|].
  cbn [el_width el_height el_type]. repeat (split; [reflexivity|]).
  unfold getCreationPosition. rewrite Hsel.
  unfold center, boundsCenter, VM.getViewportBounds, VM.screenToWorld.
  cbn [el_x el_y el_width el_height VM.pt_x VM.pt_y VM.b_x VM.b_y
       VM.b_width VM.b_height].
  rewrite Hv, Hc. cbn [VM.vp_x VM.vp_y VM.vp_zoom VM.c_width VM.c_height].
  rewrite !n_fin.
  repeat (rewrite ?div_fin by (assumption || (intro E; discriminate E));
          autorewrite with num_fin).
  cbn [eqv].
  repeat split; change (inject_Z 120) with 120; change (inject_Z 80) with 80;
    change (inject_Z 60) with 60; change (inject_Z 40) with 40;
    change (inject_Z 2) with 2; change (inject_Z 0) with 0; field; auto.
Qed.

(** The scenario of the specification: world bounds [{0, 0, 800, 600}],
    nothing selected, a 120 by 80 element is created at (340, 260). *)
Example createClass_scenario :
  VM.getViewportBounds (viewport fresh)
  = VM.mkBounds (Fin 0) (Fin 0) (Fin 800) (Fin 600)
  /\ exists e,
       map_get "class_1" (elements (createClass "class_1" fresh)) = Some e
       /\ (el_x e =~ Fin 340)%num /\ (el_y e =~ Fin 260)%num
       /\ el_width e = Fin 120 /\ el_height e = Fin 80
       /\ selectedId (state (createClass "class_1" fresh)) = Some "class_1".
Proof.
  split; [reflexivity|]. eexists. split; [reflexivity|].
  repeat split; reflexivity.
Qed.

(** C8, for a method.  With the same bounds and nothing selected,
    [createMethod] puts the 100 by 60 element at (340, 260) too: the
    offsets of [getCreationPosition] are half the size of a class element
    whatever is created.  The centre of the method is (390, 290), the
    centre of the viewport (400, 300). *)
Example createMethod_off_center :
  selected fresh = None
  /\ boundsCenter (VM.getViewportBounds (viewport fresh))
     = VM.mkPoint (Fin (800 / 2)) (Fin (600 / 2))
  /\ exists e,
       map_get "method_1" (elements (createMethod "method_1" fresh)) = Some e
       /\ el_width e = Fin 100 /\ el_height e = Fin 60
       /\ (el_x e =~ Fin 340)%num /\ (el_y e =~ Fin 260)%num
       /\ (VM.pt_x (center e) =~ Fin 390)%num
       /\ (VM.pt_y (center e) =~ Fin 290)%num
       /\ ~ (VM.pt_x (center e)
             =~ VM.pt_x (boundsCenter (VM.getViewportBounds (viewport fresh))))%num.
Proof.
  split; [reflexivity|]. split; [reflexivity|].
  eexists. split; [reflexivity|].
  repeat split; try reflexivity. cbn. discriminate.
Qed.

(** The same for an interface, 140 by 70: centre (410, 295). *)
Example createInterface_off_center :
  exists e,
    map_get "interface_1" (elements (createInterface "interface_1" fresh)) = Some e
    /\ (VM.pt_x (center e) =~ Fin 410)%num
    /\ (VM.pt_y (center e) =~ Fin 295)%num.
Proof. eexists. split; [reflexivity|]. split; reflexivity. Qed.

End CreationSpec.

(* ================================================================== *)
(** ** The camera: conversions, panning, zooming, animation *)
(* ================================================================== *)

Module CameraFacts.


Import VM Props Invariants NumFacts.
Local Open Scope num_scope.

(** The clamp leaves a value that is within the bounds as it is. *)
Lemma clamp_id (q : Q) :
  (zMin <= q <= zMax)%Q ->
  exists q', Num.max (Fin zMin) (Num.min (Fin zMax) (Fin q)) = Fin q'
             /\ (q' == q)%Q.
Proof.
  unfold zMin, zMax. intros [Hlo Hhi]. unfold Num.max, Num.min. cbn.
  qcases; cbn; qcases; eexists; (split; [reflexivity | lra]).
Qed.

(** X1.  With a zoom that is not zero, [worldToScreen] and [screenToWorld]
    are inverse of each other, in both orders. *)
Theorem screen_world_inverse (c : Canvas) (sched : list Animation)
    (x y z px py : Q) :
  ~ (z == 0)%Q ->
  pt_eqv (worldToScreen (mkVM (qviewport x y z) c sched)
            (screenToWorld (mkVM (qviewport x y z) c sched) (qpoint px py)))
         (qpoint px py)
  /\ pt_eqv (screenToWorld (mkVM (qviewport x y z) c sched)
               (worldToScreen (mkVM (qviewport x y z) c sched) (qpoint px py)))
            (qpoint px py).
Proof.
  intros Hz. unfold pt_eqv, screenToWorld, worldToScreen, qviewport, qpoint.
  cbn [viewport vp_x vp_y vp_zoom pt_x pt_y].
  autorewrite with num_fin. rewrite !(div_fin _ _ Hz). autorewrite with num_fin.
  cbn [eqv]. repeat split; field; exact Hz.
Qed.

(** An instance. *)
Lemma screen_world_inverse_witness :
  ~ (2 == 0)%Q
  /\ pt_eqv (worldToScreen (mkVM (qviewport 100 50 2) canvas800x600 [])
               (screenToWorld (mkVM (qviewport 100 50 2) canvas800x600 [])
                              (qpoint 400 300)))
            (qpoint 400 300).
Proof.
  assert (H : ~ (2 == 0)%Q) by (intro E; discriminate E).
  split; [exact H |].
  exact (proj1 (screen_world_inverse canvas800x600 [] 100 50 2 400 300 H)).
Defined.

(** X2.  In exact arithmetic, two pans add up and commute: [pan a b] then [pan a' b'] gives the
    translation of [pan (a + a') (b + b')] and that of the pans in the
    other order; the zoom and the scheduled animations are untouched. *)
Theorem pan_additive (c : Canvas) (sched : list Animation)
    (x y z a b a' b' : Q) :
  let m := mkVM (qviewport x y z) c sched in
  vp_eqv (viewport (pan (Fin a') (Fin b') (pan (Fin a) (Fin b) m)))
         (viewport (pan (Fin (a + a')) (Fin (b + b')) m))
  /\ vp_eqv (viewport (pan (Fin a') (Fin b') (pan (Fin a) (Fin b) m)))
            (viewport (pan (Fin a) (Fin b) (pan (Fin a') (Fin b') m)))
  /\ vp_zoom (viewport (pan (Fin a') (Fin b') (pan (Fin a) (Fin b) m))) = Fin z
  /\ scheduled (pan (Fin a) (Fin b) m) = sched.
Proof.
  unfold vp_eqv, pan, with_viewport, qviewport. cbn.
  repeat split; try reflexivity; ring.
Qed.

(** X3.  In exact arithmetic, when neither zoom is clamped, zooming at a
    point by [f] and then at the same point by [1 / f] brings the viewport
    back: translation and zoom. *)
Theorem zoomAt_inverse (c : Canvas) (sched : list Animation)
    (x y z px py f : Q) :
  (zMin <= z <= zMax)%Q ->
  (zMin <= z * f <= zMax)%Q ->
  let m := mkVM (qviewport x y z) c sched in
  let p := qpoint px py in
  vp_eqv (viewport (zoomAt p (Fin (1 / f)) (zoomAt p (Fin f) m))) (viewport m).
Proof.
  intros Hz Hzf m p. subst m p.
  assert (Hf : ~ (f == 0)%Q).
  { unfold zMin in *. intros E. rewrite E in Hzf. lra. }
  assert (Hz0 : ~ (z == 0)%Q) by (unfold zMin in *; lra).
  assert (Hzf0 : ~ (z * f == 0)%Q) by (unfold zMin in *; lra).
  assert (Hback : (z * f * (1 / f) == z)%Q) by (field; exact Hf).
  unfold vp_eqv, zoomAt, screenToWorld, worldToScreen, with_viewport, qviewport, qpoint.
  cbn [viewport vp_x vp_y vp_zoom pt_x pt_y canvas scheduled].
  rewrite !mul_fin. destruct (clamp_id (z * f) Hzf) as (z1 & -> & Hz1).
  cbn [viewport vp_x vp_y vp_zoom pt_x pt_y canvas scheduled].
  assert (Hz10 : ~ (z1 == 0)%Q) by (rewrite Hz1; exact Hzf0).
  rewrite !mul_fin.
  destruct (clamp_id (z1 * (1 / f))) as (z2 & -> & Hz2).
  { rewrite Hz1, Hback. exact Hz. }
  assert (Hz20 : ~ (z2 == 0)%Q) by (rewrite Hz2, Hz1, Hback; exact Hz0).
  autorewrite with num_fin.
  rewrite ?(div_fin _ _ Hz0), ?(div_fin _ _ Hz10). autorewrite with num_fin.
  rewrite ?(div_fin _ _ Hz10). autorewrite with num_fin.
  cbn [eqv]. rewrite Hz2, Hz1. repeat split; [field; auto | field; auto | field; auto].
Qed.

(** An instance. *)
Lemma zoomAt_inverse_witness :
  (zMin <= 1 <= zMax)%Q /\ (zMin <= 1 * 2 <= zMax)%Q
  /\ vp_eqv (viewport (zoomAt (qpoint 200 150) (Fin (1 / 2))
                        (zoomAt (qpoint 200 150) (Fin 2)
                                (mkVM (qviewport 0 0 1) canvas800x600 []))))
            (qviewport 0 0 1).
Proof.
  assert (H1 : (zMin <= 1 <= zMax)%Q)
    by (unfold zMin, zMax, Qle; simpl; lia).
  assert (H2 : (zMin <= 1 * 2 <= zMax)%Q)
    by (unfold zMin, zMax, Qle; simpl; lia).
  split; [exact H1 | split; [exact H2 |]].
  exact (zoomAt_inverse canvas800x600 [] 0 0 1 200 150 2 H1 H2).
Defined.






(** The ease-out curve on a progress in [[0, 1]] is in [[0, 1]]. *)
Lemma easeOut_range (p : Q) :
  (0 <= p <= 1)%Q -> (0 <= 1 - (1 - p) * ((1 - p) * (1 - p)) <= 1)%Q.
Proof.
  intros [H0 H1].
  assert (0 <= 1 - p <= 1)%Q by lra.
  set (u := (1 - p)%Q) in *.
  assert (0 <= u * u <= 1)%Q by nra.
  set (v := (u * u)%Q) in *. nra.
Qed.

(** The progress of an animation of positive duration. *)
Lemma progress_fin (a : Animation) (d t0 now : Q) :
  a_duration a = Fin d -> a_startTime a = Fin t0 ->
  (0 < d)%Q ->
  exists p, animate_progress a (Fin now) = Fin p
            /\ (t0 <= now -> 0 <= p <= 1)%Q
            /\ (t0 + d <= now -> p == 1)%Q
            /\ (now == t0 -> p == 0)%Q
            /\ (now < t0 + d -> p < 1)%Q.
Proof.
  intros Hd Ht Hpos. unfold animate_progress. rewrite Hd, Ht.
  assert (Hd0 : ~ (d == 0)%Q) by lra.
  rewrite sub_fin, (div_fin _ _ Hd0), n_fin. unfold Num.min. rewrite ltb_fin.
  change (inject_Z 1) with 1%Q.
  assert (Hq : forall u : Q, (u / d * d == u)%Q) by (intros; field; exact Hd0).
  destruct (Qltb_spec 1 ((now - t0) / d)) as [L|L]; eexists;
    (split; [reflexivity|]); repeat split; intros; try lra.
  all: specialize (Hq (now - t0)%Q); nra.
Qed.

(** The state that a frame writes, from the progress. *)
Lemma animate_state_fin (sx sy sz tx ty tz : Q) (d t0 : num) (now : num) (p : Q) :
  let a := mkAnimation (qviewport sx sy sz) (qviewport tx ty tz) d t0 in
  animate_progress a now = Fin p ->
  animate_state a now
  = qviewport (sx + (tx - sx) * (1 - (1 - p) * ((1 - p) * (1 - p))))
              (sy + (ty - sy) * (1 - (1 - p) * ((1 - p) * (1 - p))))
              (sz + (tz - sz) * (1 - (1 - p) * ((1 - p) * (1 - p)))).
Proof.
  intros a Hp. unfold animate_state. rewrite Hp. reflexivity.
Qed.

Lemma between (s t e : Q) :
  (0 <= e <= 1)%Q ->
  (Qmin s t <= s + (t - s) * e <= Qmax s t)%Q.
Proof.
  intros He.
  destruct (Q.min_spec s t) as [[? ->]|[? ->]];
    destruct (Q.max_spec s t) as [[? ->]|[? ->]]; nra.
Qed.

(** X6.  In exact arithmetic, every frame of an animation of positive
    duration, run at or after its start, writes a state between the start
    and the target, component by component; so a zoom animated between
    two zooms of [[0.1, 5]] stays in [[0.1, 5]] up to the rounding of the
    doubles. *)
Theorem animation_stays_between (sx sy sz tx ty tz d t0 now : Q) :
  (0 < d)%Q -> (t0 <= now)%Q ->
  exists x y z,
    animate_state
      (mkAnimation (qviewport sx sy sz) (qviewport tx ty tz) (Fin d) (Fin t0))
      (Fin now)
    = qviewport x y z
    /\ (Qmin sx tx <= x <= Qmax sx tx)%Q
    /\ (Qmin sy ty <= y <= Qmax sy ty)%Q
    /\ (Qmin sz tz <= z <= Qmax sz tz)%Q
    /\ ((zMin <= sz <= zMax)%Q -> (zMin <= tz <= zMax)%Q ->
        (zMin <= z <= zMax)%Q).
Proof.
  intros Hd Hnow.
  destruct (progress_fin
              (mkAnimation (qviewport sx sy sz) (qviewport tx ty tz) (Fin d) (Fin t0))
              d t0 now eq_refl eq_refl Hd) as (p & Hp & Hr & _).
  specialize (Hr Hnow). pose proof (easeOut_range p Hr) as He.
  rewrite (animate_state_fin _ _ _ _ _ _ _ _ _ p Hp).
  do 3 eexists. split; [reflexivity|].
  pose proof (between sx tx _ He). pose proof (between sy ty _ He).
  pose proof (between sz tz _ He) as Hz.
  repeat split; try tauto.
  - destruct Hz as [Hz _]. destruct (Q.min_spec sz tz) as [[? E]|[? E]];
      rewrite E in Hz; lra.
  - destruct Hz as [_ Hz]. destruct (Q.max_spec sz tz) as [[? E]|[? E]];
      rewrite E in Hz; lra.
Qed.

(** An instance. *)
Lemma animation_stays_between_witness :
  (0 < 400)%Q /\ (0 <= 150)%Q
  /\ exists x y z,
       animate_state sampleAnimation (Fin 150) = qviewport x y z
       /\ (Qmin 1 3 <= z <= Qmax 1 3)%Q.
Proof.
  assert (H1 : (0 < 400)%Q) by reflexivity.
  assert (H2 : (0 <= 150)%Q) by (unfold Qle; simpl; lia).
  split; [exact H1 | split; [exact H2 |]].
  destruct (animation_stays_between 0 0 1 100 50 3 400 0 150 H1 H2)
    as (x & y & z & E & _ & _ & Hz & _).
  exists x, y, z. split; [exact E | exact Hz].
Defined.

(** X7.  An animation of positive duration started from a camera at rest
    leaves the viewport unchanged until a frame runs, and is scheduled
    again by every frame that runs before its duration has elapsed (the
    elapsed time being computed in exact arithmetic).  The first frame at
    or after that runs with a progress and an ease-out of 1: it writes
    [start + (target - start) * 1] in each component, which is the target
    in exact arithmetic, and schedules nothing more. *)
Theorem animation_runs_to_target (c : Canvas) (sx sy sz tx ty tz d t0 now : Q) :
  (0 < d)%Q ->
  let a := mkAnimation (qviewport sx sy sz) (qviewport tx ty tz) (Fin d) (Fin t0) in
  let m := animateViewport (qviewport tx ty tz) (Fin d) (Fin t0)
                           (mkVM (qviewport sx sy sz) c []) in
  viewport m = qviewport sx sy sz
  /\ scheduled m = [a]
  /\ ((t0 <= now)%Q -> (now < t0 + d)%Q ->
      scheduled (animationFrame (Fin now) m) = [a])
  /\ ((t0 + d <= now)%Q ->
      animate_progress a (Fin now) =~ Fin 1
      /\ vp_eqv (viewport (animationFrame (Fin now) m))
                (mkViewport (Fin sx + (Fin tx - Fin sx) * Fin 1)
                            (Fin sy + (Fin ty - Fin sy) * Fin 1)
                            (Fin sz + (Fin tz - Fin sz) * Fin 1))
      /\ scheduled (animationFrame (Fin now) m) = []).
Proof.
  intros Hd a m. subst m.
  destruct (progress_fin a d t0 now eq_refl eq_refl Hd)
    as (p & Hp & _ & H1 & _ & Hlt).
  split; [reflexivity|]. split; [reflexivity|].
  unfold animationFrame, animateViewport.
  cbn [scheduled viewport canvas app fold_left]. unfold animate.
  cbn [scheduled viewport canvas app]. fold a. rewrite Hp, n_fin, ltb_fin.
  change (inject_Z 1) with 1%Q. split.
  - intros _ H. specialize (Hlt H).
    destruct (Qltb_spec p 1); [reflexivity | lra].
  - intros H. specialize (H1 H). split; [exact H1|]. split.
    + unfold a. rewrite (animate_state_fin _ _ _ _ _ _ _ _ _ p Hp).
      unfold vp_eqv, qviewport. cbn. rewrite H1. repeat split; ring.
    + destruct (Qltb_spec p 1); [lra | reflexivity].
Qed.

(** An instance. *)
Lemma animation_runs_to_target_witness :
  (0 < 400)%Q
  /\ scheduled (animationFrame (Fin 150) animating) = [sampleAnimation]
  /\ scheduled (animationFrame (Fin 400) animating) = [].
Proof.
  assert (H : (0 < 400)%Q) by reflexivity.
  split; [exact H |].
  destruct (animation_runs_to_target canvas800x600 0 0 1 100 50 3 400 0 150 H)
    as (_ & _ & G1 & _).
  destruct (animation_runs_to_target canvas800x600 0 0 1 100 50 3 400 0 400 H)
    as (_ & _ & _ & G2).
  split; [apply G1; [unfold Qle; simpl; lia | reflexivity] |].
  apply G2. unfold Qle; simpl; lia.
Defined.

(** The target of a focus on bounds of positive size: its zoom is the
    smaller of the two ratios, so the bounds fit between the paddings and
    touch them on one axis. *)
Lemma focusTarget_cases (W H p bx by_ bw bh : Q) :
  (0 < bw)%Q -> (0 < bh)%Q ->
  exists tz,
    focusTarget (qcanvas W H) (qbounds bx by_ bw bh) (Fin p)
    = qviewport (W / 2 - (bx + bw / 2) * tz) (H / 2 - (by_ + bh / 2) * tz) tz
    /\ (bw * tz <= W - 2 * p)%Q /\ (bh * tz <= H - 2 * p)%Q
    /\ ((bw * tz == W - 2 * p)%Q \/ (bh * tz == H - 2 * p)%Q).
Proof.
  intros Hw Hh.
  assert (Hw0 : ~ (bw == 0)%Q) by lra. assert (Hh0 : ~ (bh == 0)%Q) by lra.
  unfold focusTarget, qcanvas, qbounds.
  cbn [c_width c_height b_x b_y b_width b_height].
  rewrite !n_fin. autorewrite with num_fin.
  rewrite (div_fin _ _ Hw0), (div_fin _ _ Hh0).
  assert (H2 : ~ (inject_Z 2 == 0)%Q) by (intro E; discriminate E).
  rewrite ?(div_fin _ _ H2). change (inject_Z 2) with 2%Q.
  assert (Ew : (bw * ((W - p * 2) / bw) == W - p * 2)%Q) by (field; exact Hw0).
  assert (Eh : (bh * ((H - p * 2) / bh) == H - p * 2)%Q) by (field; exact Hh0).
  unfold Num.min. rewrite ltb_fin.
  destruct (Qltb_spec ((H - p * 2) / bh) ((W - p * 2) / bw)) as [L|L];
    autorewrite with num_fin.
  - exists ((H - p * 2) / bh)%Q. split; [reflexivity|].
    split; [nra|]. split; [lra | right; lra].
  - exists ((W - p * 2) / bw)%Q. split; [reflexivity|].
    split; [lra|]. split; [nra | left; lra].
Qed.

(** X8.  In exact arithmetic, for bounds of positive width and height the
    target of [focusOnBounds] is finite, it projects the centre of the bounds onto
    the centre of the canvas, and at its zoom the bounds are no larger
    than the canvas less the padding on each side, on both axes, and
    exactly that large on one of them. *)
Theorem focusTarget_centres_and_fits (W H p bx by_ bw bh : Q) :
  (0 < bw)%Q -> (0 < bh)%Q ->
  exists tx ty tz,
    focusTarget (qcanvas W H) (qbounds bx by_ bw bh) (Fin p) = qviewport tx ty tz
    /\ pt_eqv (worldToScreen (mkVM (qviewport tx ty tz) (qcanvas W H) [])
                             (qpoint (bx + bw / 2) (by_ + bh / 2)))
              (qpoint (W / 2) (H / 2))
    /\ (bw * tz <= W - 2 * p)%Q /\ (bh * tz <= H - 2 * p)%Q
    /\ ((bw * tz == W - 2 * p)%Q \/ (bh * tz == H - 2 * p)%Q).
Proof.
  intros Hw Hh.
  destruct (focusTarget_cases W H p bx by_ bw bh Hw Hh) as (tz & Ht & H1 & H2 & H3).
  exists (W / 2 - (bx + bw / 2) * tz)%Q, (H / 2 - (by_ + bh / 2) * tz)%Q, tz.
  split; [exact Ht|]. split; [|tauto].
  unfold pt_eqv, worldToScreen, qviewport, qpoint.
  cbn [viewport vp_x vp_y vp_zoom pt_x pt_y]. autorewrite with num_fin.
  cbn [eqv]. split; ring.
Qed.

(** An instance. *)
Lemma focusTarget_centres_and_fits_witness :
  (0 < 120)%Q /\ (0 < 80)%Q
  /\ exists tx ty tz,
       focusTarget (qcanvas 800 600) (qbounds 0 0 120 80) (Fin 50)
       = qviewport tx ty tz
       /\ (120 * tz <= 800 - 2 * 50)%Q /\ (80 * tz <= 600 - 2 * 50)%Q.
Proof.
  assert (H1 : (0 < 120)%Q) by reflexivity.
  assert (H2 : (0 < 80)%Q) by reflexivity.
  split; [exact H1 | split; [exact H2 |]].
  destruct (focusTarget_centres_and_fits 800 600 50 0 0 120 80 H1 H2)
    as (tx & ty & tz & E & _ & G1 & G2 & _).
  exists tx, ty, tz. split; [exact E | split; [exact G1 | exact G2]].
Defined.

Lemma animationFrame_last (now : num) (m : ViewportManager)
    (l : list Animation) (a : Animation) :
  scheduled m = l ++ [a] ->
  viewport (animationFrame now m) = animate_state a now.
Proof.
  intros H. unfold animationFrame. rewrite H, fold_left_app. reflexivity.
Qed.

(** X9.  While an animation is scheduled, what [pan], [zoomAt] or
    [setViewport] write is lost at the next frame: the frame leaves the
    state of the animation scheduled last, whatever the viewport was. *)
Theorem frame_overrides_immediate (now : num) (m : ViewportManager)
    (l : list Animation) (a : Animation) (o : op) :
  scheduled m = l ++ [a] ->
  immediate o ->
  viewport (animationFrame now (run o m)) = animate_state a now.
Proof.
  intros H Ho. apply (animationFrame_last now _ l a).
  destruct o; cbn in Ho |- *; try contradiction; exact H.
Qed.

(** An instance. *)
Lemma frame_overrides_immediate_witness :
  scheduled animating = [] ++ [sampleAnimation]
  /\ immediate (SetViewport initialViewport)
  /\ viewport (animationFrame (Fin 150) (run (SetViewport initialViewport) animating))
     = animate_state sampleAnimation (Fin 150).
Proof.
  assert (H1 : scheduled animating = [] ++ [sampleAnimation]) by reflexivity.
  assert (H2 : immediate (SetViewport initialViewport)) by exact I.
  split; [exact H1 | split; [exact H2 |]].
  exact (frame_overrides_immediate (Fin 150) animating [] sampleAnimation
           (SetViewport initialViewport) H1 H2).
Defined.

End CameraFacts.

(* ================================================================== *)
(** ** The controller: the store and the selection *)
(* ================================================================== *)

Module ControllerFacts.


Import Nav Props Invariants NumFacts MapFacts SelectionSpec StoreSpec SpatialSpec.
Local Open Scope string_scope.
Local Open Scope list_scope.

(** *** Entries of the store after an update *)

Lemma In_mutate (k k' : string) (f : DiagramElement -> DiagramElement)
    (e' : DiagramElement) (els : ElementMap) :
  In (k', e') (map_mutate k f els) ->
  exists e0, In (k', e0) els /\ (e' = e0 \/ e' = f e0).
Proof.
  induction els as [|[k0 e0] t IH]; cbn; [tauto|].
  destruct (k0 =? k); cbn.
  - intros [[= <- <-]|H]; [exists e0; auto | exists e'; auto].
  - intros [[= <- <-]|H]; [exists e0; auto|].
    destruct (IH H) as (e1 & H1 & H2). exists e1. auto.
Qed.

Lemma In_set (k k' : string) (e e' : DiagramElement) (els : ElementMap) :
  In (k', e') (map_set k e els) -> (k' = k /\ e' = e) \/ In (k', e') els.
Proof.
  unfold map_set. destruct (map_has k els).
  - induction els as [|[k0 e0] t IH]; cbn; [tauto|].
    destruct (String.eqb_spec k0 k) as [->|_]; cbn.
    + intros [[= <- <-]|H]; auto.
    + intros [[= <- <-]|H]; auto. destruct (IH H); auto.
  - rewrite in_app_iff. cbn. intros [H|[[= <- <-]|[]]]; auto.
Qed.

Lemma In_delete (k k' : string) (e' : DiagramElement) (els : ElementMap) :
  In (k', e') (map_delete k els) -> In (k', e') els /\ k' <> k.
Proof.
  unfold map_delete. rewrite filter_In. cbn. intros [H Hk]. split; [exact H|].
  destruct (String.eqb_spec k' k); [discriminate | assumption].
Qed.

Lemma ids_match_mutate (k : string) (f : DiagramElement -> DiagramElement)
    (els : ElementMap) :
  (forall e, el_id (f e) = el_id e) ->
  ids_match els -> ids_match (map_mutate k f els).
Proof.
  intros Hf H k' e' Hin. destruct (In_mutate _ _ _ _ _ Hin) as (e0 & H0 & [->| ->]).
  - eauto.
  - rewrite Hf. eauto.
Qed.

Lemma ids_match_set (k : string) (e : DiagramElement) (els : ElementMap) :
  el_id e = k -> ids_match els -> ids_match (map_set k e els).
Proof.
  intros He H k' e' Hin. destruct (In_set _ _ _ _ _ Hin) as [[-> ->]|H0]; eauto.
Qed.

Lemma ids_match_delete (k : string) (els : ElementMap) :
  ids_match els -> ids_match (map_delete k els).
Proof. intros H k' e' Hin. apply In_delete in Hin. apply H. tauto. Qed.

Lemma ids_match_disconnect (sel : string) (ids : list string) (els : ElementMap) :
  ids_match els -> ids_match (disconnect sel ids els).
Proof.
  unfold disconnect. revert els.
  induction ids as [|id ids IH]; intros els H; cbn; [exact H|].
  apply IH. destruct (map_get id els); [|exact H].
  apply ids_match_mutate; [reflexivity | exact H].
Qed.

Lemma exec_ids_match (cmd : Command) (m : Manager) :
  ids_match (elements m) -> ids_match (elements (exec cmd m)).
Proof.
  intros H. destruct cmd; cbn [exec]; try exact H.
  - now rewrite navigateNext_elements.
  - unfold navigatePrevious. branches; rewrite ?selectAt_elements; exact H.
  - unfold navigateSpatial, selectFirst.
    branches; rewrite ?selectAt_elements; exact H.
  - unfold moveSelected. branches; try exact H.
    apply ids_match_mutate; [reflexivity | exact H].
  - now apply ids_match_set.
  - now apply ids_match_set.
  - now apply ids_match_set.
  - unfold createConnected. branches; try exact H.
    + apply ids_match_set; [reflexivity|].
      apply ids_match_mutate; [reflexivity | exact H].
    + now apply ids_match_set.
  - unfold focusOnSelected. branches; exact H.
  - destruct (selected m) as [sel|] eqn:Hsel.
    + destruct (deleteSelected_spec m sel Hsel) as [-> _].
      unfold remaining. apply ids_match_delete.
      destruct (map_get sel (elements m)); [|exact H].
      now apply ids_match_disconnect.
    + unfold deleteSelected. now rewrite Hsel.
  - unfold zoomToFit. branches; exact H.
  - now apply ids_match_set.
  - unfold removeElement. branches; now apply ids_match_delete.
Qed.

(** *** The selection stays in the store *)

Lemma selectElement_live (id : string) (m : Manager) :
  In id (map_keys (elements m)) -> selection_live (selectElement id m).
Proof. intros H id' [= <-]. exact H. Qed.

Lemma selectAt_live (i : Z) (m : Manager) :
  selection_live m -> selection_live (selectAt (map_keys (elements m)) i m).
Proof.
  intros H. unfold selectAt, at_index.
  destruct (i <? 0)%Z; [exact H|].
  destruct (nth_error _ _) as [k|] eqn:E; [|exact H].
  apply selectElement_live. eapply nth_error_In; eauto.
Qed.

Lemma In_keys (k : string) (e : DiagramElement) (els : ElementMap) :
  In (k, e) els -> In k (map_keys els).
Proof. intros H. unfold map_keys. change k with (fst (k, e)). now apply in_map. Qed.

Lemma navigateSpatial_live (d : Direction) (m : Manager) :
  selection_live m -> selection_live (navigateSpatial d m).
Proof.
  intros H. unfold navigateSpatial, selectFirst.
  destruct (selected m) as [sel|].
  - destruct (map_get sel (elements m)) as [cur|]; [|exact H].
    destruct (_ =? _)%nat; [exact H|].
    destruct (sort _) as [|c rest] eqn:Es; [exact H|].
    apply selectElement_live.
    assert (Hc : In c (collect sel cur d (elements m))).
    { apply sort_In. rewrite Es. now left. }
    rewrite collect_filter, in_map_iff in Hc.
    destruct Hc as [[k e] [<- Hin]]. apply filter_In in Hin. cbn.
    eapply In_keys. apply Hin.
  - destruct (_ <? _)%nat; [|exact H]. now apply selectAt_live.
Qed.

Lemma navigateNext_live (m : Manager) :
  selection_live m -> selection_live (navigateNext m).
Proof.
  intros H. unfold navigateNext. branches; auto using selectAt_live.
Qed.

Lemma live_more_keys (m : Manager) (els : ElementMap) :
  (forall k, In k (map_keys (elements m)) -> In k (map_keys els)) ->
  selection_live m -> selection_live (with_elements els m).
Proof. intros Hk H id Hid. apply Hk. apply H. exact Hid. Qed.

Lemma keys_set_incl (k k' : string) (e : DiagramElement) (els : ElementMap) :
  In k' (map_keys els) -> In k' (map_keys (map_set k e els)).
Proof.
  rewrite keys_set. destruct (map_has k els); [auto|].
  rewrite in_app_iff. auto.
Qed.

Lemma keys_set_new (k : string) (e : DiagramElement) (els : ElementMap) :
  In k (map_keys (map_set k e els)).
Proof.
  rewrite keys_set. unfold map_has. destruct (map_get k els) eqn:E.
  - apply get_In in E. eapply In_keys; eauto.
  - rewrite in_app_iff. right. now left.
Qed.

Lemma exec_live (cmd : Command) (m : Manager) :
  selection_live m -> selection_live (exec cmd m).
Proof.
  intros H. destruct cmd; cbn [exec]; try exact H.
  - now apply navigateNext_live.
  - unfold navigatePrevious. branches; auto using selectAt_live.
  - now apply navigateSpatial_live.
  - unfold moveSelected. branches; try exact H.
    apply live_more_keys; [|exact H]. intros k. now rewrite keys_mutate.
  - apply selectElement_live. apply keys_set_new.
  - apply selectElement_live. apply keys_set_new.
  - apply selectElement_live. apply keys_set_new.
  - unfold createConnected. branches; try exact H;
      apply selectElement_live; apply keys_set_new.
  - unfold focusOnSelected. branches; exact H.
  - destruct (selected m) as [sel|] eqn:Hsel.
    + destruct (deleteSelected_spec m sel Hsel) as [He Hs].
      intros id Hid. rewrite Hs in Hid. rewrite He.
      destruct (map_keys (remaining sel (elements m))); [discriminate|].
      injection Hid as <-. now left.
    + unfold deleteSelected. now rewrite Hsel.
  - unfold zoomToFit. branches; exact H.
  - apply live_more_keys; [|exact H]. intros k. apply keys_set_incl.
  - unfold removeElement. destruct (selectedId (state m)) as [s|] eqn:Es.
    + destruct (String.eqb_spec s id) as [->|Hne].
      * intros id' Hid. discriminate Hid.
      * intros id' Hid. cbn in Hid. rewrite Es in Hid. injection Hid as <-.
        cbn. rewrite keys_delete, filter_In. split; [now apply H|].
        destruct (String.eqb_spec s id); [contradiction | reflexivity].
    + intros id' Hid. cbn in Hid. congruence.
Qed.

(** X10.  In every state that the manager can reach, the keys of the store
    are distinct, every element is stored under its own id, and the
    selected id, when there is one, is a key of the store. *)
Theorem reachable_store_wellformed (c : VM.Canvas) (m : Manager) :
  reachable c m ->
  distinct_keys (elements m)
  /\ ids_match (elements m)
  /\ selection_live m.
Proof.
  induction 1 as [|cmd m _ (IH1 & IH2 & IH3)].
  - repeat split; [constructor | intros ? ? [] | intros ? [=]].
  - repeat split; [now apply exec_distinct | now apply exec_ids_match
                   | now apply exec_live].
Qed.

(** An instance. *)
Lemma reachable_store_wellformed_witness :
  reachable canvas800x600 oneClass
  /\ distinct_keys (elements oneClass)
  /\ ids_match (elements oneClass)
  /\ selection_live oneClass.
Proof.
  assert (H : reachable canvas800x600 oneClass)
    by (apply (reach_exec _ (CreateClass "a")); apply reach_new).
  split; [exact H | exact (reachable_store_wellformed canvas800x600 oneClass H)].
Defined.

End ControllerFacts.

(* ================================================================== *)
(** ** Sequential navigation *)
(* ================================================================== *)

Module SequenceFacts.


Import Nav Props Invariants NumFacts MapFacts SelectionSpec StoreSpec SpatialSpec.
Local Open Scope string_scope.
Local Open Scope list_scope.

Lemma indexOf_nth (arr : list string) (j : nat) (k : string) :
  NoDup arr -> nth_error arr j = Some k -> indexOf arr k = Z.of_nat j.
Proof.
  revert j. induction arr as [|a t IH]; intros j Hnd Hj; [destruct j; discriminate|].
  inversion Hnd as [|? ? Ha Ht]; subst. cbn [indexOf].
  destruct j as [|j]; cbn in Hj.
  - injection Hj as ->. now rewrite String.eqb_refl.
  - destruct (String.eqb_spec a k) as [->|_].
    + exfalso. apply Ha. eapply nth_error_In; eauto.
    + rewrite (IH j Ht Hj). destruct (Z.ltb_spec (Z.of_nat j) 0); lia.
Qed.

Lemma nth_indexOf (arr : list string) (k : string) :
  In k arr -> nth_error arr (Z.to_nat (indexOf arr k)) = Some k
              /\ (0 <= indexOf arr k)%Z.
Proof.
  induction arr as [|a t IH]; cbn [indexOf In]; [tauto|]. intros H.
  destruct (String.eqb_spec a k) as [->|Hne]; [split; [reflexivity | lia]|].
  destruct H as [H|H]; [contradiction|]. destruct (IH H) as [IH1 IH2].
  destruct (Z.ltb_spec (indexOf t k) 0); [lia|]. split; [|lia].
  replace (Z.to_nat (indexOf t k + 1)) with (S (Z.to_nat (indexOf t k))) by lia.
  exact IH1.
Qed.

Lemma selected_after_select (id : string) (m : Manager) :
  id <> EmptyString -> selected (selectElement id m) = Some id.
Proof.
  intros H. unfold selected. cbn.
  destruct (String.eqb_spec id EmptyString); [contradiction | reflexivity].
Qed.

(** The selection after a step forward and a step backward from the key
    at index [i]. *)
Lemma step_selects (forward : bool) (m : Manager) (sel : string) :
  distinct_keys (elements m) ->
  ~ In EmptyString (map_keys (elements m)) ->
  selected m = Some sel ->
  In sel (map_keys (elements m)) ->
  let keys := map_keys (elements m) in
  let len := Z.of_nat (List.length keys) in
  let i := indexOf keys sel in
  let j := if forward then Z.rem (i + 1) len else Z.rem (i - 1 + len) len in
  exists k,
    nth_error keys (Z.to_nat j) = Some k
    /\ (0 <= j < len)%Z
    /\ (if forward then navigateNext m else navigatePrevious m) = selectElement k m
    /\ k <> EmptyString.
Proof.
  intros Hnd Hne Hsel Hin keys len i j.
  assert (Hkeys : keys <> []) by (intro E; unfold keys in E; rewrite E in Hin; destruct Hin).
  assert (Hj : (0 <= j < len)%Z).
  { subst j. destruct forward;
      [apply navigateNext_index_ok | apply navigatePrevious_index_ok]; exact Hkeys. }
  destruct (at_index_in_range keys j Hj) as (k & Hk & Hkin).
  exists k. unfold at_index in Hk.
  destruct (Z.ltb_spec j 0); [lia|]. split; [exact Hk|]. split; [exact Hj|].
  split.
  - assert (Hlen : (List.length keys =? 0)%nat = false).
    { destruct keys; [congruence | reflexivity]. }
    destruct forward; [unfold navigateNext | unfold navigatePrevious];
      fold keys; rewrite Hlen, Hsel; fold i; fold len;
      unfold selectAt, at_index; fold j;
      (destruct (Z.ltb_spec j 0); [lia|]); now rewrite Hk.
  - intros ->. apply Hne. exact Hkin.
Qed.

(** X11.  In a store with distinct, non-empty keys and with a selected
    element that is in it, [navigatePrevious] undoes [navigateNext] and
    [navigateNext] undoes [navigatePrevious] on the selection, at both ends
    of the store as well; the store is untouched. *)
Theorem navigateNext_navigatePrevious (m : Manager) (sel : string) :
  distinct_keys (elements m) ->
  ~ In EmptyString (map_keys (elements m)) ->
  selected m = Some sel ->
  In sel (map_keys (elements m)) ->
  selectedId (state (navigatePrevious (navigateNext m))) = Some sel
  /\ selectedId (state (navigateNext (navigatePrevious m))) = Some sel
  /\ elements (navigatePrevious (navigateNext m)) = elements m.
Proof.
  intros Hnd Hne Hsel Hin.
  destruct (nth_indexOf _ _ Hin) as [Hnth Hi0].
  pose proof (indexOf_range (map_keys (elements m)) sel) as Hir.
  set (keys := map_keys (elements m)) in *.
  set (len := Z.of_nat (List.length keys)) in *.
  set (i := indexOf keys sel) in *.
  assert (Hback : forall (fw : bool) k j,
            nth_error keys (Z.to_nat j) = Some k -> (0 <= j < len)%Z ->
            k <> EmptyString ->
            (if fw then Z.rem (j - 1 + len) len else Z.rem (j + 1) len) = i ->
            selectedId (state ((if fw then navigatePrevious else navigateNext)
                                 (selectElement k m))) = Some sel).
  { intros fw k j Hk Hj Hk0 Hrem.
    assert (Hkin : In k keys) by (eapply nth_error_In; eauto).
    destruct (step_selects (negb fw) (selectElement k m) k Hnd Hne
                (selected_after_select k m Hk0) Hkin) as (k' & Hk' & _ & Hstep & _).
    change (map_keys (elements (selectElement k m))) with keys in Hk'.
    rewrite (indexOf_nth keys (Z.to_nat j) k Hnd Hk) in Hk'.
    rewrite Z2Nat.id in Hk' by lia. fold len in Hk'.
    destruct fw; cbn [negb] in Hk', Hstep; rewrite Hstep; cbn;
      rewrite Hrem in Hk'; congruence. }
  destruct (step_selects true m sel Hnd Hne Hsel Hin) as (k1 & Hk1 & Hj1 & Hs1 & Hn1).
  destruct (step_selects false m sel Hnd Hne Hsel Hin) as (k2 & Hk2 & Hj2 & Hs2 & Hn2).
  fold keys in Hk1, Hk2, Hj1, Hj2. fold len in Hk1, Hk2, Hj1, Hj2.
  fold i in Hk1, Hk2, Hj1, Hj2.
  assert (Hlen : (0 < len)%Z) by lia.
  split; [|split].
  - rewrite Hs1. apply (Hback true k1 _ Hk1 Hj1 Hn1).
    cbv beta iota. set (j1 := Z.rem (i + 1) len) in *.
    assert (E1 : j1 = ((i + 1) mod len)%Z) by (apply Z.rem_mod_nonneg; lia).
    rewrite Z.rem_mod_nonneg by lia.
    destruct (Z.eq_dec (i + 1) len) as [E|E].
    + assert (j1 = 0)%Z by (rewrite E1, E; apply Z.mod_same; lia).
      replace (j1 - 1 + len)%Z with (len - 1)%Z by lia.
      rewrite Z.mod_small by lia. lia.
    + assert (j1 = i + 1)%Z by (rewrite E1; apply Z.mod_small; lia).
      replace (j1 - 1 + len)%Z with (i + 1 * len)%Z by lia.
      rewrite Z.mod_add by lia. apply Z.mod_small. lia.
  - rewrite Hs2. apply (Hback false k2 _ Hk2 Hj2 Hn2).
    cbv beta iota. set (j2 := Z.rem (i - 1 + len) len) in *.
    assert (E2 : j2 = ((i - 1 + len) mod len)%Z) by (apply Z.rem_mod_nonneg; lia).
    rewrite Z.rem_mod_nonneg by lia.
    destruct (Z.eq_dec i 0) as [E|E].
    + assert (j2 = len - 1)%Z.
      { rewrite E2, E. replace (0 - 1 + len)%Z with (len - 1)%Z by lia.
        apply Z.mod_small. lia. }
      replace (j2 + 1)%Z with len by lia. rewrite Z.mod_same by lia. lia.
    + assert (j2 = i - 1)%Z.
      { rewrite E2. replace (i - 1 + len)%Z with (i - 1 + 1 * len)%Z by lia.
        rewrite Z.mod_add by lia. apply Z.mod_small. lia. }
      replace (j2 + 1)%Z with i by lia. apply Z.mod_small. lia.
  - rewrite Hs1. unfold navigatePrevious. branches; rewrite ?selectAt_elements; reflexivity.
Qed.

(** An instance. *)
Lemma navigateNext_navigatePrevious_witness :
  selected testLayout = Some "elem1"
  /\ selectedId (state (navigatePrevious (navigateNext testLayout))) = Some "elem1"
  /\ selectedId (state (navigateNext (navigatePrevious testLayout))) = Some "elem1".
Proof.
  assert (H1 : distinct_keys (elements testLayout)).
  { unfold distinct_keys. cbn. repeat constructor; cbn; intuition discriminate. }
  assert (H2 : ~ In EmptyString (map_keys (elements testLayout))).
  { cbn. intuition discriminate. }
  assert (H3 : selected testLayout = Some "elem1") by reflexivity.
  assert (H4 : In "elem1" (map_keys (elements testLayout))) by (cbn; auto).
  destruct (navigateNext_navigatePrevious testLayout "elem1" H1 H2 H3 H4)
    as (G1 & G2 & _).
  split; [exact H3 | split; [exact G1 | exact G2]].
Defined.

End SequenceFacts.

(* ================================================================== *)
(** ** The commands: what they change and what they leave *)
(* ================================================================== *)

Module CommandFacts.

Import Nav Props Invariants NumFacts MapFacts SelectionSpec StoreSpec SpatialSpec.
Import ControllerFacts SequenceFacts.
Local Open Scope string_scope.
Local Open Scope list_scope.

(** X12.  Only the camera commands (focus, home, zoom in, zoom out, zoom to
    fit, and the frames) touch the viewport manager: navigation, moving,
    creating, connecting, deleting and adding or removing elements leave
    the viewport and the scheduled animations as they are, so a change of
    selection moves no camera.  Navigation changes neither the store nor
    the mode. *)
Theorem selection_never_moves_camera (cmd : Command) (m : Manager) :
  ~ camera_command cmd ->
  viewport (exec cmd m) = viewport m
  /\ (navigation_command cmd ->
      elements (exec cmd m) = elements m
      /\ mode (state (exec cmd m)) = mode (state m)).
Proof.
  intros Hc. destruct cmd; cbn [camera_command navigation_command exec] in *;
    try (exfalso; apply Hc; exact I).
  - split; [|intros _; split]; unfold navigateNext; branches;
      unfold selectAt; branches; reflexivity.
  - split; [|intros _; split]; unfold navigatePrevious; branches;
      unfold selectAt; branches; reflexivity.
  - split; [|intros _; split]; unfold navigateSpatial, selectFirst; branches;
      unfold selectAt; branches; reflexivity.
  - split; [|tauto]. unfold moveSelected. branches; reflexivity.
  - split; [reflexivity | tauto].
  - split; [reflexivity | tauto].
  - split; [reflexivity | tauto].
  - split; [|tauto]. unfold createConnected. branches; reflexivity.
  - split; [|tauto]. unfold deleteSelected. branches; try reflexivity;
      unfold navigateNext; branches; unfold selectAt; branches; reflexivity.
  - split; [reflexivity | tauto].
  - split; [reflexivity | tauto].
  - split; [|tauto]. unfold removeElement. branches; reflexivity.
Qed.

(** An instance. *)
Lemma selection_never_moves_camera_witness :
  ~ camera_command (NavigateSpatial right)
  /\ viewport (exec (NavigateSpatial right) testLayout) = viewport testLayout.
Proof.
  assert (H : ~ camera_command (NavigateSpatial right)) by (intros []).
  split; [exact H |].
  exact (proj1 (selection_never_moves_camera (NavigateSpatial right) testLayout H)).
Defined.

Lemma last_cons (a d : string) (t : list string) :
  last (a :: t) d = last t a.
Proof.
  revert a d. induction t as [|b t IH]; intros a d; [reflexivity|].
  change (last (a :: b :: t) d) with (last (b :: t) d). rewrite !IH. reflexivity.
Qed.

Lemma at_index_last (k0 : string) (t : list string) :
  at_index (k0 :: t) (Z.of_nat (List.length (k0 :: t)) - 1) = Some (last t k0).
Proof.
  unfold at_index. destruct (Z.ltb_spec (Z.of_nat (List.length (k0 :: t)) - 1) 0);
    [cbn [List.length] in *; lia|].
  replace (Z.to_nat (Z.of_nat (List.length (k0 :: t)) - 1)) with (List.length t)
    by (cbn [List.length]; lia).
  clear. revert k0. induction t as [|a t IH]; intros k0; [reflexivity|].
  cbn [List.length nth_error]. rewrite IH. now rewrite last_cons.
Qed.

(** X13.  With no selection and a store that is not empty, [navigateNext]
    and every [navigateSpatial] select the first element of the store,
    whatever the geometry, and [navigatePrevious] selects the last one. *)
Theorem navigation_without_selection (m : Manager) (d : Direction)
    (k0 : string) (t : list string) :
  map_keys (elements m) = k0 :: t ->
  selected m = None ->
  navigateNext m = selectElement k0 m
  /\ navigatePrevious m = selectElement (last t k0) m
  /\ navigateSpatial d m = selectElement k0 m.
Proof.
  intros Ek Hs. unfold navigateNext, navigatePrevious, navigateSpatial, selectFirst.
  rewrite Ek, Hs. cbn [List.length Nat.eqb Nat.ltb Nat.leb].
  unfold selectAt. rewrite at_index_last. repeat split.
Qed.

(** An instance. *)
Lemma navigation_without_selection_witness :
  selected unselected = None
  /\ navigateNext unselected = selectElement "a" unselected
  /\ navigatePrevious unselected = selectElement "c" unselected
  /\ navigateSpatial left unselected = selectElement "a" unselected.
Proof.
  assert (H1 : map_keys (elements unselected) = "a" :: ["b"; "c"]) by reflexivity.
  assert (H2 : selected unselected = None) by reflexivity.
  split; [exact H2 |].
  exact (navigation_without_selection unselected left "a" ["b"; "c"] H1 H2).
Defined.

(** X14.  On an empty store the navigation commands, [moveSelected],
    [focusOnSelected] and [zoomToFit] change nothing. *)
Theorem navigation_on_empty_store (m : Manager) (d : Direction)
    (dx dy now : num) :
  elements m = [] ->
  navigateNext m = m /\ navigatePrevious m = m /\ navigateSpatial d m = m
  /\ moveSelected dx dy m = m /\ focusOnSelected now m = m
  /\ zoomToFit now m = m.
Proof.
  intros He.
  unfold navigateNext, navigatePrevious, navigateSpatial, selectFirst,
    moveSelected, focusOnSelected, zoomToFit.
  rewrite He. cbn. destruct (selected m); repeat split.
Qed.

(** An instance. *)
Lemma navigation_on_empty_store_witness :
  elements fresh = []
  /\ navigateNext fresh = fresh /\ navigatePrevious fresh = fresh
  /\ navigateSpatial up fresh = fresh.
Proof.
  assert (H : elements fresh = []) by reflexivity.
  destruct (navigation_on_empty_store fresh up (n 1) (n 1) (n 0) H)
    as (G1 & G2 & G3 & _).
  split; [exact H | split; [exact G1 | split; [exact G2 | exact G3]]].
Defined.

(** *** The history *)

Lemma last_entry_filter (p : string -> bool) (h : list string) (s : string) :
  last_entry h = Some s -> p s = true -> last_entry (filter p h) = Some s.
Proof.
  unfold last_entry. intros H Hp.
  destruct (rev h) as [|a r] eqn:E; [discriminate|]. injection H as ->.
  assert (Eh : h = rev r ++ [s]).
  { rewrite <- (rev_involutive h), E. reflexivity. }
  rewrite Eh, filter_app. cbn. rewrite Hp, rev_app_distr. reflexivity.
Qed.

Lemma last_entry_In (h : list string) (s : string) :
  last_entry h = Some s -> In s h.
Proof.
  unfold last_entry. intros H. apply in_rev.
  destruct (rev h); [discriminate|]. injection H as ->. now left.
Qed.

Lemma last_entry_tl (h : list string) (s : string) :
  last_entry h = Some s -> (2 <= List.length h)%nat -> last_entry (tl h) = Some s.
Proof.
  destruct h as [|a [|b t]]; cbn [List.length tl]; try lia.
  unfold last_entry. cbn [rev]. intros H _.
  destruct (rev t ++ [b]) eqn:E.
  - destruct (rev t); discriminate.
  - cbn in *. exact H.
Qed.

(** X15.  Deleting the selected element does not purge the focus history: in
    every reachable state, after [deleteSelected] the deleted id is still
    in the history although it is no longer a key of the store. *)
Theorem history_keeps_deleted (c : VM.Canvas) (m : Manager) (sel : string) :
  reachable c m ->
  selected m = Some sel ->
  In sel (focusHistory (state (deleteSelected m)))
  /\ ~ In sel (map_keys (elements (deleteSelected m))).
Proof.
  intros Hr Hsel.
  destruct (reachable_history_ok c m Hr) as (Hnd & Hlen & Hlast).
  specialize (Hlast sel (selected_selectedId m sel Hsel)).
  destruct (deleteSelected_spec m sel Hsel) as [He Hs]. split.
  - unfold deleteSelected. rewrite Hsel. fold (remaining sel (elements m)).
    set (m1 := with_elements (remaining sel (elements m)) m).
    assert (Hh : In sel (focusHistory (state (navigateNext m1)))).
    { unfold navigateNext. change (elements m1) with (remaining sel (elements m)).
      destruct (_ =? _)%nat; [now apply last_entry_In|].
      assert (Hgen : forall i, In sel (focusHistory
                 (state (selectAt (map_keys (remaining sel (elements m))) i m1)))).
      { intros i. unfold selectAt, at_index. destruct (i <? 0)%Z;
          [now apply last_entry_In|].
        destruct (nth_error _ _) as [k|] eqn:Ek; [|now apply last_entry_In].
        assert (Hk : k <> sel).
        { intros ->. apply nth_error_In in Ek.
          unfold remaining in Ek. exact (delete_not_In _ _ Ek). }
        rewrite selectElement_history. unfold pushed. apply in_or_app. left.
        set (l := filter _ _).
        assert (Hl : last_entry l = Some sel).
        { apply last_entry_filter; [exact Hlast|].
          destruct (String.eqb_spec sel k); [congruence | reflexivity]. }
        destruct (Nat.leb_spec historyLimit (List.length l)).
        - apply last_entry_In, last_entry_tl; [exact Hl|]. unfold historyLimit in *. lia.
        - now apply last_entry_In. }
      destruct (selected m1); apply Hgen. }
    destruct (selectedId (state (navigateNext m1))); [|exact Hh].
    destruct (_ =? _); exact Hh.
  - rewrite He. unfold remaining. apply delete_not_In.
Qed.

(** An instance. *)
Lemma history_keeps_deleted_witness :
  reachable canvas800x600 pairAB
  /\ selected pairAB = Some "A"
  /\ In "A" (focusHistory (state (deleteSelected pairAB)))
  /\ ~ In "A" (map_keys (elements (deleteSelected pairAB))).
Proof.
  assert (H1 : reachable canvas800x600 pairAB).
  { unfold pairAB, execs. cbn [fold_left]. repeat apply reach_exec. apply reach_new. }
  assert (H2 : selected pairAB = Some "A") by reflexivity.
  split; [exact H1 | split; [exact H2 |]].
  exact (history_keeps_deleted canvas800x600 pairAB "A" H1 H2).
Defined.

Lemma selectElement_eq (id : string) (m : Manager) :
  selectElement id m
  = mkManager (mkState (Some id) (mode (state m))
                       (pushed id (focusHistory (state m))))
              (elements m) (viewport m).
Proof.
  rewrite <- selectElement_history. reflexivity.
Qed.

Lemma pushed_idem (id : string) (h : list string) :
  (List.length h <= historyLimit)%nat -> pushed id (pushed id h) = pushed id h.
Proof.
  unfold historyLimit. intros Hlen. unfold pushed at 2 3.
  set (l := filter (fun i => negb (i =? id)) h).
  assert (Hl : (List.length l <= 10)%nat).
  { pose proof (filter_length_le (fun i : string => negb (i =? id)) h).
    unfold l. lia. }
  assert (Hid : ~ In id l).
  { unfold l. rewrite filter_In. intros [_ H]. now rewrite String.eqb_refl in H. }
  set (l' := if (historyLimit <=? List.length l)%nat then tl l else l).
  assert (Hl' : (List.length l' <= 9)%nat /\ ~ In id l').
  { unfold l', historyLimit. destruct (Nat.leb_spec 10 (List.length l)).
    - split; [destruct l; cbn in *; lia|]. intros H1. apply Hid. now apply In_tl.
    - split; [lia | exact Hid]. }
  destruct Hl' as [Hl9 Hid'].
  unfold pushed. rewrite filter_app. cbn [filter]. rewrite String.eqb_refl.
  cbn [negb]. rewrite app_nil_r, (filter_absent id l' Hid'). unfold historyLimit.
  destruct (Nat.leb_spec 10 (List.length l')); [lia | reflexivity].
Qed.

(** X16.  In every reachable state, selecting an id twice in a row is the
    same as selecting it once: selected id, mode, history, store and
    viewport. *)
Theorem selectElement_idempotent (c : VM.Canvas) (m : Manager) (id : string) :
  reachable c m ->
  selectElement id (selectElement id m) = selectElement id m.
Proof.
  intros Hr. destruct (reachable_history_ok c m Hr) as (_ & Hlen & _).
  rewrite (selectElement_eq id (selectElement id m)), (selectElement_eq id m).
  cbn [state mode focusHistory elements viewport].
  now rewrite pushed_idem.
Qed.

(** An instance. *)
Lemma selectElement_idempotent_witness :
  reachable canvas800x600 oneClass
  /\ selectElement "a" (selectElement "a" oneClass) = selectElement "a" oneClass.
Proof.
  assert (H : reachable canvas800x600 oneClass)
    by (apply (reach_exec _ (CreateClass "a")); apply reach_new).
  split; [exact H | exact (selectElement_idempotent canvas800x600 oneClass "a" H)].
Defined.

(** *** Moving *)

(** X17.  In exact arithmetic, two moves of the selected element add up: moving by (a, b) and then
    by (a', b') leaves the element where one move by (a + a', b + b')
    puts it, and moving back by (-a, -b) puts it back; nothing but [x] and
    [y] differs. *)
Theorem moveSelected_additive (m : Manager) (sel : string) (e : DiagramElement)
    (a b a' b' : Q) :
  selected m = Some sel ->
  map_get sel (elements m) = Some e ->
  finite_element e = true ->
  map_get sel (elements (moveSelected (Fin a') (Fin b')
                                      (moveSelected (Fin a) (Fin b) m)))
  = Some (moved a' b' (moved a b e))
  /\ map_get sel (elements (moveSelected (Fin (a + a')) (Fin (b + b')) m))
     = Some (moved (a + a') (b + b') e)
  /\ el_eqv (moved a' b' (moved a b e)) (moved (a + a') (b + b') e)
  /\ el_eqv (moved (- a) (- b) (moved a b e)) e.
Proof.
  intros Hsel Hget Hfin.
  destruct (finite_element_inv e Hfin) as (Hx & Hy & _ & _).
  assert (Hm : forall dx dy m0 e0, selected m0 = Some sel ->
            map_get sel (elements m0) = Some e0 -> finite_element e0 = true ->
            map_get sel (elements (moveSelected (Fin dx) (Fin dy) m0))
            = Some (moved dx dy e0)).
  { intros dx dy m0 e0 Hs Hg Hf. unfold moveSelected. rewrite Hs, Hg.
    cbn [elements with_elements]. rewrite get_mutate, String.eqb_refl, Hg.
    destruct (finite_element_inv e0 Hf) as (Hx0 & Hy0 & _ & _).
    cbn [option_map]. unfold moved. rewrite Hx0, Hy0. reflexivity. }
  assert (Hs1 : selected (moveSelected (Fin a) (Fin b) m) = Some sel).
  { unfold moveSelected. rewrite Hsel, Hget. exact Hsel. }
  assert (Hf1 : finite_element (moved a b e) = true).
  { unfold finite_element in *. cbn. apply andb_true_iff in Hfin.
    destruct Hfin as [Hfin Hh]. apply andb_true_iff in Hfin.
    destruct Hfin as [_ Hw]. now rewrite Hw, Hh. }
  split; [|split; [|split]].
  - apply Hm; [exact Hs1 | now apply Hm | exact Hf1].
  - now apply Hm.
  - unfold el_eqv, moved, qx, qy. cbn. repeat split; ring.
  - unfold el_eqv, moved. cbn. rewrite Hx, Hy. cbn.
    unfold qx, qy. rewrite Hx, Hy. cbn. repeat split; ring.
Qed.

(** An instance. *)
Lemma moveSelected_additive_witness :
  selected testLayout = Some "elem1"
  /\ map_get "elem1" (elements (moveSelected (Fin 0) (Fin 10)
                                  (moveSelected (Fin (-10)) (Fin 0) testLayout)))
     = Some (moved 0 10 (moved (-10) 0 (rect "elem1" 100 100 120 80 []))).
Proof.
  assert (H1 : selected testLayout = Some "elem1") by reflexivity.
  assert (H2 : map_get "elem1" (elements testLayout)
               = Some (rect "elem1" 100 100 120 80 [])) by reflexivity.
  assert (H3 : finite_element (rect "elem1" 100 100 120 80 []) = true) by reflexivity.
  split; [exact H1 |].
  exact (proj1 (moveSelected_additive testLayout "elem1" _ (-10) 0 0 10 H1 H2 H3)).
Defined.

(** *** Deleting and removing *)

(** X18.  [deleteSelected] visits only the elements that the deleted one
    lists: an element that it does not list is left exactly as it was,
    even if that element lists the deleted id. *)
Theorem deleteSelected_only_listed (m : Manager) (sel : string)
    (element : DiagramElement) (k : string) :
  selected m = Some sel ->
  map_get sel (elements m) = Some element ->
  k <> sel ->
  ~ In k (connections element) ->
  map_get k (elements (deleteSelected m)) = map_get k (elements m).
Proof.
  intros Hsel Hget Hk Hnl.
  destruct (deleteSelected_spec m sel Hsel) as [-> _].
  unfold remaining. rewrite Hget, get_delete.
  destruct (String.eqb_spec k sel); [contradiction|].
  rewrite get_disconnect.
  destruct (existsb (String.eqb k) (connections element)) eqn:E.
  - apply existsb_eqb_In in E. contradiction.
  - now destruct (map_get k (elements m)).
Qed.

(** An instance. *)
Lemma deleteSelected_only_listed_witness :
  selected lopsided = Some "A"
  /\ ~ In "C" (connections (rect "A" 100 100 100 80 ["B"]))
  /\ map_get "C" (elements (deleteSelected lopsided))
     = Some (rect "C" 500 100 100 80 ["A"]).
Proof.
  assert (H1 : selected lopsided = Some "A") by reflexivity.
  assert (H2 : map_get "A" (elements lopsided)
               = Some (rect "A" 100 100 100 80 ["B"])) by reflexivity.
  assert (H3 : "C" <> "A") by discriminate.
  assert (H4 : ~ In "C" (connections (rect "A" 100 100 100 80 ["B"])))
    by (cbn; intuition discriminate).
  split; [exact H1 | split; [exact H4 |]].
  exact (deleteSelected_only_listed lopsided "A" _ "C" H1 H2 H3 H4).
Defined.

(** X19.  [removeElement] takes the entry of the id out of the store and
    nothing more: the other entries keep their order and their elements,
    connections to the removed id included; the selection is cleared
    exactly when it was the removed id; the history and the viewport are
    untouched. *)
Theorem removeElement_spec (m : Manager) (id : string) :
  map_get id (elements (removeElement id m)) = None
  /\ (forall k, k <> id ->
        map_get k (elements (removeElement id m)) = map_get k (elements m))
  /\ map_keys (elements (removeElement id m))
     = filter (fun k => negb (k =? id)) (map_keys (elements m))
  /\ selectedId (state (removeElement id m))
     = (if match selectedId (state m) with Some s => s =? id | None => false end
        then None else selectedId (state m))
  /\ focusHistory (state (removeElement id m)) = focusHistory (state m)
  /\ viewport (removeElement id m) = viewport m.
Proof.
  assert (He : elements (removeElement id m) = map_delete id (elements m)).
  { unfold removeElement. branches; reflexivity. }
  rewrite He. split; [|split; [|split; [|split; [|split]]]].
  - rewrite get_delete. now rewrite String.eqb_refl.
  - intros k Hk. rewrite get_delete.
    destruct (String.eqb_spec k id); [contradiction | reflexivity].
  - apply keys_delete.
  - unfold removeElement. destruct (selectedId (state m)) as [s|] eqn:Es;
      [destruct (s =? id)|]; cbn; congruence.
  - unfold removeElement. branches; reflexivity.
  - unfold removeElement. branches; reflexivity.
Qed.

End CommandFacts.

(* ================================================================== *)
(** ** Creating, connecting and deleting *)
(* ================================================================== *)

Module CreationFacts.

Import Nav Props Invariants NumFacts MapFacts SelectionSpec StoreSpec SpatialSpec.
Import ControllerFacts SequenceFacts CommandFacts.
Local Open Scope string_scope.
Local Open Scope list_scope.

(** [createConnected] on a store that holds its elements by value. *)
Lemma createConnected_by_value (m : Manager) (sel id : string)
    (parent : DiagramElement) :
  selected m = Some sel ->
  map_get sel (elements m) = Some parent ->
  el_id parent = sel ->
  map_get id (elements m) = None ->
  symmetric (elements m) ->
  map_get id (elements (createConnected id m))
  = Some (mkElement id (el_x parent + n 200)%num (el_y parent) (n 120) (n 80)
                    class [sel])
  /\ map_get sel (elements (createConnected id m))
     = Some (push_connection id parent)
  /\ (forall k, k <> id -> k <> sel ->
        map_get k (elements (createConnected id m)) = map_get k (elements m))
  /\ symmetric (elements (createConnected id m))
  /\ selectedId (state (createConnected id m)) = Some id.
Proof.
  intros Hsel Hpar Hid Hfresh Hsym.
  assert (Hne : id <> sel) by congruence.
  unfold createConnected. rewrite Hsel, Hpar, Hid.
  cbn [elements selectElement with_state with_elements state selectedId].
  set (child := mkElement id _ _ _ _ _ _).
  assert (Gid : map_get id (map_set id child (map_mutate sel (push_connection id) (elements m)))
                = Some child).
  { now rewrite get_set, String.eqb_refl. }
  assert (Gsel : map_get sel (map_set id child (map_mutate sel (push_connection id) (elements m)))
                 = Some (push_connection id parent)).
  { rewrite get_set. destruct (String.eqb_spec sel id); [congruence|].
    now rewrite get_mutate, String.eqb_refl, Hpar. }
  assert (Goth : forall k, k <> id -> k <> sel ->
            map_get k (map_set id child (map_mutate sel (push_connection id) (elements m)))
            = map_get k (elements m)).
  { intros k H1 H2. rewrite get_set. destruct (String.eqb_spec k id); [congruence|].
    rewrite get_mutate. destruct (String.eqb_spec k sel); [congruence | reflexivity]. }
  split; [exact Gid|]. split; [exact Gsel|]. split; [exact Goth|].
  split; [|reflexivity].
  assert (Hold : forall a ea b, map_get a (elements m) = Some ea ->
            In b (connections ea) ->
            exists eb, map_get b (map_set id child
                          (map_mutate sel (push_connection id) (elements m))) = Some eb
                       /\ In a (connections eb)).
  { intros a ea b Ha Hb. destruct (Hsym a ea Ha b Hb) as (eb & Heb & Hab).
    assert (b <> id) by congruence.
    destruct (String.eqb_spec b sel) as [->|Hbs].
    - exists (push_connection id parent). split; [exact Gsel|].
      cbn. apply in_or_app. left. congruence.
    - exists eb. split; [rewrite Goth; assumption | exact Hab]. }
  intros a ea Ha b Hb.
  destruct (String.eqb_spec a id) as [->|Ha1].
  - rewrite Gid in Ha. injection Ha as <-. cbn in Hb. destruct Hb as [<-|[]].
    exists (push_connection id parent). split; [exact Gsel|].
    cbn. apply in_or_app. right. now left.
  - destruct (String.eqb_spec a sel) as [->|Ha2].
    + rewrite Gsel in Ha. injection Ha as <-. cbn in Hb.
      apply in_app_or in Hb. destruct Hb as [Hb|[<-|[]]].
      * exact (Hold sel parent b Hpar Hb).
      * exists child. split; [exact Gid | now left].
    + rewrite Goth in Ha by assumption. exact (Hold a ea b Ha Hb).
Qed.

Lemma built_reachable (c : VM.Canvas) (m : Manager) :
  built c m -> reachable c m.
Proof.
  induction 1 as [|cmd m _ IH _]; [apply reach_new | now apply reach_exec].
Qed.

Lemma reachable_ids_match (c : VM.Canvas) (m : Manager) :
  reachable c m -> ids_match (elements m).
Proof.
  induction 1 as [|cmd m _ IH]; [intros ? ? [] | now apply exec_ids_match].
Qed.

Lemma built_own_id (c : VM.Canvas) (m : Manager) (sel : string)
    (parent : DiagramElement) :
  built c m -> map_get sel (elements m) = Some parent -> el_id parent = sel.
Proof.
  intros Hb Hg. apply (reachable_ids_match c m (built_reachable c m Hb)).
  now apply get_In.
Qed.

(** X20.  In a state that the manager has built by itself (no
    [addElement], so that no two elements share an array of connections),
    with a selected element, symmetric connections and an id that is not
    yet a key, [createConnected] adds a 120 by 80 class element 200 to
    the right of the selected one, lists each of the two in the
    connections of the other, leaves every other element untouched, keeps
    the connections symmetric and selects the new element. *)
Theorem createConnected_links (c : VM.Canvas) (m : Manager) (sel id : string)
    (parent : DiagramElement) :
  built c m ->
  selected m = Some sel ->
  map_get sel (elements m) = Some parent ->
  map_get id (elements m) = None ->
  symmetric (elements m) ->
  map_get id (elements (createConnected id m))
  = Some (mkElement id (el_x parent + n 200)%num (el_y parent) (n 120) (n 80)
                    class [sel])
  /\ map_get sel (elements (createConnected id m))
     = Some (push_connection id parent)
  /\ (forall k, k <> id -> k <> sel ->
        map_get k (elements (createConnected id m)) = map_get k (elements m))
  /\ symmetric (elements (createConnected id m))
  /\ selectedId (state (createConnected id m)) = Some id.
Proof.
  intros Hb Hsel Hpar Hfresh Hsym.
  exact (createConnected_by_value m sel id parent Hsel Hpar
           (built_own_id c m sel parent Hb Hpar) Hfresh Hsym).
Qed.

(** An instance. *)
Lemma createConnected_links_witness :
  built canvas800x600 chainAB
  /\ selected chainAB = Some "B"
  /\ map_get "C" (elements chainAB) = None
  /\ symmetric (elements (createConnected "C" chainAB)).
Proof.
  assert (H0 : built canvas800x600 chainAB).
  { unfold chainAB, execs. cbn [fold_left].
    repeat (apply built_exec; [|exact I]). apply built_new. }
  assert (H1 : selected chainAB = Some "B") by reflexivity.
  assert (H3 : map_get "C" (elements chainAB) = None) by reflexivity.
  assert (H4 : symmetric (elements chainAB))
    by (apply symmetricb_sound; reflexivity).
  destruct (createConnected_links canvas800x600 chainAB "B" "C" _
              H0 H1 eq_refl H3 H4) as (_ & _ & _ & G & _).
  split; [exact H0 | split; [exact H1 | split; [exact H3 | exact G]]].
Defined.

Lemma delete_app_fresh (id : string) (e : DiagramElement) (els : ElementMap) :
  map_get id els = None -> map_delete id (els ++ [(id, e)]) = els.
Proof.
  intros H. unfold map_delete. rewrite filter_app. cbn. rewrite String.eqb_refl.
  cbn. rewrite app_nil_r. apply get_None_keys in H.
  induction els as [|[k e0] t IH]; cbn; [reflexivity|].
  destruct (String.eqb_spec k id) as [->|_]; cbn.
  - exfalso. apply H. now left.
  - f_equal. apply IH. intros Hin. apply H. now right.
Qed.

Lemma set_fresh (id : string) (e : DiagramElement) (els : ElementMap) :
  map_get id els = None -> map_set id e els = els ++ [(id, e)].
Proof. intros H. unfold map_set, map_has. now rewrite H. Qed.

Lemma get_app_fresh (id : string) (e : DiagramElement) (els : ElementMap) :
  map_get id els = None -> map_get id (els ++ [(id, e)]) = Some e.
Proof. intros H. rewrite <- (set_fresh id e els H), get_set. now rewrite String.eqb_refl. Qed.




Lemma mutate_mutate (k : string) (f g : DiagramElement -> DiagramElement)
    (els : ElementMap) :
  map_mutate k g (map_mutate k f els) = map_mutate k (fun e => g (f e)) els.
Proof.
  induction els as [|[k0 e0] t IH]; cbn; [reflexivity|].
  destruct (String.eqb_spec k0 k) as [->|Hne]; cbn.
  - now rewrite String.eqb_refl.
  - destruct (String.eqb_spec k0 k); [contradiction|]. now rewrite IH.
Qed.

Lemma mutate_id (k : string) (f : DiagramElement -> DiagramElement)
    (e : DiagramElement) (els : ElementMap) :
  map_get k els = Some e -> f e = e -> map_mutate k f els = els.
Proof.
  induction els as [|[k0 e0] t IH]; cbn; [reflexivity|].
  destruct (k0 =? k).
  - intros [= ->] ->. reflexivity.
  - intros H1 H2. now rewrite IH.
Qed.

Lemma mutate_app (k : string) (f : DiagramElement -> DiagramElement)
    (e : DiagramElement) (els tl : ElementMap) :
  map_get k els = Some e ->
  map_mutate k f (els ++ tl) = map_mutate k f els ++ tl.
Proof.
  induction els as [|[k0 e0] t IH]; cbn; [discriminate|].
  destruct (k0 =? k); [reflexivity|]. intros H. now rewrite IH.
Qed.

(** [createConnected] then [deleteSelected] on a store that holds its
    elements by value. *)
Lemma createConnected_then_delete_by_value (m : Manager) (sel id : string)
    (parent : DiagramElement) :
  selected m = Some sel ->
  map_get sel (elements m) = Some parent ->
  el_id parent = sel ->
  id <> EmptyString ->
  map_get id (elements m) = None ->
  ~ In id (connections parent) ->
  elements (deleteSelected (createConnected id m)) = elements m
  /\ selectedId (state (deleteSelected (createConnected id m)))
     = hd_error (map_keys (elements m)).
Proof.
  intros Hsel Hpar Hpid Hid Hfresh Hnl.
  assert (Hne : sel <> id) by congruence.
  unfold createConnected. rewrite Hsel, Hpar, Hpid.
  set (child := mkElement id _ _ _ _ _ _).
  set (els1 := map_mutate sel (push_connection id) (elements m)).
  set (m1 := selectElement id (with_elements (map_set id child els1) m)).
  assert (Hf1 : map_get id els1 = None).
  { unfold els1. rewrite get_mutate.
    destruct (String.eqb_spec id sel); [congruence | exact Hfresh]. }
  assert (Hs : selected m1 = Some id) by (apply selected_after_select; exact Hid).
  destruct (deleteSelected_spec m1 id Hs) as [He Hsl].
  assert (Hr : remaining id (elements m1) = elements m).
  { unfold remaining. change (elements m1) with (map_set id child els1).
    rewrite (set_fresh id child _ Hf1), (get_app_fresh id child _ Hf1).
    cbn [connections child]. unfold disconnect. cbn [fold_left].
    assert (Hg : map_get sel els1 = Some (push_connection id parent)).
    { unfold els1. now rewrite get_mutate, String.eqb_refl, Hpar. }
    assert (Hg' : map_get sel (els1 ++ [(id, child)]) = Some (push_connection id parent)).
    { rewrite <- (set_fresh id child _ Hf1), get_set.
      destruct (String.eqb_spec sel id); [congruence | exact Hg]. }
    rewrite Hg', (mutate_app _ _ _ _ _ Hg). unfold els1. rewrite mutate_mutate.
    rewrite (mutate_id sel _ parent _ Hpar).
    - now apply delete_app_fresh.
    - unfold drop_connection, push_connection. cbn.
      rewrite filter_app. cbn. rewrite String.eqb_refl. cbn.
      rewrite app_nil_r, (filter_absent id _ Hnl). now destruct parent. }
  rewrite He, Hsl, Hr. split; reflexivity.
Qed.

(** X22.  In a state that the manager has built by itself (no
    [addElement], so that no two elements share an array of connections),
    [createConnected] followed by [deleteSelected] gives back the store as
    it was, the connections of the parent included, when the new id is not
    empty, is not a key and is not listed by the parent. *)
Theorem createConnected_then_delete (c : VM.Canvas) (m : Manager)
    (sel id : string) (parent : DiagramElement) :
  built c m ->
  selected m = Some sel ->
  map_get sel (elements m) = Some parent ->
  id <> EmptyString ->
  map_get id (elements m) = None ->
  ~ In id (connections parent) ->
  elements (deleteSelected (createConnected id m)) = elements m
  /\ selectedId (state (deleteSelected (createConnected id m)))
     = hd_error (map_keys (elements m)).
Proof.
  intros Hb Hsel Hpar Hid Hfresh Hnl.
  exact (createConnected_then_delete_by_value m sel id parent Hsel Hpar
           (built_own_id c m sel parent Hb Hpar) Hid Hfresh Hnl).
Qed.

(** An instance. *)
Lemma createConnected_then_delete_witness :
  built canvas800x600 chainAB
  /\ selected chainAB = Some "B"
  /\ elements (deleteSelected (createConnected "C" chainAB)) = elements chainAB.
Proof.
  assert (H0 : built canvas800x600 chainAB).
  { unfold chainAB, execs. cbn [fold_left].
    repeat (apply built_exec; [|exact I]). apply built_new. }
  assert (H1 : selected chainAB = Some "B") by reflexivity.
  assert (H3 : "C" <> EmptyString) by discriminate.
  assert (H4 : map_get "C" (elements chainAB) = None) by reflexivity.
  refine (conj H0 (conj H1 (proj1 (createConnected_then_delete canvas800x600
            chainAB "B" "C" _ H0 H1 eq_refl H3 H4 _)))).
  cbn. intuition discriminate.
Defined.

End CreationFacts.

(* ================================================================== *)
(** ** The camera commands of the controller *)
(* ================================================================== *)

Module CameraCommandFacts.

Import Nav Props Invariants NumFacts MapFacts SelectionSpec StoreSpec SpatialSpec.
Import CameraFacts.
Local Open Scope string_scope.
Local Open Scope list_scope.
Local Open Scope Q_scope.

(** X23.  [zoomOut] does not undo [zoomIn]: from a zoom [z] above 0.1 (and at
    most 5) the two leave a zoom strictly below [z], still at least 0.1;
    it is 0.96 z when no clamp is hit. *)
Theorem zoomIn_zoomOut_loses_zoom (m : Manager) (x y z : Q) :
  VM.viewport (viewport m) = qviewport x y z ->
  VM.zMin < z <= VM.zMax ->
  exists z',
    VM.vp_zoom (VM.viewport (viewport (zoomOut (zoomIn m)))) = Fin z'
    /\ VM.zMin <= z' < z
    /\ (5 # 48 <= z <= 25 # 6 -> z' == (24 # 25) * z).
Proof.
  intros Hv Hz. unfold zoomOut, zoomIn, with_vm.
  cbn [viewport]. unfold VM.zoomAt at 1. 
  cbn [VM.viewport VM.with_viewport VM.vp_zoom].
  unfold VM.zoomAt. cbn [VM.viewport VM.with_viewport VM.vp_zoom].
  rewrite Hv. cbn [VM.vp_zoom qviewport].
  unfold VM.zMin, VM.zMax in *. rewrite mul_fin.
  unfold Num.min at 2. rewrite ltb_fin.
  destruct (Qltb_spec (z * (12 # 10)) 5) as [L1|L1].
  - unfold Num.max at 2. rewrite ltb_fin.
    destruct (Qltb_spec (1 # 10) (z * (12 # 10))) as [L2|L2]; [|lra].
    rewrite mul_fin. unfold Num.min. rewrite ltb_fin.
    destruct (Qltb_spec (z * (12 # 10) * (8 # 10)) 5) as [L3|L3]; [|lra].
    unfold Num.max. rewrite ltb_fin.
    destruct (Qltb_spec (1 # 10) (z * (12 # 10) * (8 # 10))) as [L4|L4];
      eexists; (split; [reflexivity|]); split; try lra; intros; lra.
  - unfold Num.max at 2. rewrite ltb_fin.
    destruct (Qltb_spec (1 # 10) 5) as [_|L2]; [|lra].
    rewrite mul_fin. unfold Num.min. rewrite ltb_fin.
    destruct (Qltb_spec (5 * (8 # 10)) 5) as [_|L3]; [|lra].
    unfold Num.max. rewrite ltb_fin.
    destruct (Qltb_spec (1 # 10) (5 * (8 # 10))) as [_|L4]; [|lra].
    eexists; (split; [reflexivity|]); split; try lra; intros; lra.
Qed.

(** An instance. *)
Lemma zoomIn_zoomOut_loses_zoom_witness :
  VM.zMin < 1 <= VM.zMax
  /\ exists z',
       VM.vp_zoom (VM.viewport (viewport (zoomOut (zoomIn fresh)))) = Fin z'
       /\ VM.zMin <= z' < 1.
Proof.
  assert (H1 : VM.viewport (viewport fresh) = qviewport 0 0 1) by reflexivity.
  assert (H2 : VM.zMin < 1 <= VM.zMax)
    by (unfold VM.zMin, VM.zMax, Qle, Qlt; simpl; lia).
  split; [exact H2 |].
  destruct (zoomIn_zoomOut_loses_zoom fresh 0 0 1 H1 H2) as (z' & E & G & _).
  exists z'. split; [exact E | exact G].
Defined.

(** The running minimum and maximum of [zoomToFit]. *)
Lemma fold_min_fin (g : DiagramElement -> num) (gq : DiagramElement -> Q)
    (vs : list DiagramElement) (a : Q) :
  (forall e, In e vs -> g e = Fin (gq e)) ->
  exists r,
    fold_left (fun acc e => Num.min acc (g e)) vs (Fin a) = Fin r
    /\ r <= a /\ (forall e, In e vs -> r <= gq e)
    /\ (r == a \/ exists e, In e vs /\ r == gq e).
Proof.
  revert a. induction vs as [|v vs IH]; intros a Hg; cbn [fold_left].
  - exists a. split; [reflexivity|]. split; [lra|]. split; [intros e []|left; reflexivity].
  - rewrite (Hg v (or_introl eq_refl)). unfold Num.min at 2. rewrite ltb_fin.
    destruct (Qltb_spec (gq v) a) as [L|L].
    + destruct (IH (gq v) (fun e H => Hg e (or_intror H))) as (r & -> & H1 & H2 & H3).
      exists r. split; [reflexivity|]. split; [lra|]. split.
      * intros e [<-|He]; [lra | auto].
      * right. destruct H3 as [H3|(e & He & H3)];
          [exists v; split; [now left | exact H3] | exists e; split; [now right | exact H3]].
    + destruct (IH a (fun e H => Hg e (or_intror H))) as (r & -> & H1 & H2 & H3).
      exists r. split; [reflexivity|]. split; [lra|]. split.
      * intros e [<-|He]; [lra | auto].
      * destruct H3 as [H3|(e & He & H3)]; [left; exact H3|].
        right. exists e. split; [now right | exact H3].
Qed.

Lemma fold_max_fin (g : DiagramElement -> num) (gq : DiagramElement -> Q)
    (vs : list DiagramElement) (a : Q) :
  (forall e, In e vs -> g e = Fin (gq e)) ->
  exists r,
    fold_left (fun acc e => Num.max acc (g e)) vs (Fin a) = Fin r
    /\ a <= r /\ (forall e, In e vs -> gq e <= r)
    /\ (r == a \/ exists e, In e vs /\ r == gq e).
Proof.
  revert a. induction vs as [|v vs IH]; intros a Hg; cbn [fold_left].
  - exists a. split; [reflexivity|]. split; [lra|]. split; [intros e []|left; reflexivity].
  - rewrite (Hg v (or_introl eq_refl)). unfold Num.max at 2. rewrite ltb_fin.
    destruct (Qltb_spec a (gq v)) as [L|L].
    + destruct (IH (gq v) (fun e H => Hg e (or_intror H))) as (r & -> & H1 & H2 & H3).
      exists r. split; [reflexivity|]. split; [lra|]. split.
      * intros e [<-|He]; [lra | auto].
      * right. destruct H3 as [H3|(e & He & H3)];
          [exists v; split; [now left | exact H3] | exists e; split; [now right | exact H3]].
    + destruct (IH a (fun e H => Hg e (or_intror H))) as (r & -> & H1 & H2 & H3).
      exists r. split; [reflexivity|]. split; [lra|]. split.
      * intros e [<-|He]; [lra | auto].
      * destruct H3 as [H3|(e & He & H3)]; [left; exact H3|].
        right. exists e. split; [now right | exact H3].
Qed.

Lemma fold_min_start (g : DiagramElement -> num) (gq : DiagramElement -> Q)
    (v : DiagramElement) (vs : list DiagramElement) :
  (forall e, In e (v :: vs) -> g e = Fin (gq e)) ->
  exists r,
    fold_left (fun acc e => Num.min acc (g e)) (v :: vs) PInf = Fin r
    /\ (forall e, In e (v :: vs) -> r <= gq e)
    /\ (exists e, In e (v :: vs) /\ r == gq e).
Proof.
  intros Hg. cbn [fold_left]. rewrite (Hg v (or_introl eq_refl)). cbn [Num.min ltb].
  destruct (fold_min_fin g gq vs (gq v) (fun e H => Hg e (or_intror H)))
    as (r & -> & H1 & H2 & H3).
  exists r. split; [reflexivity|]. split.
  - intros e [<-|He]; [lra | auto].
  - destruct H3 as [H3|(e & He & H3)];
      [exists v; split; [now left | exact H3] | exists e; split; [now right | exact H3]].
Qed.

Lemma fold_max_start (g : DiagramElement -> num) (gq : DiagramElement -> Q)
    (v : DiagramElement) (vs : list DiagramElement) :
  (forall e, In e (v :: vs) -> g e = Fin (gq e)) ->
  exists r,
    fold_left (fun acc e => Num.max acc (g e)) (v :: vs) NInf = Fin r
    /\ (forall e, In e (v :: vs) -> gq e <= r)
    /\ (exists e, In e (v :: vs) /\ r == gq e).
Proof.
  intros Hg. cbn [fold_left]. rewrite (Hg v (or_introl eq_refl)). cbn [Num.max ltb].
  destruct (fold_max_fin g gq vs (gq v) (fun e H => Hg e (or_intror H)))
    as (r & -> & H1 & H2 & H3).
  exists r. split; [reflexivity|]. split.
  - intros e [<-|He]; [lra | auto].
  - destruct H3 as [H3|(e & He & H3)];
      [exists v; split; [now left | exact H3] | exists e; split; [now right | exact H3]].
Qed.

(** X24.  On a store of finite elements that is not empty, [zoomToFit]
    schedules a focus on the bounding box of the elements: a rectangle
    that contains every element and whose four sides each touch one. *)
Theorem zoomToFit_bounding_box (now : num) (m : Manager) :
  finite_store (elements m) = true ->
  elements m <> [] ->
  exists x0 y0 x1 y1,
    zoomToFit now m
    = with_vm (VM.focusOnBounds_default
                 (qbounds x0 y0 (x1 - x0) (y1 - y0)) now (viewport m)) m
    /\ (forall e, In e (map_values (elements m)) ->
          x0 <= qx e /\ y0 <= qy e
          /\ qx e + qw e <= x1 /\ qy e + qh e <= y1)
    /\ (exists e, In e (map_values (elements m)) /\ x0 == qx e)
    /\ (exists e, In e (map_values (elements m)) /\ y0 == qy e)
    /\ (exists e, In e (map_values (elements m)) /\ x1 == qx e + qw e)
    /\ (exists e, In e (map_values (elements m)) /\ y1 == qy e + qh e).
Proof.
  intros Hfin Hne. unfold zoomToFit.
  destruct (elements m) as [|[k0 e0] t] eqn:Eels; [congruence|]. clear Hne.
  cbn [List.length Nat.eqb]. rewrite <- Eels in *.
  assert (Hall : forall e, In e (map_values (elements m)) -> finite_element e = true).
  { intros e He. unfold map_values in He. apply in_map_iff in He.
    destruct He as [[k e'] [<- Hin]]. eapply finite_store_In; eauto. }
  assert (Hv : exists v vs, map_values (elements m) = v :: vs).
  { rewrite Eels. cbn. eauto. }
  destruct Hv as (v & vs & Ev). rewrite Ev in *.
  destruct (fold_min_start el_x qx v vs) as (x0 & -> & Hx0 & Hx0').
  { intros e He. apply (finite_element_inv e (Hall e He)). }
  destruct (fold_min_start el_y qy v vs) as (y0 & -> & Hy0 & Hy0').
  { intros e He. apply (finite_element_inv e (Hall e He)). }
  destruct (fold_max_start (fun e => (el_x e + el_width e)%num)
              (fun e => qx e + qw e) v vs) as (x1 & -> & Hx1 & Hx1').
  { intros e He. destruct (finite_element_inv e (Hall e He)) as (-> & _ & -> & _).
    reflexivity. }
  destruct (fold_max_start (fun e => (el_y e + el_height e)%num)
              (fun e => qy e + qh e) v vs) as (y1 & -> & Hy1 & Hy1').
  { intros e He. destruct (finite_element_inv e (Hall e He)) as (_ & -> & _ & ->).
    reflexivity. }
  exists x0, y0, x1, y1. split; [reflexivity|].
  split; [intros e He; repeat split; auto|].
  repeat split; assumption.
Qed.

(** An instance. *)
Lemma zoomToFit_bounding_box_witness :
  finite_store (elements testLayout) = true
  /\ elements testLayout <> []
  /\ exists x0 y0 x1 y1,
       zoomToFit (n 0) testLayout
       = with_vm (VM.focusOnBounds_default
                    (qbounds x0 y0 (x1 - x0) (y1 - y0)) (n 0)
                    (viewport testLayout)) testLayout.
Proof.
  assert (H1 : finite_store (elements testLayout) = true) by reflexivity.
  assert (H2 : elements testLayout <> []) by discriminate.
  split; [exact H1 | split; [exact H2 |]].
  destruct (zoomToFit_bounding_box (n 0) testLayout H1 H2)
    as (x0 & y0 & x1 & y1 & E & _).
  exists x0, y0, x1, y1. exact E.
Defined.

(** X25.  With the camera at rest, [focusOnSelected] leaves the viewport
    as it is and schedules one animation of 600 ms; the first frame after
    these 600 ms ends it, and then, in exact arithmetic, the centre of the
    selected element is projected onto the centre of the canvas and the
    element with its margin of 50 fits in the canvas less a padding of 50
    on each side. *)
Theorem focusOnSelected_centres (m : Manager) (sel : string) (e : DiagramElement)
    (x y z W H t0 now : Q) :
  at_rest m x y z W H ->
  selected m = Some sel ->
  map_get sel (elements m) = Some e ->
  finite_element e = true ->
  0 < qw e + 100 -> 0 < qh e + 100 ->
  t0 + 600 <= now ->
  VM.viewport (viewport (focusOnSelected (Fin t0) m)) = qviewport x y z
  /\ VM.scheduled (viewport (exec (Tick (Fin now)) (focusOnSelected (Fin t0) m))) = []
  /\ exists fx fy fz,
       VM.viewport (viewport (exec (Tick (Fin now)) (focusOnSelected (Fin t0) m)))
       = qviewport fx fy fz
       /\ pt_eqv (VM.worldToScreen
                    (viewport (exec (Tick (Fin now)) (focusOnSelected (Fin t0) m)))
                    (center e))
                 (qpoint (W / 2) (H / 2))
       /\ (qw e + 100) * fz <= W - 100
       /\ (qh e + 100) * fz <= H - 100.
Proof.
  intros (Hv & Hc & Hs) Hsel Hget Hfin Hw Hh Hnow.
  destruct (finite_element_inv e Hfin) as (Ex & Ey & Ew & Eh).
  unfold focusOnSelected. rewrite Hsel, Hget.
  cbn [exec viewport with_vm].
  unfold VM.focusOnBounds_default, VM.focusOnBounds, VM.animateViewport.
  rewrite Hv, Hc, Hs. cbn [app VM.viewport VM.canvas VM.scheduled].
  rewrite Ex, Ey, Ew, Eh.
  change (VM.mkBounds (Fin (qx e) - n 50)%num (Fin (qy e) - n 50)%num
                      (Fin (qw e) + n 100)%num (Fin (qh e) + n 100)%num)
    with (qbounds (qx e - 50) (qy e - 50) (qw e + 100) (qh e + 100)).
  change (n 50) with (Fin 50). change (n 600) with (Fin 600).
  destruct (focusTarget_cases W H 50 (qx e - 50) (qy e - 50) (qw e + 100) (qh e + 100) Hw Hh)
    as (tz & -> & Hfw & Hfh & _).
  set (tx := W / 2 - (qx e - 50 + (qw e + 100) / 2) * tz).
  set (ty := H / 2 - (qy e - 50 + (qh e + 100) / 2) * tz).
  set (a := VM.mkAnimation (qviewport x y z) (qviewport tx ty tz) (Fin 600) (Fin t0)).
  split; [reflexivity|].
  assert (H600 : 0 < 600) by lra.
  destruct (progress_fin a 600 t0 now eq_refl eq_refl H600) as (p & Hp & _ & H1 & _).
  specialize (H1 Hnow).
  unfold VM.animationFrame. cbn [VM.scheduled VM.viewport VM.canvas fold_left].
  unfold VM.animate. cbn [VM.scheduled VM.canvas]. rewrite Hp, n_fin, ltb_fin.
  change (inject_Z 1) with 1.
  destruct (Qltb_spec p 1) as [L|_]; [lra|]. split; [reflexivity|].
  unfold a. rewrite (animate_state_fin _ _ _ _ _ _ _ _ _ p Hp).
  do 3 eexists. split; [reflexivity|]. split; [|split].
  - unfold pt_eqv, VM.worldToScreen, center, qviewport, qpoint.
    cbn [VM.viewport VM.vp_x VM.vp_y VM.vp_zoom VM.pt_x VM.pt_y].
    rewrite Ex, Ey, Ew, Eh. autorewrite with num_fin. cbn [eqv].
    unfold tx, ty. rewrite H1. split; field.
  - rewrite H1. ring_simplify. ring_simplify in Hfw. lra.
  - rewrite H1. ring_simplify. ring_simplify in Hfh. lra.
Qed.

(** An instance. *)
Lemma focusOnSelected_centres_witness :
  at_rest oneClass 0 0 1 800 600
  /\ selected oneClass = Some "a"
  /\ VM.scheduled (viewport (exec (Tick (Fin 600)) (focusOnSelected (Fin 0) oneClass)))
     = [].
Proof.
  assert (H1 : at_rest oneClass 0 0 1 800 600) by (repeat split).
  assert (H2 : selected oneClass = Some "a") by reflexivity.
  assert (H3 : map_get "a" (elements oneClass)
               = Some (mkElement "a" (Fin (0 + 800 / 2 - 60)) (Fin (0 + 600 / 2 - 40))
                                 (n 120) (n 80) class [])) by reflexivity.
  assert (H4 : 0 < 120 + 100) by reflexivity.
  assert (H5 : 0 < 80 + 100) by reflexivity.
  assert (H6 : 0 + 600 <= 600) by (unfold Qle; simpl; lia).
  split; [exact H1 | split; [exact H2 |]].
  exact (proj1 (proj2 (focusOnSelected_centres oneClass "a" _ 0 0 1 800 600 0 600
                         H1 H2 H3 eq_refl H4 H5 H6))).
Defined.

End CameraCommandFacts.

(* ================================================================== *)
(** ** The keyboard *)
(* ================================================================== *)

Module KeyFacts.

Import Nav Props Invariants Keys.
Local Open Scope string_scope.
Local Open Scope list_scope.

(** The keys of the table are distinct, so that the order of the calls
    to [set] does not matter to a lookup. *)
Lemma shortcuts_distinct : NoDup (List.map fst shortcuts).
Proof.
  cbn. repeat (constructor; [cbn; intuition discriminate|]). constructor.
Qed.

Lemma handle_command (h : Handler) (id : string) (now : num) (m : Manager) :
  handle h id now m
  = match command_of h id now with Some cmd => exec cmd m | None => m end.
Proof. destruct h; reflexivity. Qed.

(** X26.  No shortcut uses the Alt key, and none uses Ctrl and Shift
    together: a key pressed with Alt, or with Ctrl and Shift, whatever
    the key, finds no handler and leaves the manager as it is.  (So
    Ctrl with Shift and [=], the usual way to type Ctrl and [+], does not
    zoom in.) *)
Theorem modifiers_without_shortcut (toLowerCase : string -> string)
    (inputActive : bool) (e : KeyboardEvent) (id : string) (now : num)
    (m : Manager) :
  altKey e = true \/ (ctrlKey e = true /\ shiftKey e = true) ->
  lookup shortcuts (getShortcut toLowerCase e) = None
  /\ keydown toLowerCase inputActive e id now m = m.
Proof.
  intros H.
  assert (L : lookup shortcuts (getShortcut toLowerCase e) = None).
  { unfold getShortcut. destruct e as [k c s a].
    cbn [key ctrlKey shiftKey altKey] in *.
    set (k' := if k =? "Tab" then _ else _). clearbody k'.
    destruct H as [->|[-> ->]].
    - destruct c, s; reflexivity.
    - destruct a; reflexivity. }
  split; [exact L|]. unfold keydown. rewrite L. now destruct inputActive.
Qed.

(** An instance. *)
Lemma modifiers_without_shortcut_witness :
  (altKey (mkEvent "=" true true false) = true
   \/ (ctrlKey (mkEvent "=" true true false) = true
       /\ shiftKey (mkEvent "=" true true false) = true))
  /\ getShortcut asciiLower (mkEvent "=" true true false) = "Ctrl+Shift+="
  /\ keydown asciiLower false (mkEvent "=" true true false) "id" (n 0) fresh
     = fresh.
Proof.
  assert (H : altKey (mkEvent "=" true true false) = true
              \/ (ctrlKey (mkEvent "=" true true false) = true
                  /\ shiftKey (mkEvent "=" true true false) = true))
    by (right; split; reflexivity).
  split; [exact H | split; [reflexivity |]].
  exact (proj2 (modifiers_without_shortcut asciiLower false
                  (mkEvent "=" true true false) "id" (n 0) fresh H)).
Defined.

(** X27.  A key event does nothing or runs one command: from a
    reachable state the listener leads to a reachable state, whatever
    the key, the modifiers and the focused element. *)
Theorem keydown_reachable (c : VM.Canvas) (toLowerCase : string -> string)
    (inputActive : bool) (e : KeyboardEvent) (id : string) (now : num)
    (m : Manager) :
  reachable c m ->
  reachable c (keydown toLowerCase inputActive e id now m)
  /\ (keydown toLowerCase inputActive e id now m = m
      \/ exists cmd, keydown toLowerCase inputActive e id now m = exec cmd m).
Proof.
  intros Hr. unfold keydown. destruct inputActive; [split; [exact Hr | now left]|].
  destruct (lookup shortcuts _) as [h|]; [|split; [exact Hr | now left]].
  rewrite handle_command. destruct (command_of h id now) as [cmd|].
  - split; [now apply reach_exec | right; now exists cmd].
  - split; [exact Hr | now left].
Qed.

(** An instance. *)
Lemma keydown_reachable_witness :
  reachable canvas800x600 fresh
  /\ reachable canvas800x600
       (keydown asciiLower false (mkEvent "c" false false false) "class_1" (n 0)
                fresh).
Proof.
  assert (H : reachable canvas800x600 fresh) by apply reach_new.
  split; [exact H |].
  exact (proj1 (keydown_reachable canvas800x600 asciiLower false
                  (mkEvent "c" false false false) "class_1" (n 0) fresh H)).
Defined.

(** The keys of the tests. *)
Example keys_of_the_table :
  getShortcut asciiLower (mkEvent "Tab" false true false) = "Shift+Tab"
  /\ getShortcut asciiLower (mkEvent "+" true false false) = "Ctrl+="
  /\ getShortcut asciiLower (mkEvent "L" false false false) = "l"
  /\ selectedId (state (keydown asciiLower false (mkEvent "c" false false false)
                                "class_1" (n 0) fresh)) = Some "class_1"
  /\ keydown asciiLower true (mkEvent "c" false false false) "class_1" (n 0) fresh
     = fresh.
Proof. repeat split; reflexivity. Qed.

End KeyFacts.

(* ================================================================== *)
(** ** Degenerate bounds *)
(* ================================================================== *)

Module FocusSpec.

Import VM Props Invariants NumFacts.
Local Open Scope num_scope.

(** *** Values that are not finite stay so *)

Lemma neg_not_finite (a : num) : finite a = false -> finite (Num.neg a) = false.
Proof. now destruct a. Qed.

Lemma inf_not_finite (s : comparison) : finite (inf s) = false.
Proof. now destruct s. Qed.

Lemma add_not_finite_l (a b : num) : finite a = false -> finite (a + b) = false.
Proof. destruct a, b; cbn; congruence. Qed.

Lemma add_not_finite_r (a b : num) : finite b = false -> finite (a + b) = false.
Proof. destruct a, b; cbn; congruence. Qed.

Lemma sub_not_finite_l (a b : num) : finite a = false -> finite (a - b) = false.
Proof. intros H. unfold Num.sub. now apply add_not_finite_l. Qed.

Lemma sub_not_finite_r (a b : num) : finite b = false -> finite (a - b) = false.
Proof.
  intros H. unfold Num.sub. now apply add_not_finite_r, neg_not_finite.
Qed.

Lemma mul_not_finite_l (a b : num) : finite a = false -> finite (a * b) = false.
Proof.
  destruct a, b; cbn; try congruence; intros _; apply inf_not_finite.
Qed.

Lemma mul_not_finite_r (a b : num) : finite b = false -> finite (a * b) = false.
Proof.
  destruct a, b; cbn; try congruence; intros _; apply inf_not_finite.
Qed.

Lemma min_not_finite (a b : num) :
  finite a = false -> finite b = false -> finite (Num.min a b) = false.
Proof. destruct a, b; cbn; congruence. Qed.

Lemma div_zero_not_finite (a b : Q) :
  (b == 0)%Q -> finite (Fin a / Fin b) = false.
Proof.
  intros H. cbn. destruct (Qeq_bool_spec b 0); [|contradiction].
  apply inf_not_finite.
Qed.

(** C2, as the code has it.  [focusOnBounds] does not floor the width and
    the height: it divides by them as they are.  For bounds of zero width
    and zero height, whatever the (finite) canvas, padding and position,
    the target zoom and the two target translations are not finite
    ([Infinity] or [NaN]), and every frame of the animation, from any
    finite state, writes an [x], a [y] and a zoom that are not finite
    into the viewport. *)
Theorem focusOnBounds_degenerate (W H p bx by_ bw bh sx sy sz : Q)
    (duration startTime now : num) :
  (bw == 0)%Q -> (bh == 0)%Q ->
  let target := focusTarget (qcanvas W H) (qbounds bx by_ bw bh) (Fin p) in
  let written :=
    animate_state (mkAnimation (qviewport sx sy sz) target duration startTime)
                  now in
  (finite (vp_x target) = false /\ finite (vp_y target) = false
   /\ finite (vp_zoom target) = false)
  /\ (finite (vp_x written) = false /\ finite (vp_y written) = false
      /\ finite (vp_zoom written) = false).
Proof.
  intros Hw Hh target written.
  assert (Hz : finite (vp_zoom target) = false).
  { unfold target, focusTarget, qcanvas, qbounds.
    cbn [vp_zoom c_width c_height b_width b_height].
    apply min_not_finite; rewrite n_fin, mul_fin, sub_fin;
      now apply div_zero_not_finite. }
  assert (Hx : finite (vp_x target) = false).
  { unfold target, focusTarget in *. cbn [vp_x vp_zoom] in *.
    now apply sub_not_finite_r, mul_not_finite_r. }
  assert (Hy : finite (vp_y target) = false).
  { unfold target, focusTarget in *. cbn [vp_y vp_zoom] in *.
    now apply sub_not_finite_r, mul_not_finite_r. }
  split; [auto|].
  unfold written, animate_state. cbn [a_start a_target vp_x vp_y vp_zoom].
  repeat split; apply add_not_finite_r, mul_not_finite_l, sub_not_finite_l;
    assumption.
Qed.

(** An instance: the bounds with no extent on the canvas of the tests,
    and the last frame of the animation from the initial state. *)
Lemma focusOnBounds_degenerate_witness :
  (0 == 0)%Q
  /\ finite (vp_zoom (focusTarget (qcanvas 800 600) (qbounds 10 20 0 0) (Fin 50)))
     = false
  /\ finite (vp_zoom (animate_state
                        (mkAnimation (qviewport 0 0 1)
                           (focusTarget (qcanvas 800 600) (qbounds 10 20 0 0)
                                        (Fin 50))
                           (Fin 600) (Fin 0))
                        (Fin 600)))
     = false.
Proof.
  assert (H : (0 == 0)%Q) by reflexivity.
  destruct (focusOnBounds_degenerate 800 600 50 10 20 0 0 0 0 1
              (Fin 600) (Fin 0) (Fin 600) H H) as ((_ & _ & G1) & (_ & _ & G2)).
  split; [exact H | split; [exact G1 | exact G2]].
Defined.

End FocusSpec.

(* ================================================================== *)
(** ** The direction of a spatial move *)
(* ================================================================== *)

Module DirectionSpec.

Import Nav Props Invariants.
Local Open Scope string_scope.
Local Open Scope list_scope.
Local Open Scope Q_scope.

(** C7, as stated, fails: the candidates are not the elements of the
    half-plane of the direction.  From [wide] (x = 100, width 10) the
    element [thin] (x = 85, width 5) is a candidate of a move to the
    right, and the one selected, although no part of it is on the right
    of the left edge of [wide]: the tolerance of 30 applies on the axis
    of the move as well. *)
Lemma candidate_outside_half_plane :
  selected narrow = Some "wide"
  /\ map_get "wide" (elements narrow) = Some (rect "wide" 100 100 10 80 [])
  /\ In ("thin", rect "thin" 85 100 5 80 []) (elements narrow)
  /\ isInDirection (rect "wide" 100 100 10 80 []) (rect "thin" 85 100 5 80 [])
                   right = true
  /\ navigateSpatial right narrow = selectElement "thin" narrow
  /\ ~ half_plane_of right (rect "wide" 100 100 10 80 [])
                           (rect "thin" 85 100 5 80 []).
Proof.
  repeat split; try reflexivity.
  - cbn. right. left. reflexivity.
  - unfold half_plane_of, half_plane. cbn. unfold Qlt; simpl; lia.
Qed.

End DirectionSpec.
